(** * MLCC: a shallow embedding of the Multi-Layer Custom Cipher

    The development follows the Python sources:
    - [mlcc_core.py]                      (module [MLCC]),
    - [attacks/vigenere_cracker.py]       (module [VigenereCracker]),
    - [attacks/transposition_bruteforce.py] (module [TranspositionBruteforce]),
    - [attacks/substitution_cracker.py]   (module [SubstitutionCracker]),
    - [attacks/frequency_analysis.py]     (module [FrequencyAnalysis]).

    Python integers are [Z] where they are arithmetic inputs and [nat]
    where they are lengths and loop counters; a [str] is the list of its
    Unicode code points; a [dict] is a [gmap], a [set] a [gset]; an
    exception is an [exn] carried by the [result] type. *)

From Stdlib Require Import ZArith List Lia String Ascii Floats Uint63.
From stdpp Require Import base tactics option numbers list sorting gmap sets.

Local Open Scope Z_scope.
Local Open Scope nat_scope.

(* The decimal constants of the sources denote the nearest binary64 value,
   in Python as here. *)
Set Warnings "-inexact-float".

#[global] Arguments Nat.modulo : simpl never.
#[global] Arguments Nat.div : simpl never.

(** ** Python run-time values *)

(** The exceptions the modelled code can raise. *)
Inductive exn : Type :=
  | ValueError (msg : string)
  | KeyError
  | IndexError
  | ZeroDivisionError.

(** A computation either raises or returns. *)
Inductive result (A : Type) : Type :=
  | Raise (e : exn)
  | Return (a : A).
Arguments Raise {A} e.
Arguments Return {A} a.

#[global] Instance result_ret : MRet result := fun A a => Return a.
#[global] Instance result_bind : MBind result := fun A B k m =>
  match m with
  | Raise e => Raise e
  | Return a => k a
  end.

(** A comprehension [[f(x) for x in l]] whose body can raise is [mapM f l]:
    the first exception wins. *)

(** A code point, and a [str] as the list of its code points. *)
Abbreviation char := N (only parsing).
Abbreviation str := (list N) (only parsing).

(** Literals: the code points of a Rocq string (ASCII in the sources). *)
Fixpoint lit (s : string) : list N :=
  match s with
  | EmptyString => []
  | String a s' => N_of_ascii a :: lit s'
  end.

(** [ord(c)] and [chr(z)]; [chr] is only applied to 65..90 in the sources. *)
Definition ord (c : N) : Z := Z.of_N c.
Definition chr (z : Z) : N := Z.to_N z.

(** [math.ceil(a / b)] for non-negative [a] and positive [b].  The float
    quotient is exact enough below 2^52, far beyond any string length. *)
Definition ceil_div (a b : nat) : nat :=
  a / b + (if a mod b =? 0 then 0 else 1).

(** [l[i]] for a Python int [i]: negative indices count from the end. *)
Definition getitem {A} (l : list A) (i : Z) : result A :=
  let j := if (i <? 0)%Z then (Z.of_nat (length l) + i)%Z else i in
  if (j <? 0)%Z then Raise IndexError
  else match l !! Z.to_nat j with
       | Some x => Return x
       | None => Raise IndexError
       end.

(** [range(n)] as Python integers. *)
Definition range (n : nat) : list Z := map Z.of_nat (seq 0 n).

(** [l.index(x)]: the first position of [x], or [ValueError]. *)
Fixpoint list_index (l : list Z) (x : Z) : result nat :=
  match l with
  | [] => Raise (ValueError "x is not in list")
  | y :: l' => if (y =? x)%Z then Return 0 else i ← list_index l' x ; Return (S i)
  end.

(** [l[a:b]]: negative bounds count from the end, all bounds are clipped. *)
Definition slice {A} (l : list A) (a b : Z) : list A :=
  let n := Z.of_nat (length l) in
  let clip x := if (x <? 0)%Z then Z.max (x + n) 0 else Z.min x n in
  take (Z.to_nat (clip b - clip a)) (drop (Z.to_nat (clip a)) l).

(** [s.count(w)] for a non-empty [w]: occurrences that do not overlap,
    found from left to right. *)
Fixpoint count_from (w s : list N) (skip : nat) : nat :=
  match s with
  | [] => 0
  | _ :: s' =>
      match skip with
      | S k => count_from w s' k
      | 0 => if bool_decide (take (length w) s = w)
             then S (count_from w s' (length w - 1))
             else count_from w s' 0
      end
  end.

Definition count (s w : list N) : nat := count_from w s 0.

(** A Python [float] is a binary64 number; [float(n)] of a small integer. *)
Definition float_of_nat (n : nat) : float := PrimFloat.of_uint63 (Uint63.of_Z (Z.of_nat n)).

(** [max(a, b)] on floats: the first argument unless the second is larger. *)
Definition float_max (a b : float) : float := if PrimFloat.ltb a b then b else a.

(** [d[k]] for a dict. *)
Definition dict_get `{Countable K} {V} (d : gmap K V) (k : K) : result V :=
  match d !! k with
  | Some v => Return v
  | None => Raise KeyError
  end.

(** [sorted(l, key=k)]: Python's sort is stable, so the result is the one
    of any stable sort.  Elements are inserted left to right, each one
    behind every element whose key is not larger. *)
Fixpoint insert_by {A} (k : A -> Z) (x : A) (l : list A) : list A :=
  match l with
  | [] => [x]
  | y :: l' => if (k y <=? k x)%Z then y :: insert_by k x l' else x :: l
  end.

Definition sorted {A} (k : A -> Z) (l : list A) : list A :=
  foldl (fun acc x => insert_by k x acc) [] l.

(** ** Unicode tables

    [str.upper] and [str.isalpha] are fixed on ASCII; beyond ASCII they are
    given by the interpreter's Unicode database, which is a parameter.
    Upper-casing maps each code point to one or more code points
    (['ß'.upper() == 'SS']), never to none. *)
Class UnicodeDB := {
  upper_ext : N -> list N;
  isalpha_ext : N -> bool;
  upper_ext_nonempty : forall c, upper_ext c <> []
}.

Section Str.
Context `{UnicodeDB}.

Definition upper_char (c : N) : list N :=
  if (c <? 128)%N
  then [if (97 <=? c)%N && (c <=? 122)%N then (c - 32)%N else c]
  else upper_ext c.

(** [s.upper()] *)
Definition upper (s : list N) : list N := flat_map upper_char s.

(** [c.isalpha()] for a one-character string *)
Definition isalpha (c : N) : bool :=
  if (c <? 128)%N
  then ((65 <=? c)%N && (c <=? 90)%N) || ((97 <=? c)%N && (c <=? 122)%N)
  else isalpha_ext c.

(** [''.join(ch for ch in text.upper() if ch.isalpha())] *)
Definition clean (text : list N) : list N := filter (fun c => isalpha c = true) (upper text).
End Str.

(** The database with no cased and no alphabetic code point beyond ASCII;
    it serves to run the model on ASCII inputs, where every database
    agrees. *)
Definition ascii_db : UnicodeDB :=
  {| upper_ext := fun c => [c];
     isalpha_ext := fun _ => false;
     upper_ext_nonempty := fun c (E : [c] = []) =>
       eq_ind [c] (fun l => match l with [] => False | _ :: _ => True end) I [] E |}.

Definition ALPHABET : list N := Eval cbv in lit "ABCDEFGHIJKLMNOPQRSTUVWXYZ".

(** ** mlcc_core.py: the transposition stage *)

Module Zigzag.
(** A grid cell is [''] ([None]) or a one-character string. *)
Abbreviation grid A := (list (list (option A))).

Section Grid.
Context {A : Type}.

(** [[['' for _ in range(num_columns)] for _ in range(num_rows)]] *)
Definition empty_grid (num_rows num_columns : nat) : grid A :=
  replicate num_rows (replicate num_columns None).

(** [grid[row][col]]; every access of the sources is in range. *)
Definition cell (g : grid A) (row col : nat) : option A :=
  match g !! row with
  | Some r => match r !! col with Some c => c | None => None end
  | None => None
  end.

(** [grid[row][col] = ch] *)
Definition set_cell (g : grid A) (row col : nat) (ch : A) : grid A :=
  alter (fun r => <[col := Some ch]> r) row g.

(** [if index < len(text): grid[row][col] = text[index]; index += 1] *)
Definition put_next (text : list A) (row col : nat) (st : grid A * nat) : grid A * nat :=
  let '(g, index) := st in
  match text !! index with
  | Some ch => (set_cell g row col ch, S index)
  | None => (g, index)
  end.

(** [if grid[row][col]: out += grid[row][col]] *)
Definition read_cell (g : grid A) (row col : nat) (out : list A) : list A :=
  match cell g row col with
  | Some ch => out ++ [ch]
  | None => out
  end.

(** [range(num_columns)] when [direction == 1], else
    [range(num_columns - 1, -1, -1)]. *)
Definition columns_in_direction (direction : Z) (num_columns : nat) : list nat :=
  if (direction =? 1)%Z then seq 0 num_columns else reverse (seq 0 num_columns).

(** Lines 54-70 of [encrypt]: the zigzag fill. *)
Definition fill_zigzag (text : list A) (num_rows num_columns : nat) : grid A :=
  let '(g, _, _) :=
    foldl (fun '(g, index, direction) row =>
             let '(g', index') :=
               foldl (fun st col => put_next text row col st) (g, index)
                     (columns_in_direction direction num_columns) in
             (g', index', (direction * -1)%Z))
          (empty_grid num_rows num_columns, 0, 1%Z) (seq 0 num_rows) in
  g.

(** Lines 74-78 of [encrypt]: the column read-out. *)
Definition read_columns (g : grid A) (num_rows : nat) (column_order : list nat) : list A :=
  foldl (fun out col =>
           foldl (fun out row => read_cell g row col out) out (seq 0 num_rows))
        [] column_order.

(** Lines 134-146 of [decrypt]: the zigzag read-back. *)
Definition read_zigzag (g : grid A) (num_rows num_columns : nat) : list A :=
  fst (foldl (fun '(out, direction) row =>
                (foldl (fun out col => read_cell g row col out) out
                       (columns_in_direction direction num_columns),
                 (direction * -1)%Z))
             ([], 1%Z) (seq 0 num_rows)).

(** [sorted(range(num_columns), key=lambda i: transposition_key[i])] *)
Definition column_order_of (transposition_key : list Z) : list nat :=
  sorted (fun i => default 0%Z (transposition_key !! i)) (seq 0 (length transposition_key)).

Record transposed := {
  t_ciphertext : list A;
  t_grid : grid A;
  t_column_order : list nat
}.

(** Lines 51-78 of [encrypt]. *)
Definition encrypt (transposition_key : list Z) (vigenere_result : list A) : result transposed :=
  let num_columns := length transposition_key in
  if num_columns =? 0 then Raise ZeroDivisionError else
  let num_rows := ceil_div (length vigenere_result) num_columns in
  let g := fill_zigzag vigenere_result num_rows num_columns in
  let column_order := column_order_of transposition_key in
  Return {| t_ciphertext := read_columns g num_rows column_order;
            t_grid := g;
            t_column_order := column_order |}.

(** Lines 108-114 of [decrypt]. *)
Definition short_columns_of (num_rows num_columns num_empty_cells : nat) : list nat :=
  if 0 <? num_empty_cells then
    let last_row_index := (Z.of_nat num_rows - 1)%Z in
    if (last_row_index mod 2 =? 0)%Z
    then seq (num_columns - num_empty_cells) num_empty_cells
    else seq 0 num_empty_cells
  else [].

(** Lines 117-122 of [decrypt]: the dict [col_lengths]. *)
Definition col_lengths_of (num_rows num_columns : nat) (short_columns : list nat)
    : gmap nat nat :=
  foldl (fun col_lengths col_index =>
           if bool_decide (col_index ∈ short_columns)
           then <[col_index := num_rows - 1]> col_lengths
           else <[col_index := num_rows]> col_lengths)
        ∅ (seq 0 num_columns).

(** Lines 124-132 of [decrypt]: the grid is filled column by column. *)
Definition fill_columns (ciphertext : list A) (num_rows num_columns : nat)
    (column_order : list nat) (col_lengths : gmap nat nat) : result (grid A) :=
  st ← foldl (fun acc original_col_index =>
                st ← acc ;
                length ← dict_get col_lengths original_col_index ;
                Return (foldl (fun st row => put_next ciphertext row original_col_index st)
                              st (seq 0 length)))
             (Return (empty_grid num_rows num_columns, 0)) column_order ;
  Return (fst st).

(** Lines 95-146 of [decrypt]. *)
Definition decrypt (transposition_key : list Z) (ciphertext : list A) : result (list A) :=
  let num_columns := length transposition_key in
  let L := length ciphertext in
  if num_columns =? 0 then Raise ZeroDivisionError else
  let num_rows := ceil_div L num_columns in
  let column_order := column_order_of transposition_key in
  let total_grid_cells := num_rows * num_columns in
  let num_empty_cells := total_grid_cells - L in
  let short_columns := short_columns_of num_rows num_columns num_empty_cells in
  let col_lengths := col_lengths_of num_rows num_columns short_columns in
  g ← fill_columns ciphertext num_rows num_columns column_order col_lengths ;
  Return (read_zigzag g num_rows num_columns).
End Grid.
Arguments transposed : clear implicits.
End Zigzag.


(** ** mlcc_core.py: the cipher *)

Module MLCC.

(** [{keys[i]: vals[i] for i in range(26)}]; a later entry with the same key
    replaces an earlier one. *)
Definition dict_of (keys vals : list N) : result (gmap N N) :=
  foldl (fun acc i =>
           d ← acc ;
           k ← getitem keys i ;
           v ← getitem vals i ;
           Return (<[k := v]> d))
        (Return ∅) (range 26).

(** The attributes of an [MLCCipher] object. *)
Record MLCCipher := {
  substitution_key : list N;
  vigenere_key : list N;
  transposition_key : list Z;
  substitution_map : gmap N N;
  reverse_substitution_map : gmap N N
}.

(** The result of [encrypt]. *)
Record intermediate_steps := {
  substituted_text : list N;
  vigenere_result : list N;
  grid : Zigzag.grid N;
  column_order : list nat
}.

Record encrypted := {
  ciphertext : list N;
  steps : intermediate_steps
}.

Definition ord_A : Z := 65.

(** Line 45: [chr((ord(char) - ord('A') + shift * modifier) % 26 + ord('A'))] *)
Definition encrypt_char (char : N) (shift modifier : Z) : N :=
  chr ((ord char - ord_A + shift * modifier) mod 26 + ord_A).

(** Line 157: [chr((ord(char) - ord('A') - shift * modifier + 26) % 26 + ord('A'))] *)
Definition decrypt_char (char : N) (shift modifier : Z) : N :=
  chr ((ord char - ord_A - shift * modifier + 26) mod 26 + ord_A).

(** Lines 48-49 and 160-161: the update of [key_rotation] after position [i]. *)
Definition next_rotation (K i key_rotation : nat) : nat :=
  if (i + 1) mod 5 =? 0 then (key_rotation + 1) mod K else key_rotation.

(** Lines 39-49 (with [encrypt_char]) and 151-161 (with [decrypt_char]):
    the loop over [enumerate(text)], entered at position [i] with the
    current [key_rotation]. *)
Fixpoint vigenere_loop (f : N -> Z -> Z -> N) (vigenere_key : list N)
    (i key_rotation : nat) (text : list N) : result (list N) :=
  match text with
  | [] => Return []
  | char :: rest =>
      let K := length vigenere_key in
      if K =? 0 then Raise ZeroDivisionError else
      effective_key ← getitem vigenere_key (Z.of_nat ((i + key_rotation) mod K)) ;
      let shift := (ord effective_key - ord_A)%Z in
      let modifier := (Z.of_nat (i mod 5) + 1)%Z in
      let out_char := f char shift modifier in
      out ← vigenere_loop f vigenere_key (S i) (next_rotation K i key_rotation) rest ;
      Return (out_char :: out)
  end.

(** The value of [key_rotation] on entry to iteration [i]. *)
Fixpoint key_rotation_at (K i : nat) : nat :=
  match i with
  | 0 => 0
  | S j => next_rotation K j (key_rotation_at K j)
  end.

(** The shift read from the key at position [i], and the closed form of
    the loop. *)
Definition shift_at (vigenere_key : list N) (i : nat) : Z :=
  let K := length vigenere_key in
  match vigenere_key !! ((i + key_rotation_at K i) mod K) with
  | Some effective_key => (ord effective_key - ord_A)%Z
  | None => 0%Z
  end.

Definition vigenere (f : N -> Z -> Z -> N) (vigenere_key : list N) (text : list N) : list N :=
  imap (fun i char => f char (shift_at vigenere_key i) (Z.of_nat (i mod 5) + 1)%Z) text.

(** An upper-case letter [A]..[Z]. *)
Definition is_AZ (c : N) : Prop := (65 <= c <= 90)%N.

#[global] Instance is_AZ_dec (c : N) : Decision (is_AZ c).
Proof. unfold is_AZ. apply _. Defined.

Section Cipher.
Context `{UnicodeDB}.

(** [MLCCipher.__init__]; the debug [print] of line 11 is not modelled. *)
Definition init (substitution_key vigenere_key : list N) (transposition_key : list Z)
    : result MLCCipher :=
  if bool_decide (length substitution_key ≠ 26
                  \/ size (list_to_set substitution_key : gset N) ≠ 26)
  then Raise (ValueError "Substitution key must be 26 unique characters")
  else if length vigenere_key <? 10
  then Raise (ValueError "Vigenere key must be at least 10 characters")
  else if length transposition_key <? 3
  then Raise (ValueError "Transposition key must have at least 3 elements")
  else
    let substitution_key := upper substitution_key in
    let vigenere_key := upper vigenere_key in
    let standard_alphabet := ALPHABET in
    substitution_map ← dict_of standard_alphabet substitution_key ;
    reverse_substitution_map ← dict_of substitution_key standard_alphabet ;
    Return {| substitution_key := substitution_key;
              vigenere_key := vigenere_key;
              transposition_key := transposition_key;
              substitution_map := substitution_map;
              reverse_substitution_map := reverse_substitution_map |}.

(** [MLCCipher.encrypt] *)
Definition encrypt (self : MLCCipher) (plaintext : list N) : result encrypted :=
  let cleaned_text := filter (fun c => isalpha c = true) (upper plaintext) in
  substituted_text ← mapM (dict_get (substitution_map self)) cleaned_text ;
  vigenere_result ← vigenere_loop encrypt_char (vigenere_key self) 0 0 substituted_text ;
  t ← Zigzag.encrypt (transposition_key self) vigenere_result ;
  Return {| ciphertext := Zigzag.t_ciphertext t;
            steps := {| substituted_text := substituted_text;
                        vigenere_result := vigenere_result;
                        grid := Zigzag.t_grid t;
                        column_order := Zigzag.t_column_order t |} |}.

(** [MLCCipher.decrypt] *)
Definition decrypt (self : MLCCipher) (ciphertext : list N) : result (list N) :=
  vigenere_result ← Zigzag.decrypt (transposition_key self) ciphertext ;
  substituted_text ← vigenere_loop decrypt_char (vigenere_key self) 0 0 vigenere_result ;
  mapM (dict_get (reverse_substitution_map self)) substituted_text.

(** [mlcc_encrypt.py] and [mlcc_decrypt.py]: the result dictionaries
    [{"success": True, ...}] and [{"success": False, "error": str(e)}]. *)
Inductive response (A : Type) : Type :=
  | Success (a : A)
  | Failure (error : exn).
#[global] Arguments Success {A} a.
#[global] Arguments Failure {A} error.

Definition catch {A} (m : result A) : response A :=
  match m with
  | Return a => Success a
  | Raise e => Failure e
  end.

Definition mlcc_encrypt (plaintext substitution_key vigenere_key : list N)
    (transposition_key : list Z) : response encrypted :=
  catch (cipher ← init substitution_key vigenere_key transposition_key ;
         encrypt cipher plaintext).

Definition mlcc_decrypt (ciphertext substitution_key vigenere_key : list N)
    (transposition_key : list Z) : response (list N) :=
  catch (cipher ← init substitution_key vigenere_key transposition_key ;
         decrypt cipher ciphertext).

End Cipher.

(** The keys the specification calls invalid: the substitution key is not
    exactly 26 distinct symbols, or the Vigenère key is shorter than 10, or
    the transposition key has fewer than 3 elements. *)
Definition invalid_keys (substitution_key vigenere_key : list N)
    (transposition_key : list Z) : Prop :=
  ~ (length substitution_key = 26 /\ NoDup substitution_key)
  \/ length vigenere_key < 10
  \/ length transposition_key < 3.

End MLCC.

(** ** attacks/vigenere_cracker.py *)

Module VigenereCracker.

(** [ALPHABET_MAP = {c: i for i, c in enumerate(ALPHABET)}] *)
Definition ALPHABET_MAP : gmap N Z :=
  foldl (fun d ic => <[ic.2 := Z.of_nat ic.1]> d) ∅ (imap pair ALPHABET).

(** [INV_ALPHABET_MAP = {i: c for c, i in ALPHABET_MAP.items()}] *)
Definition INV_ALPHABET_MAP : gmap Z N :=
  foldl (fun d ic => <[Z.of_nat ic.1 := ic.2]> d) ∅ (imap pair ALPHABET).

(** [(i + (i // 5)) % keylen]; Python's [//] and [%] round to the floor, as
    [Z.div] and [Z.modulo] do. *)
Definition pos_to_key_index (i keylen : Z) : result Z :=
  if (keylen =? 0)%Z then Raise ZeroDivisionError
  else Return ((i + i / 5) mod keylen)%Z.

Definition modifier_for_pos (i : Z) : Z := (i mod 5 + 1)%Z.

Definition possible_shifts_for_pair (sub_ch vig_ch : N) (modifier : Z) : list Z :=
  match ALPHABET_MAP !! sub_ch, ALPHABET_MAP !! vig_ch with
  | Some s_sub, Some s_vig =>
      filter (fun s => ((s_sub + s * modifier) mod 26)%Z = s_vig) (range 26)
  | _, _ => []
  end.

(** The dict [derive_candidates_for_keylen] returns. *)
Record candidates := {
  keylen : Z;
  per_position_candidates : list (list Z);
  enumerated_keys : option (list (list Z * list N));
  estimated_combinations : Z
}.

(** [l[i] = x] *)
Definition setitem {A} (l : list A) (i : Z) (x : A) : result (list A) :=
  let j := if (i <? 0)%Z then (Z.of_nat (length l) + i)%Z else i in
  if (j <? 0)%Z || (Z.of_nat (length l) <=? j)%Z then Raise IndexError
  else Return (<[Z.to_nat j := x]> l).

(** Lines 80-92: the loop over [range(n)]; [Return None] is the early
    [return None]. *)
Fixpoint candidates_loop (substituted vigenere_result : list N) (keylen : Z)
    (positions : list nat) (candidates : list (gset Z)) : result (option (list (gset Z))) :=
  match positions with
  | [] => Return (Some candidates)
  | i :: rest =>
      p ← pos_to_key_index (Z.of_nat i) keylen ;
      let modifier := modifier_for_pos (Z.of_nat i) in
      sub_ch ← getitem substituted (Z.of_nat i) ;
      vig_ch ← getitem vigenere_result (Z.of_nat i) ;
      let poss := possible_shifts_for_pair sub_ch vig_ch modifier in
      if bool_decide (poss = []) then Return None else
      c ← getitem candidates p ;
      let c := c ∩ list_to_set poss in
      candidates ← setitem candidates p c ;
      if size c =? 0 then Return None else
      candidates_loop substituted vigenere_result keylen rest candidates
  end.

(** Lines 96-100: the product of the list sizes, abandoned once it exceeds
    the cap. *)
Fixpoint total_comb_loop (max_combinations total_comb : Z) (candidate_lists : list (list Z))
    : Z :=
  match candidate_lists with
  | [] => total_comb
  | lst :: rest =>
      let total_comb := (total_comb * Z.max 1 (Z.of_nat (length lst)))%Z in
      if (total_comb >? max_combinations)%Z then total_comb
      else total_comb_loop max_combinations total_comb rest
  end.

(** [itertools.product] of the unpacked [lists]: the rightmost list
    advances fastest. *)
Fixpoint product {A} (lists : list (list A)) : list (list A) :=
  match lists with
  | [] => [[]]
  | l :: rest => flat_map (fun x => map (cons x) (product rest)) l
  end.

Definition derive_candidates_for_keylen (substituted vigenere_result : list N)
    (keylen max_combinations : Z) : result (option candidates) :=
  let n := length substituted in
  let candidates := replicate (Z.to_nat keylen) (list_to_set (range 26) : gset Z) in
  looped ← candidates_loop substituted vigenere_result keylen (seq 0 n) candidates ;
  match looped with
  | None => Return None
  | Some candidates =>
      let candidate_lists := map (fun c => sorted (fun s => s) (elements c)) candidates in
      let total_comb := total_comb_loop max_combinations 1 candidate_lists in
      if (total_comb =? 0)%Z then Return None else
      keys ← (if (total_comb <=? max_combinations)%Z
              then keys ← mapM (fun combo =>
                                  key_letters ← mapM (dict_get INV_ALPHABET_MAP) combo ;
                                  Return (combo, key_letters))
                               (product candidate_lists) ;
                   Return (Some keys)
              else Return None) ;
      Return (Some {| keylen := keylen;
                      per_position_candidates := candidate_lists;
                      enumerated_keys := keys;
                      estimated_combinations := total_comb |})
  end.

(** The numeric shift of a key letter, and the letter of a shift. *)
Definition shift_of (k : N) : Z := (ord k - MLCC.ord_A)%Z.
Definition letter_of (s : Z) : N := chr (s + MLCC.ord_A).

(** The number of combinations of the per-position candidates. *)
Definition combinations (candidate_lists : list (list Z)) : Z :=
  foldr (fun lst acc => (Z.of_nat (length lst) * acc)%Z) 1%Z candidate_lists.

(** [range(a, b)] *)
Definition range_from (a b : Z) : list Z :=
  map (fun k => (a + Z.of_nat k)%Z) (seq 0 (Z.to_nat (b - a))).

Definition solve_by_trying_keylens (substituted vigenere_result : list N)
    (min_len max_len max_enum : Z) : result (list candidates) :=
  foldl (fun acc L =>
           results ← acc ;
           res ← derive_candidates_for_keylen substituted vigenere_result L max_enum ;
           match res with
           | None => Return results
           | Some res => Return (results ++ [res])
           end)
        (Return []) (range_from min_len (max_len + 1)).

(** How [main] ends: [sys.exit(code)] after a message, or after printing the
    result blocks. *)
Inductive main_outcome : Type :=
  | SysExit (code : Z) (message : string)
  | Printed (results : list candidates).

Section Main.
Context `{UnicodeDB}.

(** [clean_alpha] *)
Definition clean_alpha (s : list N) : list N := filter (fun ch => isalpha ch = true) (upper s).

(** The arguments [main] gets from [argparse]; an option that is not given
    is [None]. *)
Record args := {
  a_sub_file : option (list N);
  a_vig_file : option (list N);
  a_sub_string : option (list N);
  a_vig_string : option (list N);
  a_min_keylen : Z;
  a_max_keylen : Z;
  a_max_enumerate : Z;
  a_clean : bool
}.

(** The truth value of an optional string: [None] and [''] are false. *)
Definition truthy (s : option (list N)) : bool :=
  match s with
  | Some (_ :: _) => true
  | _ => false
  end.

(** What [main] sees of the file system: [None] for a path where
    [os.path.exists] is false, else what
    [open(path, "r", encoding="utf-8", errors="ignore").read()] gives, a
    string or an exception. *)
Definition files : Type := list N -> option (result (list N)).

(** One input after lines 169-175 (or 177-183): [main] has exited, or holds
    the raw string. *)
Inductive loaded : Type :=
  | Exit (outcome : main_outcome)
  | Text (raw : list N).

(** Lines 169-175 for the substituted text and lines 177-183 for the
    Vigenère result: the same steps on the two pairs of arguments.  Where
    the string is read, the guards of lines 161-166 have made sure that it
    is given. *)
Definition load (file_name given_string : option (list N)) (not_found : string) (fs : files)
    : result loaded :=
  if truthy file_name then
    match fs (default [] file_name) with
    | None => Return (Exit (SysExit 2 not_found))
    | Some contents => raw ← contents ; Return (Text raw)
    end
  else Return (Text (default [] given_string)).

(** [main], from the parsed arguments on.  The message of a [SysExit] is
    the first line printed to [stderr] (for status 0, to [stdout]); the
    [[INFO]] line, the second line of the length report and the closing
    hints are not modelled. *)
Definition main (a : args) (fs : files) : result main_outcome :=
  if negb (truthy (a_sub_file a) || truthy (a_sub_string a))
  then Return (SysExit 2 "Provide substituted string via --sub-string or --sub-file")
  else if negb (truthy (a_vig_file a) || truthy (a_vig_string a))
  then Return (SysExit 2 "Provide vigenere result via --vig-string or --vig-file")
  else
    sub ← load (a_sub_file a) (a_sub_string a) "Substituted file not found." fs ;
    match sub with
    | Exit outcome => Return outcome
    | Text sub_raw =>
        vig ← load (a_vig_file a) (a_vig_string a) "Vigenere file not found." fs ;
        match vig with
        | Exit outcome => Return outcome
        | Text vig_raw =>
            let substituted :=
              if a_clean a then clean_alpha sub_raw
              else filter (fun ch => isalpha ch = true) (upper sub_raw) in
            let vigenere_result :=
              if a_clean a then clean_alpha vig_raw
              else filter (fun ch => isalpha ch = true) (upper vig_raw) in
            if bool_decide (length substituted ≠ length vigenere_result)
            then Return (SysExit 2 "Length mismatch after cleaning/alignment. Make sure strings are aligned and same length.")
            else if length substituted =? 0
            then Return (SysExit 2 "No alphabetic content found after cleaning.")
            else
              results ← solve_by_trying_keylens substituted vigenere_result
                          (a_min_keylen a) (a_max_keylen a) (a_max_enumerate a) ;
              if bool_decide (results = [])
              then Return (SysExit 0 "No consistent key length found in the given range.")
              else Return (Printed results)
        end
    end.
End Main.

End VigenereCracker.

(** ** attacks/transposition_bruteforce.py *)

(** What the solvers use of [random.Random] and [math]: the generator and
    [math.exp] live in the interpreter.  [Random_seeded seed] is
    [random.Random(seed)] for an integer seed; [Random_urandom bytes] is
    [random.Random(None)], which seeds itself from the bytes the operating
    system hands out at that moment. *)
Class PyRuntime := {
  rng : Type;
  Random_seeded : Z -> rng;
  Random_urandom : Z -> rng;
  rng_shuffle : list Z -> rng -> list Z * rng;
  rng_sample2 : nat -> rng -> result ((nat * nat) * rng);
  rng_random : rng -> float * rng;
  math_exp : float -> float
}.

Module TranspositionBruteforce.

Definition COMMON_WORDS : list (list N) :=
  Eval cbv in map lit ["THE";"AND";"ING";"ION";"ENT";"HER";"FOR";"THA";"NTH";"HES";"HIS";
                       "ERE";"TIO";"VER";"ALL";"WAS";"YOU"]%string.

(** [columnar_decrypt] *)
Definition columnar_decrypt {A} (cipher : list A) (key_order : list Z) : result (list A) :=
  let n_cols := length key_order in
  if n_cols =? 0 then Raise ZeroDivisionError else
  let n_rows := ceil_div (length cipher) n_cols in
  let full_cols := length cipher mod n_cols in
  let col_lengths :=
    map (fun i => if i <? full_cols then Z.of_nat n_rows else (Z.of_nat n_rows - 1)%Z)
        (seq 0 n_cols) in
  st ← foldl (fun acc pos =>
                '(cols, index) ← acc ;
                k ← list_index key_order pos ;
                col_len ← getitem col_lengths (Z.of_nat k) ;
                Return (cols ++ [slice cipher index (index + col_len)], (index + col_len)%Z))
             (Return ([], 0%Z)) (range n_cols) ;
  let cols : list (list A) := st.1 in
  Return (flat_map (fun r =>
            flat_map (fun c =>
                        match cols !! c with
                        | Some col => match col !! r with Some x => [x] | None => [] end
                        | None => []
                        end)
                     (seq 0 n_cols))
            (seq 0 n_rows)).

Section Solver.
Context `{UnicodeDB} `{PyRuntime}.

(** [random.Random(rng_seed)]; [urandom] is what the operating system hands
    out when the seed is [None]. *)
Definition Random (rng_seed : option Z) (urandom : Z) : rng :=
  match rng_seed with
  | Some seed => Random_seeded seed
  | None => Random_urandom urandom
  end.

Definition score_text (text : list N) : float :=
  let up := upper text in
  let score := foldl (fun score w => score + float_of_nat (count up w) * 4)%float
                     0%float COMMON_WORDS in
  let score := (score + float_of_nat (length (filter (fun ch => ch ∈ lit "ETAOINSHRDLU") up))
                        * 0.2)%float in
  (score / float_of_nat (Nat.max 1 (length text)))%float.

Definition random_key (n_cols : nat) (g : rng) : list Z * rng :=
  rng_shuffle (range n_cols) g.

(** The variables of [hillclimb_transposition]. *)
Record climb := {
  c_rng : rng;
  current_key : list Z;
  current_plain : list N;
  current_score : float;
  best_key : option (list Z);
  best_plain : list N;
  best_score : float
}.

(** [new_key[a], new_key[b] = new_key[b], new_key[a]] *)
Definition swap (key : list Z) (a b : nat) : result (list Z) :=
  x ← getitem key (Z.of_nat a) ;
  y ← getitem key (Z.of_nat b) ;
  Return (<[b := x]> (<[a := y]> key)).

(** One iteration of the inner loop, lines 93-105. *)
Definition climb_step (cipher : list N) (keylen iterations : nat) (st : climb) (i : nat)
    : result climb :=
  '(a, b, g) ← rng_sample2 keylen (c_rng st) ;
  new_key ← swap (current_key st) a b ;
  new_plain ← columnar_decrypt cipher new_key ;
  let new_score := score_text new_plain in
  let '(accept, g) :=
    if PrimFloat.ltb (current_score st) new_score then (true, g)
    else
      let '(u, g) := rng_random g in
      (PrimFloat.ltb u
         (math_exp ((new_score - current_score st)
                    / float_max 1e-6 (1 - float_of_nat i / float_of_nat iterations))),
       g) in
  let st := if accept
            then {| c_rng := g; current_key := new_key; current_plain := new_plain;
                    current_score := new_score; best_key := best_key st;
                    best_plain := best_plain st; best_score := best_score st |}
            else {| c_rng := g; current_key := current_key st;
                    current_plain := current_plain st; current_score := current_score st;
                    best_key := best_key st; best_plain := best_plain st;
                    best_score := best_score st |} in
  Return (if PrimFloat.ltb (best_score st) (current_score st)
          then {| c_rng := c_rng st; current_key := current_key st;
                  current_plain := current_plain st; current_score := current_score st;
                  best_key := Some (current_key st); best_plain := current_plain st;
                  best_score := current_score st |}
          else st).

(** [hillclimb_transposition]; the [verbose] prints are not modelled. *)
Definition hillclimb_transposition (cipher : list N) (keylen iterations restarts : nat)
    (rng_seed : option Z) (urandom : Z) : result (option (list Z) * list N * float) :=
  let g := Random rng_seed urandom in
  st ← foldl (fun acc r =>
                '(g, best_key_, best_plain_, best_score_) ← acc ;
                let '(current_key_, g) := random_key keylen g in
                current_plain_ ← columnar_decrypt cipher current_key_ ;
                let current_score_ := score_text current_plain_ in
                st ← foldl (fun acc i => st ← acc ; climb_step cipher keylen iterations st i)
                           (Return {| c_rng := g; current_key := current_key_;
                                      current_plain := current_plain_;
                                      current_score := current_score_;
                                      best_key := best_key_; best_plain := best_plain_;
                                      best_score := best_score_ |})
                           (seq 0 iterations) ;
                Return (c_rng st, best_key st, best_plain st, best_score st))
             (Return (g, None, [], (-1e9)%float)) (seq 0 restarts) ;
  Return (st.1.1.2, st.1.2, st.2).

(** [brute_force_lengths]: [hillclimb_transposition] is called without
    [rng_seed], so each call builds [random.Random(None)]; [os_urandom k] is
    what the operating system hands out at the [k]-th call. *)
Definition brute_force_lengths (cipher : list N) (min_len max_len iterations restarts : nat)
    (os_urandom : nat -> Z) : result (option nat * option (list Z) * list N * float) :=
  let cleaned := clean cipher in
  foldl (fun acc L =>
           '(best_len, best_key, best_plain, best_score) ← acc ;
           '(key, plain, score) ←
             hillclimb_transposition cleaned L iterations restarts None
                                     (os_urandom (L - min_len)) ;
           if PrimFloat.ltb best_score score
           then Return (Some L, key, plain, score)
           else Return (best_len, best_key, best_plain, best_score))
        (Return (None, None, [], (-1e9)%float))
        (seq min_len (max_len + 1 - min_len)).

(** The command-line arguments of [main]. *)
Record args := {
  a_string : list N;
  a_min_keylen : nat;
  a_max_keylen : nat;
  a_iterations : nat;
  a_restarts : nat;
  a_seed : option Z
}.

(** [main], from the cleaning of the input to the call of the solver:
    [None] is [sys.exit(2)] on an input without letters. *)
Definition main (a : args) (os_urandom : nat -> Z)
    : result (option (option nat * option (list Z) * list N * float)) :=
  let cleaned := clean (a_string a) in
  if bool_decide (cleaned = []) then Return None
  else
    r ← brute_force_lengths cleaned (a_min_keylen a) (a_max_keylen a)
                            (a_iterations a) (a_restarts a) os_urandom ;
    Return (Some r).

End Solver.
End TranspositionBruteforce.

(** ** A generator to run the solvers

    A linear congruential generator stands in for the interpreter's
    Mersenne Twister: it serves to run the solvers on concrete inputs.
    [math.exp] stays a parameter. *)

Definition lcg_next (s : Z) : Z := ((s * 1103515245 + 12345) mod 2147483648)%Z.

(** Fisher-Yates, as [random.shuffle]: for [i] from [n - 1] down to 1,
    swap [l[i]] with [l[j]] for a [j] drawn below [i + 1]. *)
Fixpoint lcg_shuffle_from (i : nat) (l : list Z) (s : Z) : list Z * Z :=
  match i with
  | 0 => (l, s)
  | S i' =>
      let s := lcg_next s in
      let j := Z.to_nat (s mod Z.of_nat (S i)) in
      match l !! i, l !! j with
      | Some x, Some y => lcg_shuffle_from i' (<[j := x]> (<[i := y]> l)) s
      | _, _ => (l, s)
      end
  end.

(** Two distinct positions below [n], as [random.sample(range(n), 2)]. *)
Definition lcg_sample2 (n : nat) (s : Z) : result ((nat * nat) * Z) :=
  if n <? 2 then Raise (ValueError "Sample larger than population or is negative")
  else
    let s1 := lcg_next s in
    let s2 := lcg_next s1 in
    let a := Z.to_nat (s1 mod Z.of_nat n) in
    let b := (a + 1 + Z.to_nat (s2 mod Z.of_nat (n - 1))) mod n in
    Return ((a, b), s2).

Definition lcg (exp : float -> float) : PyRuntime :=
  {| rng := Z;
     Random_seeded := fun seed => seed;
     Random_urandom := fun bytes => bytes;
     rng_shuffle := fun l s => lcg_shuffle_from (length l - 1) l s;
     rng_sample2 := lcg_sample2;
     rng_random := fun s => let s := lcg_next s in
                            ((PrimFloat.of_uint63 (Uint63.of_Z s) / 2147483648)%float, s);
     math_exp := exp |}.

(** ** attacks/substitution_cracker.py *)

Module SubstitutionCracker.

(** Lines 58-62 of [apply_key_plain_to_cipher]: the dict [inv], built over
    [enumerate(ALPHABET)]. *)
Definition inverse_of (key_plain_to_cipher : list N) : result (gmap N N) :=
  foldl (fun acc '(i, plain_letter) =>
           inv ← acc ;
           cipher_letter ← getitem key_plain_to_cipher (Z.of_nat i) ;
           Return (<[cipher_letter := plain_letter]> inv))
        (Return ∅) (imap pair ALPHABET).

Section Decode.
Context `{UnicodeDB}.

(** [clean] *)
Definition clean (text : list N) : list N := filter (fun ch => isalpha ch = true) (upper text).

(** [apply_key_plain_to_cipher]; [63] is ['?']. *)
Definition apply_key_plain_to_cipher (ciphertext key_plain_to_cipher : list N)
    : result (list N) :=
  inv ← inverse_of key_plain_to_cipher ;
  Return (map (fun ch => if isalpha ch then default 63%N (inv !! ch) else ch) ciphertext).

(** [decode_with_key] *)
Definition decode_with_key (ciphertext_clean key_plain_to_cipher : list N) : result (list N) :=
  apply_key_plain_to_cipher ciphertext_clean key_plain_to_cipher.

(** [key_plain_to_cipher_to_string] *)
Definition key_plain_to_cipher_to_string (key : list N) : list N := upper key.

End Decode.
End SubstitutionCracker.

(** ** attacks/frequency_analysis.py *)

Module FrequencyAnalysis.

Definition ENGLISH_FREQ_ORDER : list N := Eval cbv in lit "ETAOINSHRDLCUMWFGYPBVKJXQZ".

(** [counts[ch] += 1] on a [Counter]: a dict keeps its keys in the order of
    their first insertion, so a [Counter] is the list of its items. *)
Fixpoint Counter_add (ch : N) (counts : list (N * nat)) : list (N * nat) :=
  match counts with
  | [] => [(ch, 1)]
  | (c, cnt) :: rest => if (c =? ch)%N then (c, S cnt) :: rest
                        else (c, cnt) :: Counter_add ch rest
  end.

(** [Counter(text)] *)
Definition Counter (text : list N) : list (N * nat) :=
  foldl (fun counts ch => Counter_add ch counts) [] text.

(** [counts.most_common()], which is
    [sorted(counts.items(), key=itemgetter(1), reverse=True)]: a reversed
    sort keeps the stability, so it is the stable sort by descending
    count. *)
Definition most_common (counts : list (N * nat)) : list (N * nat) :=
  sorted (fun kv => (- Z.of_nat kv.2)%Z) counts.

Section Text.
Context `{UnicodeDB}.

(** [clean_text] *)
Definition clean_text (text : list N) (keep_nonalpha : bool) : list N :=
  if keep_nonalpha then text
  else filter (fun ch => isalpha ch = true) (upper text).

(** [frequency_table]: the [OrderedDict] is the list of its items (the keys
    of a [Counter] are distinct); [cnt / total] is the float quotient. *)
Definition frequency_table (text : list N) : list (N * (nat * float)) * nat :=
  let text := clean_text text false in
  let total := length text in
  let counts := Counter text in
  let letters := sorted (fun kv => (- Z.of_nat kv.2)%Z) counts in
  let freq :=
    map (fun '(ch, cnt) =>
           (ch, (cnt, if 0 <? total then (float_of_nat cnt / float_of_nat total)%float
                      else 0%float)))
        letters in
  (freq, total).

(** Line 78 of [suggest_mapping_by_frequency]: the letters of the
    ciphertext, the most frequent first. *)
Definition cipher_by_freq (ciphertext : list N) : list N :=
  let cleaned := clean_text ciphertext false in
  let counts := Counter cleaned in
  map fst (most_common counts).

(** [suggest_mapping_by_frequency]; [63] is ['?'], and
    [ENGLISH_FREQ_ORDER[i]] is read below the length only. *)
Definition suggest_mapping_by_frequency (ciphertext : list N) : gmap N N :=
  foldl (fun suggestion '(i, ch) =>
           if i <? length ENGLISH_FREQ_ORDER
           then <[ch := default 63%N (ENGLISH_FREQ_ORDER !! i)]> suggestion
           else <[ch := 63%N]> suggestion)
        ∅ (imap pair (cipher_by_freq ciphertext)).

(** [apply_mapping_to_text] *)
Definition apply_mapping_to_text (text : list N) (mapping : gmap N N) (placeholder : N)
    : list N :=
  let text_upper := upper text in
  map (fun ch => if isalpha ch then default placeholder (mapping !! ch) else ch) text_upper.

End Text.
End FrequencyAnalysis.

(** * Facts *)

(** ** Python values *)

(** Runs the binds of the [result] monad, and nothing else. *)
Tactic Notation "run_bind" := cbn [mbind result_bind mret result_ret].
Tactic Notation "run_bind" "in" hyp(H) := cbn [mbind result_bind mret result_ret] in H.

Lemma getitem_lookup {A} (l : list A) (i : nat) (x : A) :
  l !! i = Some x -> getitem l (Z.of_nat i) = Return x.
Proof.
  intros Hl. unfold getitem.
  destruct (Z.ltb_spec (Z.of_nat i) 0) as [?|_]; [lia|].
  destruct (Z.ltb_spec (Z.of_nat i) 0) as [?|_]; [lia|].
  by rewrite Nat2Z.id, Hl.
Qed.

(** ** Arithmetic of the grid *)

Lemma ceil_div_bounds (L C : nat) :
  0 < C -> L <= ceil_div L C * C /\ (0 < L -> (ceil_div L C - 1) * C < L).
Proof.
  intros HC. unfold ceil_div.
  pose proof (Nat.div_mod_eq L C) as E.
  pose proof (Nat.mod_upper_bound L C ltac:(lia)) as B.
  destruct (Nat.eqb_spec (L mod C) 0) as [Z0|NZ]; split; nia.
Qed.

Lemma ceil_div_0 (C : nat) : 0 < C -> ceil_div 0 C = 0.
Proof.
  intros HC. unfold ceil_div. rewrite Nat.Div0.div_0_l, Nat.Div0.mod_0_l. reflexivity.
Qed.

(** ** [sorted] *)

Lemma insert_by_Permutation {A} (k : A -> Z) x l : insert_by k x l ≡ₚ x :: l.
Proof.
  induction l as [|y l IH]; [done|]. simpl.
  destruct (k y <=? k x)%Z; [|done].
  rewrite IH. apply Permutation_swap.
Qed.

Lemma sorted_Permutation {A} (k : A -> Z) l : sorted k l ≡ₚ l.
Proof.
  unfold sorted. induction l as [|x l IH] using rev_ind; [done|].
  rewrite foldl_snoc, insert_by_Permutation, IH. apply Permutation_cons_append.
Qed.

(** ** The grid as a finite function *)

Module ZigzagFacts.
Import Zigzag.
Section Grid.
Context {A : Type}.
Implicit Types (g : grid A) (text out : list A) (path : list (nat * nat)).

Definition well_shaped (num_rows num_columns : nat) g : Prop :=
  length g = num_rows /\ Forall (fun r => length r = num_columns) g.

(** The cells a loop nest visits, in order. *)
Definition fill_path text path (st : grid A * nat) : grid A * nat :=
  foldl (fun st rc => put_next text rc.1 rc.2 st) st path.

Definition read_path g path out : list A :=
  foldl (fun out rc => read_cell g rc.1 rc.2 out) out path.

Definition direction_of (row : nat) : Z := if Nat.even row then 1%Z else (-1)%Z.

Definition zigzag_path (num_rows num_columns : nat) : list (nat * nat) :=
  flat_map (fun row => map (pair row) (columns_in_direction (direction_of row) num_columns))
           (seq 0 num_rows).

Definition column_path (col_length : nat -> nat) (column_order : list nat) : list (nat * nat) :=
  flat_map (fun col => map (fun row => (row, col)) (seq 0 (col_length col))) column_order.

Lemma well_shaped_empty R C : well_shaped R C (empty_grid R C).
Proof.
  split; [apply length_replicate|].
  apply Forall_replicate, length_replicate.
Qed.

Lemma cell_empty_grid R C r c : cell (A:=A) (empty_grid R C) r c = None.
Proof.
  unfold cell, empty_grid.
  destruct (_ !! r) as [row|] eqn:E; [|done].
  apply lookup_replicate in E as [-> _].
  destruct (_ !! c) as [x|] eqn:E; [|done].
  by apply lookup_replicate in E as [-> _].
Qed.

Lemma well_shaped_set_cell R C g r c x :
  well_shaped R C g -> well_shaped R C (set_cell g r c x).
Proof.
  intros [Hl Hr]. split; unfold set_cell.
  - by rewrite length_alter.
  - apply Forall_alter; [done|]. intros row _ Hrow.
    rewrite Forall_lookup in Hr. rewrite length_insert. eauto.
Qed.

Lemma cell_set_cell R C g r c x r' c' :
  well_shaped R C g -> r < R -> c < C ->
  cell (set_cell g r c x) r' c' = if decide ((r, c) = (r', c')) then Some x else cell g r' c'.
Proof.
  intros [Hl Hr] HR HC. unfold cell, set_cell.
  destruct (decide (r = r')) as [<-|Hne].
  - rewrite list_lookup_alter_eq.
    destruct (g !! r) as [row|] eqn:E; simpl.
    + assert (length row = C) as Hrow by (rewrite Forall_lookup in Hr; eauto).
      destruct (decide (c = c')) as [<-|Hc].
      * rewrite list_lookup_insert_eq by lia. by rewrite decide_True.
      * rewrite list_lookup_insert_ne by done. rewrite decide_False by congruence. done.
    + apply lookup_ge_None in E. lia.
  - rewrite list_lookup_alter_ne by done. rewrite decide_False by congruence. done.
Qed.

Lemma read_path_omap g path out :
  read_path g path out = out ++ omap (fun rc => cell g rc.1 rc.2) path.
Proof.
  revert out. induction path as [|[r c] path IH]; intros out; simpl.
  - by rewrite app_nil_r.
  - unfold read_path in *. simpl. rewrite IH. unfold read_cell.
    destruct (cell g r c); simpl; [by rewrite <- app_assoc | done].
Qed.

(** Filling an empty grid along a duplicate-free path: the [k]-th visited
    cell receives the [k]-th character (or stays empty when the text is
    exhausted), every other cell stays empty. *)
Lemma fill_path_spec R C text path :
  NoDup path ->
  Forall (fun rc => rc.1 < R /\ rc.2 < C) path ->
  let st := fill_path text path (empty_grid R C, 0) in
  well_shaped R C st.1 /\
  st.2 = Nat.min (length path) (length text) /\
  (forall k rc, path !! k = Some rc -> cell st.1 rc.1 rc.2 = text !! k) /\
  (forall r c, (r, c) ∉ path -> cell st.1 r c = None).
Proof.
  induction path as [|[r c] path IH] using rev_ind; intros Hnd Hin; simpl.
  - split; [apply well_shaped_empty|]. split; [done|]. split; [done|].
    intros. apply cell_empty_grid.
  - apply NoDup_app in Hnd as (Hnd & Hfresh & _).
    apply Forall_app in Hin as [Hin Hrc].
    apply Forall_singleton in Hrc as [HrR HcC]. simpl in *.
    specialize (IH Hnd Hin). simpl in IH.
    unfold fill_path in *. rewrite foldl_snoc.
    destruct (foldl _ _ path) as [g index]. simpl in *.
    destruct IH as (Hws & Hidx & Hon & Hoff).
    assert ((r, c) ∉ path) as Hnew.
    { intros Hel. apply (Hfresh _ Hel). by apply list_elem_of_singleton. }
    rewrite length_app. simpl.
    destruct (text !! index) as [ch|] eqn:Et; simpl.
    + pose proof (lookup_lt_Some _ _ _ Et) as Hlt.
      assert (index = length path) as -> by lia.
      split; [by apply well_shaped_set_cell|]. split; [lia|]. split.
      * intros k [r' c'] Hk. simpl.
        rewrite (cell_set_cell R C) by done.
        destruct (decide (k = length path)) as [->|Hk'].
        -- rewrite list_lookup_middle in Hk by done. injection Hk as <- <-.
           by rewrite decide_True.
        -- assert (path !! k = Some (r', c')) as Hk2.
           { rewrite lookup_app in Hk. destruct (path !! k) eqn:E; [done|].
             apply lookup_ge_None in E.
             destruct (k - length path) as [|n] eqn:En; [lia|].
             simpl in Hk. by rewrite lookup_nil in Hk. }
           rewrite decide_False.
           ++ by apply (Hon k (r', c')).
           ++ intros [= <- <-]. apply Hnew. by eapply list_elem_of_lookup_2.
      * intros r' c' Hnot. rewrite (cell_set_cell R C) by done.
        rewrite decide_False.
        -- apply Hoff. intros Hel. apply Hnot, elem_of_app. by left.
        -- intros [= <- <-]. apply Hnot, elem_of_app. right. by apply list_elem_of_singleton.
    + pose proof (proj1 (lookup_ge_None _ _) Et) as Hge.
      split; [done|]. split; [lia|]. split.
      * intros k [r' c'] Hk. simpl.
        destruct (decide (k = length path)) as [->|Hk'].
        -- rewrite list_lookup_middle in Hk by done. injection Hk as <- <-.
           rewrite Hoff by done. symmetry. apply lookup_ge_None. lia.
        -- assert (path !! k = Some (r', c')) as Hk2.
           { rewrite lookup_app in Hk. destruct (path !! k) eqn:E; [done|].
             apply lookup_ge_None in E.
             destruct (k - length path) as [|n] eqn:En; [lia|].
             simpl in Hk. by rewrite lookup_nil in Hk. }
           by apply (Hon k (r', c')).
      * intros r' c' Hnot. apply Hoff. intros Hel. apply Hnot, elem_of_app. by left.
Qed.

(** The loop nests of the sources visit these paths. *)
Lemma foldl_put_next text row cols st :
  foldl (fun st col => put_next text row col st) st cols
  = fill_path text (map (pair row) cols) st.
Proof. unfold fill_path. by rewrite (foldl_fmap _ _ _ (pair row)). Qed.

Lemma direction_of_S n : direction_of (S n) = (direction_of n * -1)%Z.
Proof.
  unfold direction_of. rewrite Nat.even_succ, <- Nat.negb_even.
  by destruct (Nat.even n).
Qed.

Lemma zigzag_path_S n C :
  zigzag_path (S n) C
  = zigzag_path n C ++ map (pair n) (columns_in_direction (direction_of n) C).
Proof.
  unfold zigzag_path. rewrite seq_S, flat_map_app. simpl. by rewrite app_nil_r.
Qed.

Lemma fill_path_app text p q st :
  fill_path text (p ++ q) st = fill_path text q (fill_path text p st).
Proof. apply foldl_app. Qed.

Lemma fill_zigzag_path text R C :
  fill_zigzag text R C = (fill_path text (zigzag_path R C) (empty_grid R C, 0)).1.
Proof.
  unfold fill_zigzag.
  assert (forall n g0,
    foldl (fun '(g, index, direction) row =>
             let '(g', index') :=
               foldl (fun st col => put_next text row col st) (g, index)
                     (columns_in_direction direction C) in
             (g', index', (direction * -1)%Z))
          (g0, 0, 1%Z) (seq 0 n)
    = (fill_path text (zigzag_path n C) (g0, 0), direction_of n)) as Hloop.
  { intros n g0. induction n as [|n IH]; [done|].
    rewrite seq_S, foldl_snoc, IH. simpl.
    rewrite zigzag_path_S, fill_path_app, direction_of_S.
    destruct (fill_path text (zigzag_path n C) (g0, 0)) as [g index].
    rewrite foldl_put_next.
    by destruct (fill_path text _ (g, index)). }
  rewrite Hloop. by destruct (fill_path text _ _).
Qed.

Lemma read_path_app g p q out :
  read_path g (p ++ q) out = read_path g q (read_path g p out).
Proof. apply foldl_app. Qed.

Lemma read_zigzag_path g R C : read_zigzag g R C = read_path g (zigzag_path R C) [].
Proof.
  unfold read_zigzag.
  assert (forall n,
    foldl (fun '(out, direction) row =>
             (foldl (fun out col => read_cell g row col out) out
                    (columns_in_direction direction C),
              (direction * -1)%Z))
          ([], 1%Z) (seq 0 n)
    = (read_path g (zigzag_path n C) [], direction_of n)) as Hloop.
  { induction n as [|n IH]; [done|].
    rewrite seq_S, foldl_snoc, IH. simpl.
    rewrite zigzag_path_S, read_path_app, direction_of_S.
    unfold read_path at 2. by rewrite (foldl_fmap _ _ _ (pair n)). }
  by rewrite Hloop.
Qed.

Lemma read_columns_path g R column_order :
  read_columns g R column_order = read_path g (column_path (fun _ => R) column_order) [].
Proof.
  unfold read_columns. generalize (@nil A) as out.
  induction column_order as [|c order IH]; intros out; [done|].
  simpl. rewrite IH. unfold column_path. simpl. rewrite read_path_app. f_equal.
  unfold read_path. by rewrite (foldl_fmap _ _ _ (fun row => (row, c))).
Qed.

Definition col_length (num_rows : nat) (short_columns : list nat) (col : nat) : nat :=
  if bool_decide (col ∈ short_columns) then num_rows - 1 else num_rows.

Lemma col_lengths_of_lookup R C short c :
  c < C -> col_lengths_of R C short !! c = Some (col_length R short c).
Proof.
  unfold col_lengths_of. induction C as [|n IH]; intros Hc; [lia|].
  rewrite seq_S, foldl_snoc. simpl. unfold col_length in *.
  destruct (decide (c = n)) as [->|Hne].
  - destruct (bool_decide (n ∈ short)); by rewrite lookup_insert_eq.
  - destruct (bool_decide (n ∈ short)); rewrite lookup_insert_ne by done; apply IH; lia.
Qed.

Lemma fill_columns_path ciphertext R C column_order short :
  Forall (fun c => c < C) column_order ->
  fill_columns ciphertext R C column_order (col_lengths_of R C short)
  = Return (fill_path ciphertext (column_path (col_length R short) column_order)
                      (empty_grid R C, 0)).1.
Proof.
  intros Hin. unfold fill_columns.
  assert (forall st,
    foldl (fun acc original_col_index =>
             st ← acc ;
             length ← dict_get (col_lengths_of R C short) original_col_index ;
             Return (foldl (fun st row => put_next ciphertext row original_col_index st)
                           st (seq 0 length)))
          (Return st) column_order
    = Return (fill_path ciphertext (column_path (col_length R short) column_order) st))
    as Hloop.
  { induction Hin as [|c order Hc Hin IH]; intros st; [done|].
    simpl. unfold dict_get. rewrite col_lengths_of_lookup by done. simpl.
    rewrite IH. unfold column_path. simpl. rewrite fill_path_app. do 2 f_equal.
    unfold fill_path. by rewrite (foldl_fmap _ _ _ (fun row => (row, c))). }
  by rewrite Hloop.
Qed.

(** The column a row visits at its [j]-th step. *)
Definition zz (C r j : nat) : nat := if Nat.even r then j else C - 1 - j.

Lemma zz_lt C r j : j < C -> zz C r j < C.
Proof. unfold zz. destruct (Nat.even r); lia. Qed.

Lemma zz_involutive C r j : j < C -> zz C r (zz C r j) = j.
Proof. unfold zz. destruct (Nat.even r); lia. Qed.

Lemma reverse_seq C : reverse (seq 0 C) = map (fun j => C - 1 - j) (seq 0 C).
Proof.
  apply list_eq. intros i.
  destruct (decide (i < C)) as [Hi|Hi].
  - rewrite reverse_lookup by (rewrite length_seq; lia).
    rewrite length_seq, list_lookup_fmap, !lookup_seq_lt by lia. simpl. f_equal. lia.
  - rewrite !(proj2 (lookup_ge_None _ _)); [done | |].
    + rewrite length_map, length_seq. lia.
    + rewrite length_reverse, length_seq. lia.
Qed.

Lemma columns_in_direction_zz C r :
  columns_in_direction (direction_of r) C = map (zz C r) (seq 0 C).
Proof.
  unfold columns_in_direction, direction_of, zz. destruct (Nat.even r); simpl.
  - by rewrite map_id.
  - apply reverse_seq.
Qed.

Lemma length_zigzag_path R C : length (zigzag_path R C) = R * C.
Proof.
  induction R as [|n IH]; [done|].
  rewrite zigzag_path_S, length_app, IH, length_map, columns_in_direction_zz,
    length_map, length_seq. lia.
Qed.

Lemma zigzag_path_lookup R C r j :
  r < R -> j < C -> zigzag_path R C !! (r * C + j) = Some (r, zz C r j).
Proof.
  induction R as [|n IH]; intros Hr Hj; [lia|].
  rewrite zigzag_path_S.
  destruct (decide (r = n)) as [->|Hne].
  - rewrite lookup_app_r by (rewrite length_zigzag_path; lia).
    rewrite length_zigzag_path, columns_in_direction_zz.
    replace (n * C + j - n * C) with j by lia.
    by rewrite !list_lookup_fmap, lookup_seq_lt by lia.
  - rewrite lookup_app_l by (rewrite length_zigzag_path; nia). apply IH; lia.
Qed.

Lemma elem_of_zigzag_path R C r c : (r, c) ∈ zigzag_path R C <-> r < R /\ c < C.
Proof.
  unfold zigzag_path. rewrite list_elem_of_In, in_flat_map. split.
  - intros (row & Hrow & Hin). apply in_seq in Hrow.
    apply in_map_iff in Hin as (col & [= <- <-] & Hcol).
    rewrite columns_in_direction_zz in Hcol.
    apply in_map_iff in Hcol as (j & <- & Hj). apply in_seq in Hj.
    split; [lia | apply zz_lt; lia].
  - intros [Hr Hc]. exists r. split; [apply in_seq; lia|].
    apply in_map, list_elem_of_In. rewrite columns_in_direction_zz.
    apply list_elem_of_In, in_map_iff. exists (zz C r c).
    split; [by apply zz_involutive|]. apply in_seq. pose proof (zz_lt C r c). lia.
Qed.

Lemma NoDup_zigzag_path R C : NoDup (zigzag_path R C).
Proof.
  apply NoDup_alt. intros i j [r c] Hi Hj.
  pose proof (lookup_lt_Some _ _ _ Hi) as Bi. pose proof (lookup_lt_Some _ _ _ Hj) as Bj.
  rewrite length_zigzag_path in Bi, Bj.
  assert (0 < C) as HC by (destruct C; [lia | lia]).
  assert (forall k, k < R * C -> k / C < R /\ k mod C < C /\ k = k / C * C + k mod C) as Hsplit.
  { intros k Hk. pose proof (Nat.div_mod_eq k C). pose proof (Nat.mod_upper_bound k C).
    split; [apply Nat.Div0.div_lt_upper_bound; lia | lia]. }
  destruct (Hsplit i Bi) as (Hi1 & Hi2 & Hi3). destruct (Hsplit j Bj) as (Hj1 & Hj2 & Hj3).
  rewrite Hi3, zigzag_path_lookup in Hi by done. rewrite Hj3, zigzag_path_lookup in Hj by done.
  injection Hi as Er Ec. injection Hj as Er' Ec'.
  assert (i mod C = j mod C) as Em.
  { rewrite <- (zz_involutive C (i / C) (i mod C)), <- (zz_involutive C (j / C) (j mod C)) by done.
    congruence. }
  lia.
Qed.

Lemma omap_lookup_seq {B} (l : list B) n : omap (fun k => l !! k) (seq 0 n) = take n l.
Proof.
  induction n as [|n IH]; [by rewrite take_0|].
  rewrite seq_S, omap_app, IH. simpl.
  destruct (l !! n) as [x|] eqn:E.
  - by rewrite (take_S_r _ _ x).
  - apply lookup_ge_None in E. rewrite !take_ge by lia. by rewrite app_nil_r.
Qed.

Lemma omap_ext_elem {B D} (f h : B -> option D) (l : list B) :
  (forall x, x ∈ l -> f x = h x) -> omap f l = omap h l.
Proof.
  induction l as [|x l IH]; intros Hf; [done|]. csimpl.
  rewrite (Hf x) by (by left). rewrite IH; [done|].
  intros y Hy. apply Hf. by right.
Qed.

Lemma omap_map {B D E} (f : D -> option E) (h : B -> D) (l : list B) :
  omap f (map h l) = omap (fun x => f (h x)) l.
Proof. induction l as [|x l IH]; [done|]. csimpl. by rewrite IH. Qed.

(** Reading a grid along the zigzag path whose [k]-th visited cell holds the
    [k]-th character gives the text back. *)
Lemma read_zigzag_text g text R C :
  length text <= R * C ->
  (forall r j, r < R -> j < C -> cell g r (zz C r j) = text !! (r * C + j)) ->
  read_zigzag g R C = text.
Proof.
  intros Hlen Hcell. rewrite read_zigzag_path, read_path_omap. simpl.
  assert (zigzag_path R C
          = map (fun k => (k / C, zz C (k / C) (k mod C))) (seq 0 (R * C))) as ->.
  { apply list_eq. intros k. rewrite list_lookup_fmap.
    destruct (decide (k < R * C)) as [Hk|Hk].
    - rewrite lookup_seq_lt by done. simpl.
      assert (0 < C) as HC by (destruct C; lia).
      pose proof (Nat.div_mod_eq k C). pose proof (Nat.mod_upper_bound k C).
      replace k with (k / C * C + k mod C) at 1 by lia.
      apply zigzag_path_lookup; [apply Nat.Div0.div_lt_upper_bound; lia | lia].
    - rewrite (proj2 (lookup_ge_None _ _)) by (rewrite length_zigzag_path; lia).
      by rewrite lookup_seq_ge by lia. }
  rewrite omap_map.
  rewrite (omap_ext_elem _ (fun k => text !! k)).
  - rewrite omap_lookup_seq. apply take_ge. lia.
  - intros k Hk. apply elem_of_seq in Hk. simpl.
    assert (0 < C) as HC by (destruct C; lia).
    pose proof (Nat.div_mod_eq k C). pose proof (Nat.mod_upper_bound k C).
    rewrite Hcell; [f_equal; lia | apply Nat.Div0.div_lt_upper_bound; lia | lia].
Qed.

(** The grid [encrypt] builds: row [r] holds the characters
    [r * C .. r * C + C - 1], from left to right when [r] is even and from
    right to left when it is odd. *)
Lemma fill_zigzag_spec text R C :
  let g := fill_zigzag text R C in
  well_shaped R C g /\
  (forall r j, r < R -> j < C -> cell g r (zz C r j) = text !! (r * C + j)) /\
  (forall r c, ~ (r < R /\ c < C) -> cell g r c = None).
Proof.
  rewrite fill_zigzag_path.
  destruct (fill_path_spec R C text (zigzag_path R C)) as (Hws & _ & Hon & Hoff).
  - apply NoDup_zigzag_path.
  - apply Forall_forall. intros [r c] Hin. by apply elem_of_zigzag_path.
  - simpl. split; [done|]. split.
    + intros r j Hr Hj. apply (Hon (r * C + j) (r, zz C r j)).
      by apply zigzag_path_lookup.
    + intros r c Hout. apply Hoff. by rewrite elem_of_zigzag_path.
Qed.

Lemma elem_of_column_path len order r c :
  (r, c) ∈ column_path len order <-> c ∈ order /\ r < len c.
Proof.
  unfold column_path. rewrite list_elem_of_In, in_flat_map. split.
  - intros (col & Hcol & Hin). apply in_map_iff in Hin as (row & [= <- <-] & Hrow).
    apply in_seq in Hrow. split; [by apply list_elem_of_In | lia].
  - intros [Hc Hr]. exists c. split; [by apply list_elem_of_In|].
    apply in_map_iff. exists r. split; [done|]. apply in_seq. lia.
Qed.

Lemma NoDup_column_path len order : NoDup order -> NoDup (column_path len order).
Proof.
  induction 1 as [|c order Hc Hnd IH]; [constructor|].
  change (column_path len (c :: order))
    with (map (fun row => (row, c)) (seq 0 (len c)) ++ column_path len order).
  apply NoDup_app. split; [|split; [|done]].
  - apply (NoDup_fmap_2_strong (fun row => (row, c))); [|apply NoDup_seq].
    by intros x y _ _ [= ->].
  - intros [r c'] Hin Hin'. apply list_elem_of_In, in_map_iff in Hin as (row & [= <- <-] & _).
    apply elem_of_column_path in Hin' as [Hin' _]. done.
Qed.

Lemma Forall_column_path R C len order :
  Forall (fun c => c < C) order -> (forall c, len c <= R) ->
  Forall (fun rc => rc.1 < R /\ rc.2 < C) (column_path len order).
Proof.
  intros Hord Hlen. apply Forall_forall. intros [r c] Hin.
  apply elem_of_column_path in Hin as [Hc Hr]. simpl.
  rewrite Forall_forall in Hord. specialize (Hlen c). split; [lia | auto].
Qed.

(** Which cells of the last row are filled decides the short columns. *)
Lemma last_row_parity R :
  0 < R -> ((Z.of_nat R - 1) mod 2 =? 0)%Z = Nat.even (R - 1).
Proof.
  intros HR. replace (Z.of_nat R - 1)%Z with (Z.of_nat (R - 1)) by lia.
  generalize (R - 1). intros n.
  destruct (Nat.even n) eqn:E.
  - apply Nat.even_spec in E as [k ->]. apply Z.eqb_eq.
    rewrite Nat2Z.inj_mul, Z.mul_comm. apply Z_mod_mult.
  - apply Z.eqb_neq. intros Hmod.
    assert (Nat.even n = true); [|congruence].
    apply Nat.even_spec. exists (Z.to_nat (Z.of_nat n / 2)).
    pose proof (Z.div_mod (Z.of_nat n) 2 ltac:(lia)). 
    assert (0 <= Z.of_nat n / 2)%Z by (apply Z.div_pos; lia). lia.
Qed.

Lemma filled_iff_col_length text R C r c :
  0 < C -> R = ceil_div (length text) C -> r < R -> c < C ->
  r * C + zz C r c < length text
  <-> r < col_length R (short_columns_of R C (R * C - length text)) c.
Proof.
  intros HC -> Hr Hc.
  destruct (ceil_div_bounds (length text) C HC) as [Hup Hlow].
  set (R := ceil_div (length text) C) in *.
  assert (0 < length text) as HL by (destruct (length text); [unfold R in Hr; rewrite ceil_div_0 in Hr by done; lia | lia]).
  specialize (Hlow HL).
  unfold col_length, short_columns_of, zz.
  rewrite last_row_parity by lia.
  destruct (Nat.ltb_spec 0 (R * C - length text)) as [He|He].
  - destruct (decide (r = R - 1)) as [->|Hne].
    + destruct (Nat.even (R - 1)); case_bool_decide as Hs; rewrite elem_of_seq in Hs; nia.
    + destruct (Nat.even (R - 1)), (Nat.even r); case_bool_decide; nia.
  - rewrite bool_decide_false by (by intros ?%elem_of_nil).
    destruct (Nat.even r); nia.
Qed.

Lemma col_length_le R short c : col_length R short c <= R.
Proof. unfold col_length. case_bool_decide; lia. Qed.

Lemma omap_seq_prefix {B} (f : nat -> option B) R n :
  n <= R -> (forall r, r < R -> is_Some (f r) <-> r < n) ->
  omap f (seq 0 R) = omap f (seq 0 n).
Proof.
  intros Hn Hf. replace R with (n + (R - n)) by lia.
  rewrite seq_app, omap_app. simpl.
  assert (omap f (seq n (R - n)) = []) as ->; [|by rewrite app_nil_r].
  assert (forall x, x ∈ seq n (R - n) -> f x = None) as Hnone.
  { intros x Hx%elem_of_seq. destruct (f x) eqn:E; [|done].
    assert (x < n) by (apply Hf; [lia | by rewrite E]). lia. }
  induction (seq n (R - n)) as [|x l IH]; [done|]. csimpl.
  rewrite Hnone by (by left). apply IH. intros y Hy. apply Hnone. by right.
Qed.

Lemma omap_lookup_total {B D} (f : B -> option D) (l : list B) :
  Forall (fun x => is_Some (f x)) l ->
  forall k x, l !! k = Some x -> omap f l !! k = f x.
Proof.
  induction 1 as [|y l [d Hd] Hl IH]; intros k x Hk; [done|]. csimpl. rewrite Hd.
  destruct k as [|k]; simpl in *; [by injection Hk as <- | by apply IH].
Qed.

Lemma omap_flat_map_ext {B D E} (f : D -> option E) (h1 h2 : B -> list D) (l : list B) :
  (forall x, x ∈ l -> omap f (h1 x) = omap f (h2 x)) ->
  omap f (flat_map h1 l) = omap f (flat_map h2 l).
Proof.
  induction l as [|x l IH]; intros Hh; [done|]. simpl.
  rewrite !omap_app, (Hh x) by (by left). f_equal. apply IH.
  intros y Hy. apply Hh. by right.
Qed.

Lemma column_order_Permutation (key : list Z) :
  column_order_of key ≡ₚ seq 0 (length key).
Proof. apply sorted_Permutation. Qed.

(** The ciphertext is a rearrangement of the text. *)
Lemma read_columns_Permutation text R C order :
  length text <= R * C -> order ≡ₚ seq 0 C ->
  read_columns (fill_zigzag text R C) R order ≡ₚ text.
Proof.
  intros Hlen Hperm.
  destruct (fill_zigzag_spec text R C) as (_ & Hon & _).
  rewrite <- (read_zigzag_text (fill_zigzag text R C) text R C Hlen Hon) at 2.
  rewrite read_columns_path, read_zigzag_path, !read_path_omap. simpl.
  apply omap_Permutation, NoDup_Permutation.
  - apply NoDup_column_path. rewrite Hperm. apply NoDup_seq.
  - apply NoDup_zigzag_path.
  - intros [r c]. rewrite elem_of_column_path, elem_of_zigzag_path, Hperm, elem_of_seq. lia.
Qed.

(** The zigzag transposition of [decrypt] inverts the one of [encrypt]. *)
Lemma zigzag_roundtrip (key : list Z) (text : list A) :
  0 < length key ->
  exists t, encrypt key text = Return t /\ decrypt key (t_ciphertext t) = Return text.
Proof.
  intros HC. unfold encrypt, decrypt.
  destruct (Nat.eqb_spec (length key) 0) as [?|_]; [lia|].
  eexists. split; [reflexivity|]. simpl.
  set (C := length key) in *. set (order := column_order_of key).
  destruct (ceil_div_bounds (length text) C HC) as [Hup _].
  assert (order ≡ₚ seq 0 C) as Hperm by apply column_order_Permutation.
  assert (NoDup order) as Hnd by (rewrite Hperm; apply NoDup_seq).
  assert (forall c, c ∈ order <-> c < C) as Hmem.
  { intros c. rewrite Hperm, elem_of_seq. lia. }
  assert (Forall (fun c => c < C) order) as Hin.
  { apply Forall_forall. intros c. apply Hmem. }
  set (R := ceil_div (length text) C) in *.
  set (g := fill_zigzag text R C).
  set (ct := read_columns g R order).
  assert (length ct = length text) as ->.
  { apply Permutation_length. by apply read_columns_Permutation. }
  fold R. set (short := short_columns_of R C (R * C - length text)).
  destruct (fill_zigzag_spec text R C) as (Hws & Hon & Hoff). fold g in Hws, Hon, Hoff.
  assert (forall r c, r < R -> c < C ->
            (is_Some (cell g r c) <-> r < col_length R short c)) as Hfilled.
  { intros r c Hr Hc. rewrite <- (zz_involutive C r c) at 1 by done.
    rewrite Hon by (auto using zz_lt). rewrite lookup_lt_is_Some.
    by apply filled_iff_col_length. }
  set (F := fun rc : nat * nat => cell g rc.1 rc.2).
  set (decpath := column_path (col_length R short) order).
  assert (ct = omap F decpath) as Hct.
  { unfold ct. rewrite read_columns_path, read_path_omap. simpl.
    apply omap_flat_map_ext. intros c Hc%Hmem.
    rewrite !omap_map. apply omap_seq_prefix; [apply col_length_le|].
    intros r Hr. by apply Hfilled. }
  assert (Forall (fun rc => is_Some (F rc)) decpath) as Hsome.
  { apply Forall_forall. intros [r c] [Hc%Hmem Hr]%elem_of_column_path.
    pose proof (col_length_le R short c). apply Hfilled; simpl; try done; lia. }
  rewrite fill_columns_path by done. simpl. f_equal.
  destruct (fill_path_spec R C ct decpath) as (_ & _ & Hon' & Hoff').
  { by apply NoDup_column_path. }
  { apply Forall_column_path; [done | apply col_length_le]. }
  fold decpath. apply read_zigzag_text; [done|].
  intros r j Hr Hj. pose proof (zz_lt C r j Hj) as Hc.
  destruct (decide ((r, zz C r j) ∈ decpath)) as [Hel|Hnel].
  - apply list_elem_of_lookup in Hel as [k Hk].
    pose proof (Hon' k _ Hk) as E. simpl in E. rewrite E.
    rewrite Hct, (omap_lookup_total F decpath Hsome k _ Hk).
    unfold F. simpl. by apply Hon.
  - rewrite Hoff' by done. rewrite <- Hon by done.
    destruct (cell g r (zz C r j)) eqn:E; [|done]. exfalso. apply Hnel.
    apply elem_of_column_path. split; [by apply Hmem|].
    apply Hfilled; [done | done | by rewrite E].
Qed.

End Grid.
End ZigzagFacts.

(** ** The modified Vigenère stage *)

Module VigenereFacts.
Import MLCC.

Lemma key_rotation_at_eq (K i : nat) : 0 < K -> key_rotation_at K i = (i / 5) mod K.
Proof.
  intros HK. induction i as [|i IH].
  - simpl. rewrite Nat.Div0.mod_0_l. reflexivity.
  - change (key_rotation_at K (S i)) with (next_rotation K i (key_rotation_at K i)).
    rewrite IH. unfold next_rotation.
    replace (S i) with (i + 1) by lia.
    pose proof (Nat.div_mod_eq i 5). pose proof (Nat.mod_upper_bound i 5 ltac:(lia)).
    pose proof (Nat.div_mod_eq (i + 1) 5). pose proof (Nat.mod_upper_bound (i + 1) 5 ltac:(lia)).
    destruct (Nat.eqb_spec ((i + 1) mod 5) 0) as [E|E].
    + replace ((i + 1) / 5) with (i / 5 + 1) by lia.
      rewrite Nat.Div0.add_mod_idemp_l. reflexivity.
    + replace ((i + 1) / 5) with (i / 5) by lia. reflexivity.
Qed.

(** The effective key index of the pipeline at position [i]. *)
Lemma effective_index_closed_form (K i : nat) :
  0 < K ->
  VigenereCracker.pos_to_key_index (Z.of_nat i) (Z.of_nat K)
  = Return (Z.of_nat ((i + key_rotation_at K i) mod K)).
Proof.
  intros HK. rewrite key_rotation_at_eq by done.
  rewrite Nat.Div0.add_mod_idemp_r.
  unfold VigenereCracker.pos_to_key_index.
  destruct (Z.eqb_spec (Z.of_nat K) 0) as [?|_]; [lia|].
  rewrite Nat2Z.inj_mod, Nat2Z.inj_add, Nat2Z.inj_div. reflexivity.
Qed.

(** The loop of the sources computes the closed form. *)
Lemma vigenere_loop_from f key i text :
  0 < length key ->
  vigenere_loop f key i (key_rotation_at (length key) i) text
  = Return (imap (fun j char => f char (shift_at key (i + j)) (Z.of_nat ((i + j) mod 5) + 1)%Z)
                 text).
Proof.
  intros HK. revert i. induction text as [|char rest IH]; intros i; [done|].
  simpl. destruct (Nat.eqb_spec (length key) 0) as [?|_]; [lia|].
  destruct (lookup_lt_is_Some_2 key ((i + key_rotation_at (length key) i) mod length key))
    as [k Hk]; [by apply Nat.mod_upper_bound; lia|].
  rewrite (getitem_lookup _ _ _ Hk). simpl.
  change (next_rotation (length key) i (key_rotation_at (length key) i))
    with (key_rotation_at (length key) (S i)).
  rewrite IH. simpl. unfold shift_at at 2. rewrite Nat.add_0_r, Hk. do 2 f_equal.
  apply imap_ext. intros j x _. simpl. by rewrite Nat.add_succ_r.
Qed.

Lemma vigenere_loop_spec f key text :
  0 < length key -> vigenere_loop f key 0 0 text = Return (vigenere f key text).
Proof. intros HK. apply (vigenere_loop_from f key 0 text HK). Qed.

Lemma vigenere_loop_empty_key f char rest i kr :
  vigenere_loop f [] i kr (char :: rest) = Raise ZeroDivisionError.
Proof. done. Qed.

Lemma encrypt_char_AZ c s m : is_AZ (encrypt_char c s m).
Proof.
  unfold is_AZ, encrypt_char, chr, ord, ord_A.
  pose proof (Z.mod_pos_bound (Z.of_N c - 65 + s * m) 26 ltac:(lia)). lia.
Qed.

Lemma decrypt_encrypt_char c s m :
  is_AZ c -> decrypt_char (encrypt_char c s m) s m = c.
Proof.
  unfold is_AZ, decrypt_char, encrypt_char, chr, ord, ord_A. intros Hc.
  pose proof (Z.mod_pos_bound (Z.of_N c - 65 + s * m) 26 ltac:(lia)).
  rewrite Z2N.id by lia.
  replace ((Z.of_N c - 65 + s * m) mod 26 + 65 - 65 - s * m + 26)%Z
    with ((Z.of_N c - 65 + s * m) mod 26 - s * m + 26)%Z by lia.
  rewrite Zplus_mod, Zminus_mod_idemp_l, <- Zplus_mod.
  replace (Z.of_N c - 65 + s * m - s * m + 26)%Z with (Z.of_N c - 65 + 1 * 26)%Z by lia.
  rewrite Z_mod_plus_full, Z.mod_small by lia. lia.
Qed.

Lemma vigenere_AZ key text : Forall is_AZ (vigenere encrypt_char key text).
Proof.
  unfold vigenere. apply Forall_forall. intros c Hc.
  apply list_elem_of_lookup in Hc as [i Hi]. rewrite list_lookup_imap in Hi.
  destruct (text !! i); [|done]. injection Hi as <-. apply encrypt_char_AZ.
Qed.

Lemma length_vigenere f key text : length (vigenere f key text) = length text.
Proof. apply length_imap. Qed.

Lemma vigenere_decrypt_encrypt key text :
  Forall is_AZ text ->
  vigenere decrypt_char key (vigenere encrypt_char key text) = text.
Proof.
  intros HAZ. apply list_eq. intros i. unfold vigenere.
  rewrite !list_lookup_imap.
  destruct (text !! i) as [c|] eqn:E; [|done]. simpl. f_equal.
  apply decrypt_encrypt_char. rewrite Forall_forall in HAZ.
  by eapply HAZ, list_elem_of_lookup_2.
Qed.

End VigenereFacts.

(** ** Construction of the cipher *)

Module MLCCFacts.
Import MLCC.

Lemma length_ALPHABET : length ALPHABET = 26.
Proof. reflexivity. Qed.

Lemma NoDup_ALPHABET : NoDup ALPHABET.
Proof. apply (bool_decide_unpack _). by vm_compute. Qed.

Lemma ALPHABET_lookup (i : nat) : i < 26 -> ALPHABET !! i = Some (N.of_nat (65 + i)).
Proof.
  intros Hi. do 26 (destruct i as [|i]; [reflexivity|]). lia.
Qed.

Lemma is_AZ_lookup (c : N) : is_AZ c -> ALPHABET !! N.to_nat (c - 65) = Some c.
Proof.
  unfold is_AZ. intros Hc. rewrite ALPHABET_lookup by lia. f_equal. lia.
Qed.

Lemma elem_of_ALPHABET (c : N) : c ∈ ALPHABET <-> is_AZ c.
Proof.
  split.
  - intros [i Hi]%list_elem_of_lookup.
    pose proof (lookup_lt_Some _ _ _ Hi) as Hlt. rewrite length_ALPHABET in Hlt.
    rewrite ALPHABET_lookup in Hi by done. injection Hi as <-. unfold is_AZ. lia.
  - intros Hc. eapply list_elem_of_lookup_2, is_AZ_lookup, Hc.
Qed.

Lemma size_list_to_set_NoDup (l : list N) :
  size (list_to_set l : gset N) <= length l /\
  (size (list_to_set l : gset N) = length l -> NoDup l).
Proof.
  induction l as [|x l [IHle IHeq]].
  - rewrite list_to_set_nil, size_empty. split; [done | constructor].
  - rewrite list_to_set_cons. simpl.
    destruct (decide (x ∈ l)) as [Hin|Hnin].
    + assert ({[x]} ∪ list_to_set l = (list_to_set l : gset N)) as -> by set_solver.
      split; lia.
    + rewrite size_union by set_solver. rewrite size_singleton.
      split; [lia|]. intros E. constructor; [done | apply IHeq; lia].
Qed.

Lemma distinct_26_iff (key : list N) :
  (length key ≠ 26 \/ size (list_to_set key : gset N) ≠ 26)
  <-> ~ (length key = 26 /\ NoDup key).
Proof.
  destruct (size_list_to_set_NoDup key) as [Hle Heq]. split.
  - intros [Hl|Hs] [E Hnd]; [done|]. apply Hs. by rewrite size_list_to_set.
  - intros Hnot. destruct (decide (length key = 26)) as [E|]; [|by left].
    right. intros Hs. apply Hnot. split; [done|]. apply Heq. lia.
Qed.

Section Init.
Context `{UnicodeDB}.

Lemma upper_char_nonempty c : upper_char c <> [].
Proof.
  unfold upper_char. destruct (c <? 128)%N; [done | apply upper_ext_nonempty].
Qed.

Lemma length_upper_ge (s : list N) : length s <= length (upper s).
Proof.
  unfold upper. induction s as [|c s IH]; simpl; [lia|].
  rewrite length_app. pose proof (upper_char_nonempty c).
  destruct (upper_char c); [done | simpl; lia].
Qed.

(** The dict comprehension succeeds when both strings have 26 characters;
    the entry of a key is the value at the last position of that key. *)
Lemma dict_of_spec (keys vals : list N) :
  26 <= length keys -> 26 <= length vals ->
  exists d, dict_of keys vals = Return d /\
    forall k v, d !! k = Some v <->
      exists i, i < 26 /\ keys !! i = Some k /\ vals !! i = Some v /\
                forall j, i < j < 26 -> keys !! j ≠ Some k.
Proof.
  intros Hk Hv. unfold dict_of.
  assert (forall n, n <= 26 ->
    exists d,
      foldl (fun acc i => d ← acc ; k ← getitem keys i ; v ← getitem vals i ;
                          Return (<[k := v]> d))
            (Return (∅ : gmap N N)) (range n) = Return d /\
      forall k v, d !! k = Some v <->
        exists i, i < n /\ keys !! i = Some k /\ vals !! i = Some v /\
                  forall j, i < j < n -> keys !! j ≠ Some k) as Hloop;
    [|by apply Hloop].
  induction n as [|n IH]; intros Hn.
  - exists ∅. split; [done|]. intros k v. rewrite lookup_empty. split; [done|].
    intros (i & Hi & _). lia.
  - destruct IH as (d & Hd & Hspec); [lia|].
    destruct (lookup_lt_is_Some_2 keys n) as [kn Hkn]; [lia|].
    destruct (lookup_lt_is_Some_2 vals n) as [vn Hvn]; [lia|].
    exists (<[kn := vn]> d). split.
    + unfold range in *. rewrite seq_S, map_app. cbn [map]. rewrite foldl_snoc, Hd. simpl.
      by rewrite (getitem_lookup _ _ _ Hkn), (getitem_lookup _ _ _ Hvn).
    + intros k v. rewrite lookup_insert. case_decide as Hkk.
      * subst kn. split.
        -- intros [= <-]. exists n. repeat split; [lia | done | done | intros; lia].
        -- intros (i & Hi & Hki & Hvi & Hlast).
           destruct (decide (i = n)) as [->|Hne]; [congruence|].
           exfalso. apply (Hlast n); [lia | done].
      * rewrite Hspec. split.
        -- intros (i & Hi & Hki & Hvi & Hlast). exists i.
           repeat split; [lia | done | done |].
           intros j Hj. destruct (decide (j = n)) as [->|]; [congruence | apply Hlast; lia].
        -- intros (i & Hi & Hki & Hvi & Hlast).
           assert (i ≠ n) by congruence. exists i.
           repeat split; [lia | done | done | intros j Hj; apply Hlast; lia].
Qed.


Lemma init_accepts (sk vk : list N) (tk : list Z) :
  length sk = 26 -> NoDup sk -> 10 <= length vk -> 3 <= length tk ->
  exists self, init sk vk tk = Return self /\
    substitution_key self = upper sk /\
    vigenere_key self = upper vk /\
    transposition_key self = tk /\
    dict_of ALPHABET (upper sk) = Return (substitution_map self) /\
    dict_of (upper sk) ALPHABET = Return (reverse_substitution_map self).
Proof.
  intros Hlen Hnd Hvk Htk. unfold init.
  rewrite bool_decide_false by (rewrite distinct_26_iff; tauto).
  destruct (Nat.ltb_spec (length vk) 10) as [?|_]; [lia|].
  destruct (Nat.ltb_spec (length tk) 3) as [?|_]; [lia|].
  pose proof (length_upper_ge sk) as Hup.
  destruct (dict_of_spec ALPHABET (upper sk)) as (smap & -> & _);
    [rewrite length_ALPHABET; lia | lia |].
  destruct (dict_of_spec (upper sk) ALPHABET) as (rmap & -> & _);
    [lia | rewrite length_ALPHABET; lia |].
  simpl. eexists. split; [reflexivity|]. simpl. done.
Qed.

Lemma init_rejects (sk vk : list N) (tk : list Z) :
  invalid_keys sk vk tk -> exists msg, init sk vk tk = Raise (ValueError msg).
Proof.
  intros Hinv. unfold init.
  case_bool_decide as Hsk; [by eexists|].
  destruct (Nat.ltb_spec (length vk) 10) as [?|Hvk]; [by eexists|].
  destruct (Nat.ltb_spec (length tk) 3) as [?|Htk]; [by eexists|].
  exfalso. rewrite distinct_26_iff in Hsk. destruct Hinv as [?|[?|?]]; [done | lia | lia].
Qed.

Lemma invalid_keys_dec (sk vk : list N) (tk : list Z) :
  invalid_keys sk vk tk \/
  (length sk = 26 /\ NoDup sk /\ 10 <= length vk /\ 3 <= length tk).
Proof.
  unfold invalid_keys.
  destruct (decide (length sk = 26 /\ NoDup sk)) as [[? ?]|?]; [|tauto].
  destruct (decide (length vk < 10)); [tauto|].
  destruct (decide (length tk < 3)); [tauto|].
  right. repeat split; [done | done | lia | lia].
Qed.

Lemma mapM_Return {A B} (f : A -> result B) (l : list A) (k : list B) :
  Forall2 (fun x y => f x = Return y) l k -> mapM f l = Return k.
Proof.
  induction 1 as [|x y l k Hxy _ IH]; [done|].
  simpl. rewrite Hxy. simpl. rewrite IH. done.
Qed.

(** A substitution key that is a rearrangement of the alphabet gives two
    dicts that are inverse bijections of the letters. *)
Lemma substitution_bijection (key : list N) smap rmap :
  key ≡ₚ ALPHABET ->
  dict_of ALPHABET key = Return smap -> dict_of key ALPHABET = Return rmap ->
  forall c, is_AZ c ->
    exists s, smap !! c = Some s /\ is_AZ s /\ rmap !! s = Some c.
Proof.
  intros Hperm Hs Hr c Hc.
  pose proof (Permutation_length Hperm) as Hlen. rewrite length_ALPHABET in Hlen.
  assert (NoDup key) as Hnd by (rewrite Hperm; apply NoDup_ALPHABET).
  destruct (dict_of_spec ALPHABET key) as (smap' & Hs' & Hsmap);
    [rewrite length_ALPHABET; lia | lia |].
  destruct (dict_of_spec key ALPHABET) as (rmap' & Hr' & Hrmap);
    [lia | rewrite length_ALPHABET; lia |].
  assert (smap' = smap) as -> by congruence. assert (rmap' = rmap) as -> by congruence.
  pose proof (is_AZ_lookup c Hc) as Hi.
  pose proof (lookup_lt_Some _ _ _ Hi) as Hlt. rewrite length_ALPHABET in Hlt.
  destruct (lookup_lt_is_Some_2 key (N.to_nat (c - 65))) as [s Hsi]; [lia|].
  exists s. split; [|split].
  - apply Hsmap. exists (N.to_nat (c - 65)). repeat split; [done..|].
    intros j Hj Hcj. pose proof (NoDup_lookup _ _ _ _ NoDup_ALPHABET Hi Hcj). lia.
  - apply elem_of_ALPHABET. rewrite <- Hperm. by eapply list_elem_of_lookup_2.
  - apply Hrmap. exists (N.to_nat (c - 65)). repeat split; [done..|].
    intros j Hj Hsj. pose proof (NoDup_lookup _ _ _ _ Hnd Hsi Hsj). lia.
Qed.

Lemma dict_get_Some `{Countable K} {V} (d : gmap K V) k v :
  d !! k = Some v -> dict_get d k = Return v.
Proof. intros E. unfold dict_get. by rewrite E. Qed.

Lemma substitute_text (smap rmap : gmap N N) (text : list N) :
  (forall c, is_AZ c -> exists s, smap !! c = Some s /\ is_AZ s /\ rmap !! s = Some c) ->
  Forall is_AZ text ->
  exists sub, mapM (dict_get smap) text = Return sub /\ Forall is_AZ sub /\
              mapM (dict_get rmap) sub = Return text.
Proof.
  intros Hbij Htext.
  assert (exists sub, Forall2 (fun c s => smap !! c = Some s /\ is_AZ s /\ rmap !! s = Some c)
                              text sub) as [sub Hsub].
  { induction Htext as [|c text Hc _ [sub IH]]; [by exists []|].
    destruct (Hbij c Hc) as (s & Hs). exists (s :: sub). by constructor. }
  exists sub. split; [|split].
  - apply mapM_Return. eapply Forall2_impl; [exact Hsub|].
    intros c s (Hs & _). by apply dict_get_Some.
  - eapply Forall2_Forall_r; [exact Hsub|]. apply Forall_forall. intros s _ c (_ & HAZ & _). done.
  - apply mapM_Return, Forall2_flip. eapply Forall2_impl; [exact Hsub|].
    intros c s (_ & _ & Hr). by apply dict_get_Some.
Qed.

(** Round trip of the pipeline for a substitution key whose upper-case form
    rearranges the alphabet and a plaintext whose letters are ASCII. *)
Lemma roundtrip (sk vk : list N) (tk : list Z) (plaintext : list N) :
  length sk = 26 -> NoDup sk -> upper sk ≡ₚ ALPHABET ->
  10 <= length vk -> 3 <= length tk ->
  Forall is_AZ (clean plaintext) ->
  exists self e,
    init sk vk tk = Return self /\
    encrypt self plaintext = Return e /\
    decrypt self (ciphertext e) = Return (clean plaintext).
Proof.
  intros Hlen Hnd Hperm Hvk Htk Hplain.
  destruct (init_accepts sk vk tk) as (self & Hinit & Hsk & Hvig & Htrans & Hsmap & Hrmap);
    [done..|].
  exists self.
  pose proof (substitution_bijection _ _ _ Hperm Hsmap Hrmap) as Hbij.
  destruct (substitute_text _ _ _ Hbij Hplain) as (sub & Hsub & HsubAZ & Hback).
  assert (0 < length (vigenere_key self)) as HK.
  { rewrite Hvig. pose proof (length_upper_ge vk). lia. }
  destruct (ZigzagFacts.zigzag_roundtrip (transposition_key self)
              (vigenere encrypt_char (vigenere_key self) sub))
    as (t & Henc & Hdec); [rewrite Htrans; lia|].
  eexists. split; [done|]. split.
  - unfold encrypt. fold (clean plaintext). rewrite Hsub. simpl.
    rewrite VigenereFacts.vigenere_loop_spec by done. simpl.
    rewrite Henc. simpl. reflexivity.
  - simpl. unfold decrypt. rewrite Hdec. simpl.
    rewrite VigenereFacts.vigenere_loop_spec by done. simpl.
    by rewrite VigenereFacts.vigenere_decrypt_encrypt.
Qed.

End Init.
End MLCCFacts.

(** ** Recovery of the Vigenère key *)

Module VigenereCrackerFacts.
Import MLCC VigenereCracker.

Lemma ALPHABET_MAP_lookup (c : N) : is_AZ c -> ALPHABET_MAP !! c = Some (ord c - ord_A)%Z.
Proof.
  intros Hc%MLCCFacts.elem_of_ALPHABET. revert c Hc. apply Forall_forall.
  apply (bool_decide_unpack _). by vm_compute.
Qed.

Lemma elem_of_range (n : nat) (z : Z) : z ∈ range n <-> (0 <= z < Z.of_nat n)%Z.
Proof.
  unfold range. rewrite list_elem_of_In, in_map_iff. split.
  - intros (k & <- & Hk%in_seq). lia.
  - intros Hz. exists (Z.to_nat z). split; [lia | apply in_seq; lia].
Qed.

Lemma INV_ALPHABET_MAP_lookup (s : Z) :
  s ∈ range 26 -> INV_ALPHABET_MAP !! s = Some (letter_of s).
Proof.
  revert s. apply Forall_forall. apply (bool_decide_unpack _). by vm_compute.
Qed.

Lemma shift_of_range (k : N) : is_AZ k -> shift_of k ∈ range 26.
Proof. unfold is_AZ, shift_of, ord, ord_A. rewrite elem_of_range. lia. Qed.

Lemma modifier_for_pos_nat (i : nat) :
  modifier_for_pos (Z.of_nat i) = (Z.of_nat (i mod 5) + 1)%Z.
Proof. unfold modifier_for_pos. by rewrite Nat2Z.inj_mod. Qed.

(** The shift that produced a pair solves its congruence. *)
Lemma true_shift_possible (c : N) (s m : Z) :
  is_AZ c -> s ∈ range 26 ->
  s ∈ possible_shifts_for_pair c (encrypt_char c s m) m.
Proof.
  intros Hc Hs. unfold possible_shifts_for_pair.
  rewrite (ALPHABET_MAP_lookup c Hc),
    (ALPHABET_MAP_lookup _ (VigenereFacts.encrypt_char_AZ c s m)).
  apply list_elem_of_filter. split; [|done].
  unfold encrypt_char, chr, ord, ord_A.
  pose proof (Z.mod_pos_bound (Z.of_N c - 65 + s * m) 26 ltac:(lia)). lia.
Qed.

Lemma shift_at_lookup (key : list N) (i : nat) (k : N) :
  key !! ((i + key_rotation_at (length key) i) mod length key) = Some k ->
  shift_at key i = shift_of k.
Proof. intros Hk. unfold shift_at. by rewrite Hk. Qed.

Lemma setitem_lookup {A} (l : list A) (i : nat) (x : A) :
  i < length l -> setitem l (Z.of_nat i) x = Return (<[i := x]> l).
Proof.
  intros Hi. unfold setitem.
  destruct (Z.ltb_spec (Z.of_nat i) 0) as [?|_]; [lia|].
  destruct (Z.ltb_spec (Z.of_nat i) 0) as [?|_]; [lia|].
  destruct (Z.leb_spec (Z.of_nat (length l)) (Z.of_nat i)) as [?|_]; [lia|].
  simpl. by rewrite Nat2Z.id.
Qed.

(** One iteration of the loop, when every access is in range. *)
Lemma candidates_loop_step sub vig (K i : nat) rest cands (p : nat) c v c0 :
  pos_to_key_index (Z.of_nat i) (Z.of_nat K) = Return (Z.of_nat p) ->
  sub !! i = Some c -> vig !! i = Some v -> cands !! p = Some c0 ->
  candidates_loop sub vig (Z.of_nat K) (i :: rest) cands =
    let poss := possible_shifts_for_pair c v (modifier_for_pos (Z.of_nat i)) in
    if bool_decide (poss = []) then Return None else
    if size (c0 ∩ list_to_set poss) =? 0 then Return None else
    candidates_loop sub vig (Z.of_nat K) rest (<[p := c0 ∩ list_to_set poss]> cands).
Proof.
  intros Hp Hc Hv Hc0. cbn [candidates_loop]. rewrite Hp. run_bind.
  rewrite (getitem_lookup _ _ _ Hc), (getitem_lookup _ _ _ Hv). run_bind.
  case_bool_decide; [done|].
  rewrite (getitem_lookup _ _ _ Hc0). run_bind.
  rewrite setitem_lookup by (by eapply lookup_lt_Some). run_bind. done.
Qed.

(** The loop never discards the key that produced [vig]. *)
Lemma candidates_loop_sound (key sub : list N) positions (cands : list (gset Z)) :
  0 < length key -> Forall is_AZ key -> Forall is_AZ sub ->
  Forall (fun i => i < length sub) positions ->
  Forall2 (fun k c => shift_of k ∈ c) key cands ->
  exists cands',
    candidates_loop sub (vigenere encrypt_char key sub) (Z.of_nat (length key))
                    positions cands = Return (Some cands') /\
    Forall2 (fun k c => shift_of k ∈ c) key cands'.
Proof.
  intros HK Hkey Hsub Hpos. revert cands.
  induction Hpos as [|i rest Hi _ IH]; intros cands Hgood.
  - by exists cands.
  - set (p := (i + key_rotation_at (length key) i) mod length key).
    assert (p < length key) as Hp by (apply Nat.mod_upper_bound; lia).
    destruct (lookup_lt_is_Some_2 key p Hp) as [k Hk].
    destruct (lookup_lt_is_Some_2 sub i Hi) as [c Hc].
    destruct (Forall2_lookup_l _ _ _ _ _ Hgood Hk) as (c0 & Hc0 & Hin).
    assert (is_AZ k) as HkAZ by (rewrite Forall_forall in Hkey; eapply Hkey, list_elem_of_lookup_2, Hk).
    assert (is_AZ c) as HcAZ by (rewrite Forall_forall in Hsub; eapply Hsub, list_elem_of_lookup_2, Hc).
    assert (vigenere encrypt_char key sub !! i
            = Some (encrypt_char c (shift_of k) (modifier_for_pos (Z.of_nat i)))) as Hv.
    { unfold vigenere. rewrite list_lookup_imap, Hc.
      cbn [fmap option_fmap option_map].
      by rewrite (shift_at_lookup key i k Hk), modifier_for_pos_nat. }
    rewrite (candidates_loop_step _ _ _ _ _ _ p c _ c0
               (VigenereFacts.effective_index_closed_form _ _ HK) Hc Hv Hc0).
    cbv zeta.
    pose proof (true_shift_possible c (shift_of k) (modifier_for_pos (Z.of_nat i)) HcAZ
                  (shift_of_range k HkAZ)) as Hposs.
    set (poss := possible_shifts_for_pair _ _ _) in *.
    assert (shift_of k ∈ c0 ∩ list_to_set poss) as Hin'.
    { apply elem_of_intersection. split; [done | by apply elem_of_list_to_set]. }
    rewrite bool_decide_false by (intros E; rewrite E in Hposs; by apply elem_of_nil in Hposs).
    destruct (Nat.eqb_spec (size (c0 ∩ list_to_set poss)) 0) as [E|_].
    { apply size_empty_inv in E. rewrite E in Hin'. by apply not_elem_of_empty in Hin'. }
    apply IH. rewrite <- (list_insert_id key p k Hk). by apply Forall2_insert.
Qed.

Lemma getitem_elem_of {A} (l : list A) (i : Z) (x : A) : getitem l i = Return x -> x ∈ l.
Proof.
  unfold getitem. destruct (_ <? 0)%Z; [done|].
  destruct (l !! _) as [y|] eqn:E; [|done].
  intros [= <-]. by eapply list_elem_of_lookup_2.
Qed.

Lemma setitem_insert {A} (l l' : list A) (i : Z) (x : A) :
  setitem l i x = Return l' -> exists j, l' = <[j := x]> l.
Proof.
  unfold setitem. destruct (_ || _); [done|]. intros [= <-]. by eexists.
Qed.

(** Every candidate set stays a non-empty set of shifts [0..25]. *)
Definition plausible (c : gset Z) : Prop := c ≠ ∅ /\ forall s, s ∈ c -> s ∈ range 26.

Lemma candidates_loop_plausible sub vig keylen positions (cands cands' : list (gset Z)) :
  Forall plausible cands ->
  candidates_loop sub vig keylen positions cands = Return (Some cands') ->
  Forall plausible cands' /\ length cands' = length cands.
Proof.
  revert cands. induction positions as [|i rest IH]; intros cands Hinv Hloop.
  - by injection Hloop as <-.
  - cbn [candidates_loop] in Hloop.
    destruct (pos_to_key_index _ _) as [|p]; [done|]. run_bind in Hloop.
    destruct (getitem sub _) as [|sub_ch]; [done|]. run_bind in Hloop.
    destruct (getitem vig _) as [|vig_ch]; [done|]. run_bind in Hloop.
    case_bool_decide; [done|].
    destruct (getitem cands p) as [|c0] eqn:Hc0; [done|]. run_bind in Hloop.
    destruct (setitem cands p _) as [|cands2] eqn:Hset; [done|]. run_bind in Hloop.
    destruct (Nat.eqb_spec (size (c0 ∩ list_to_set
                (possible_shifts_for_pair sub_ch vig_ch (modifier_for_pos (Z.of_nat i))))) 0)
      as [|Hsize]; [done|].
    apply setitem_insert in Hset as [j ->].
    apply IH in Hloop as [Hinv' Hlen].
    + split; [done|]. by rewrite Hlen, length_insert.
    + apply Forall_insert; [done|]. apply getitem_elem_of in Hc0.
      rewrite Forall_forall in Hinv. destruct (Hinv c0 Hc0) as [_ Hsub]. split.
      * intros E. apply Hsize. rewrite E. apply size_empty.
      * intros s [Hs _]%elem_of_intersection. by apply Hsub.
Qed.

Lemma plausible_initial n : Forall plausible (replicate n (list_to_set (range 26) : gset Z)).
Proof.
  apply Forall_replicate. split.
  - intros E. assert (0%Z ∈ (list_to_set (range 26) : gset Z)) as H0.
    { apply elem_of_list_to_set, elem_of_range. lia. }
    rewrite E in H0. by apply not_elem_of_empty in H0.
  - intros s. by rewrite elem_of_list_to_set.
Qed.

(** [sorted(list(c))] *)
Lemma elem_of_sorted_elements (c : gset Z) (s : Z) :
  s ∈ sorted (fun s => s) (elements c) <-> s ∈ c.
Proof. by rewrite sorted_Permutation, elem_of_elements. Qed.

Lemma sorted_elements_nonempty (c : gset Z) :
  c ≠ ∅ -> sorted (fun s => s) (elements c) ≠ [].
Proof.
  intros Hc E. apply Hc. apply leibniz_equiv, elements_empty_inv.
  apply Permutation_nil_r. rewrite <- E. symmetry. apply sorted_Permutation.
Qed.

(** The capped product of lines 96-100 exceeds the cap exactly when the
    full product does. *)
Lemma combinations_pos (lists : list (list Z)) :
  Forall (fun l => l ≠ []) lists -> (1 <= combinations lists)%Z.
Proof.
  induction 1 as [|l lists Hl _ IH]; simpl; [lia|].
  destruct l; [done|]. simpl length. nia.
Qed.

Lemma total_comb_loop_spec (maxc t : Z) (lists : list (list Z)) :
  Forall (fun l => l ≠ []) lists -> (1 <= t)%Z ->
  (1 <= total_comb_loop maxc t lists)%Z /\
  ((total_comb_loop maxc t lists <=? maxc)%Z = (t * combinations lists <=? maxc)%Z).
Proof.
  intros Hne. revert t. induction Hne as [|l lists Hl Hne IH]; intros t Ht; simpl.
  - split; [done|]. by rewrite Z.mul_1_r.
  - assert (1 <= Z.of_nat (length l))%Z as Hlen by (destruct l; [done | simpl; lia]).
    rewrite Z.max_r by lia.
    pose proof (combinations_pos lists Hne) as Hc.
    destruct (Z.gtb_spec (t * Z.of_nat (length l)) maxc) as [Hgt|Hle].
    + split; [nia|].
      destruct (Z.leb_spec (t * Z.of_nat (length l)) maxc); [lia|].
      destruct (Z.leb_spec (t * (Z.of_nat (length l) * combinations lists)) maxc); [nia | done].
    + destruct (IH (t * Z.of_nat (length l))%Z ltac:(nia)) as [Hpos ->].
      split; [done|]. by rewrite Z.mul_assoc.
Qed.

(** [product] is the Cartesian product. *)
Lemma elem_of_product {A} (lists : list (list A)) (combo : list A) :
  combo ∈ product lists <-> Forall2 (fun x l => x ∈ l) combo lists.
Proof.
  revert combo. induction lists as [|l lists IH]; intros combo; simpl.
  - rewrite list_elem_of_singleton. split; [by intros -> | by inversion 1].
  - rewrite list_elem_of_In, in_flat_map. split.
    + intros (x & Hx & Hin). apply in_map_iff in Hin as (rest & <- & Hrest).
      constructor; [by apply list_elem_of_In | by apply IH, list_elem_of_In].
    + inversion 1 as [|x ? rest ? Hx Hrest]; subst. exists x.
      split; [by apply list_elem_of_In|]. apply in_map, list_elem_of_In. by apply IH.
Qed.

Lemma length_product {A} (lists : list (list A)) :
  length (product lists)
  = foldr (fun lst acc => length lst * acc) 1 lists.
Proof.
  induction lists as [|l lists IH]; simpl; [done|]. rewrite <- IH.
  induction l as [|x l IHl]; simpl; [done|].
  by rewrite length_app, length_map, IHl.
Qed.

(** The enumeration of lines 108-111 never fails on shifts [0..25]. *)
Lemma enumerate_keys (lists : list (list Z)) :
  Forall (Forall (fun s => s ∈ range 26)) lists ->
  mapM (fun combo => key_letters ← mapM (dict_get INV_ALPHABET_MAP) combo ;
                     Return (combo, key_letters))
       (product lists)
  = Return (map (fun combo => (combo, map letter_of combo)) (product lists)).
Proof.
  intros Hlists. apply MLCCFacts.mapM_Return, Forall2_fmap_r, Forall_Forall2_diag.
  apply Forall_forall. intros combo Hcombo%elem_of_product.
  rewrite (MLCCFacts.mapM_Return _ combo (map letter_of combo)); [done|].
  apply Forall2_fmap_r, Forall_Forall2_diag, Forall_forall. intros s Hs.
  apply MLCCFacts.dict_get_Some, INV_ALPHABET_MAP_lookup.
  apply list_elem_of_lookup in Hs as [i Hi].
  destruct (Forall2_lookup_l _ _ _ _ _ Hcombo Hi) as (l & Hl & Hin).
  rewrite Forall_forall in Hlists. specialize (Hlists l (list_elem_of_lookup_2 _ _ _ Hl)).
  rewrite Forall_forall in Hlists. by apply Hlists.
Qed.

(** What [derive_candidates_for_keylen] returns once its loop has kept
    candidate sets for every key position. *)
Definition result_of (keylen max_combinations : Z) (cands : list (gset Z)) : candidates :=
  let candidate_lists := map (fun c => sorted (fun s => s) (elements c)) cands in
  {| keylen := keylen;
     per_position_candidates := candidate_lists;
     enumerated_keys :=
       if (combinations candidate_lists <=? max_combinations)%Z
       then Some (map (fun combo => (combo, map letter_of combo)) (product candidate_lists))
       else None;
     estimated_combinations := total_comb_loop max_combinations 1 candidate_lists |}.

Lemma derive_after_loop sub vig keylen maxc (cands : list (gset Z)) :
  candidates_loop sub vig keylen (seq 0 (length sub))
    (replicate (Z.to_nat keylen) (list_to_set (range 26))) = Return (Some cands) ->
  derive_candidates_for_keylen sub vig keylen maxc = Return (Some (result_of keylen maxc cands))
  /\ Forall (fun l => l ≠ []) (per_position_candidates (result_of keylen maxc cands)).
Proof.
  intros Hloop. unfold derive_candidates_for_keylen. rewrite Hloop. run_bind.
  destruct (candidates_loop_plausible _ _ _ _ _ _ (plausible_initial _) Hloop) as [Hpl _].
  set (lists := map (fun c => sorted (fun s => s) (elements c)) cands).
  assert (Forall (fun l => l ≠ []) lists) as Hne.
  { apply Forall_fmap. eapply Forall_impl; [exact Hpl|].
    intros c [Hc _]. by apply sorted_elements_nonempty. }
  assert (Forall (Forall (fun s => s ∈ range 26)) lists) as Hrange.
  { apply Forall_fmap. eapply Forall_impl; [exact Hpl|].
    intros c [_ Hc]. apply Forall_forall. intros s Hs%elem_of_sorted_elements. by apply Hc. }
  destruct (total_comb_loop_spec maxc 1 lists Hne ltac:(lia)) as [Hpos Hcap].
  destruct (Z.eqb_spec (total_comb_loop maxc 1 lists) 0) as [?|_]; [lia|].
  split; [|done]. unfold result_of. fold lists.
  rewrite Hcap, Z.mul_1_l.
  destruct (combinations lists <=? maxc)%Z; [|done].
  by rewrite (enumerate_keys lists Hrange).
Qed.

Lemma derive_inversion sub vig keylen maxc res :
  derive_candidates_for_keylen sub vig keylen maxc = Return (Some res) ->
  exists cands,
    candidates_loop sub vig keylen (seq 0 (length sub))
      (replicate (Z.to_nat keylen) (list_to_set (range 26))) = Return (Some cands)
    /\ res = result_of keylen maxc cands.
Proof.
  intros Hres.
  destruct (candidates_loop sub vig keylen (seq 0 (length sub))
              (replicate (Z.to_nat keylen) (list_to_set (range 26))))
    as [e|[cands|]] eqn:Hloop.
  - unfold derive_candidates_for_keylen in Hres. by rewrite Hloop in Hres.
  - exists cands. split; [done|].
    destruct (derive_after_loop _ _ _ maxc _ Hloop) as [Hd _]. congruence.
  - unfold derive_candidates_for_keylen in Hres. by rewrite Hloop in Hres.
Qed.

(** Soundness: the key that produced [vigenere_result] is never excluded. *)
Lemma recovery_sound (key substituted vigenere_result : list N) (maxc : Z) :
  0 < length key -> Forall is_AZ key -> Forall is_AZ substituted ->
  vigenere_loop encrypt_char key 0 0 substituted = Return vigenere_result ->
  exists res,
    derive_candidates_for_keylen substituted vigenere_result (Z.of_nat (length key)) maxc
      = Return (Some res) /\
    Forall2 (fun k cands => shift_of k ∈ cands) key (per_position_candidates res).
Proof.
  intros HK Hkey Hsub Hvig.
  rewrite VigenereFacts.vigenere_loop_spec in Hvig by done. injection Hvig as <-.
  destruct (candidates_loop_sound key substituted (seq 0 (length substituted))
              (replicate (Z.to_nat (Z.of_nat (length key))) (list_to_set (range 26))))
    as (cands & Hloop & Hgood); [done.. | | |].
  - apply Forall_forall. intros i Hi%elem_of_seq. lia.
  - apply Forall2_replicate_r; [by rewrite Nat2Z.id|].
    eapply Forall_impl; [exact Hkey|]. intros k Hk. unfold flip.
    by apply elem_of_list_to_set, shift_of_range.
  - destruct (derive_after_loop _ _ _ maxc _ Hloop) as [Hd _].
    eexists. split; [exact Hd|]. simpl.
    apply Forall2_fmap_r. eapply Forall2_impl; [exact Hgood|].
    intros k c Hin. by apply elem_of_sorted_elements.
Qed.

End VigenereCrackerFacts.

(** ** The entry point of the Vigenère key recovery *)

Module VigenereMainFacts.
Import MLCC VigenereCracker.

Lemma getitem_take {A} (l : list A) (n i : nat) :
  i < n -> getitem (take n l) (Z.of_nat i) = getitem l (Z.of_nat i).
Proof.
  intros Hi. unfold getitem.
  destruct (Z.ltb_spec (Z.of_nat i) 0) as [?|_]; [lia|].
  destruct (Z.ltb_spec (Z.of_nat i) 0) as [?|_]; [lia|].
  by rewrite Nat2Z.id, lookup_take_lt.
Qed.

(** [derive_candidates_for_keylen] reads [vigenere_result] only below
    [len(substituted)]: what follows is ignored without a check. *)
Lemma derive_reads_prefix (sub vig : list N) (keylen maxc : Z) :
  derive_candidates_for_keylen sub (take (length sub) vig) keylen maxc
  = derive_candidates_for_keylen sub vig keylen maxc.
Proof.
  unfold derive_candidates_for_keylen. f_equal.
  assert (forall positions cands,
            Forall (fun i => i < length sub) positions ->
            candidates_loop sub (take (length sub) vig) keylen positions cands
            = candidates_loop sub vig keylen positions cands) as Hloop.
  { intros positions cands Hpos. revert cands.
    induction Hpos as [|i rest Hi _ IH]; intros cands; [done|].
    cbn [candidates_loop]. rewrite (getitem_take vig _ i Hi).
    destruct (pos_to_key_index _ _) as [|p]; [done|]. run_bind.
    destruct (getitem sub _) as [|sub_ch]; [done|]. run_bind.
    destruct (getitem vig _) as [|vig_ch]; [done|]. run_bind.
    case_bool_decide; [done|].
    destruct (getitem cands p) as [|c0]; [done|]. run_bind.
    destruct (setitem cands p _) as [|cands2]; [done|]. run_bind.
    destruct (_ =? 0); [done | apply IH]. }
  apply Hloop. apply Forall_forall. intros i Hi%elem_of_seq. lia.
Qed.

End VigenereMainFacts.

(** * The claims *)

(** ** C2: the transposition stage *)

(** C2. For every transposition key of at least 3 columns and every text of
    every length (also a multiple of the column count, one row, or fewer
    characters than columns), the reconstruction of [decrypt] (short columns
    from the parity of the last row, fill column by column, read back in
    zigzag) returns the text [encrypt] transposed. *)
Theorem zigzag_decrypt_inverts_encrypt {A : Type} (transposition_key : list Z)
    (text : list A) :
  3 <= length transposition_key ->
  exists t, Zigzag.encrypt transposition_key text = Return t /\
            Zigzag.decrypt transposition_key (Zigzag.t_ciphertext t) = Return text.
Proof.
  intros HC. apply ZigzagFacts.zigzag_roundtrip. lia.
Qed.

Lemma zigzag_decrypt_inverts_encrypt_witness :
  exists t, Zigzag.encrypt [3; 1; 2]%Z (lit "ABCDEFGH") = Return t /\
            Zigzag.decrypt [3; 1; 2]%Z (Zigzag.t_ciphertext t) = Return (lit "ABCDEFGH").
Proof.
  apply (zigzag_decrypt_inverts_encrypt [3; 1; 2]%Z (lit "ABCDEFGH")). simpl. lia.
Defined.

(** The three edge cases of the specification, run on the model. *)
Example zigzag_no_short_columns :
  (t ← Zigzag.encrypt [3; 1; 2]%Z (lit "ABCDEF") ;
   Zigzag.decrypt [3; 1; 2]%Z (Zigzag.t_ciphertext t)) = Return (lit "ABCDEF").
Proof. reflexivity. Qed.

Example zigzag_one_row :
  (t ← Zigzag.encrypt [3; 1; 2]%Z (lit "ABC") ;
   Zigzag.decrypt [3; 1; 2]%Z (Zigzag.t_ciphertext t)) = Return (lit "ABC").
Proof. reflexivity. Qed.

Example zigzag_fewer_letters_than_columns :
  (t ← Zigzag.encrypt [3; 1; 2]%Z (lit "AB") ;
   Zigzag.decrypt [3; 1; 2]%Z (Zigzag.t_ciphertext t)) = Return (lit "AB").
Proof. reflexivity. Qed.

(** ** C3: the decoder of the transposition solver *)

(** C3 (the code departs from the claim). [columnar_decrypt] is a plain
    columnar decoder: on the ciphertext ["AFBECD"], which the pipeline's
    zigzag transposition produces from ["ABCDEF"] with column order
    [[0, 1, 2]], it returns ["AFB"].  When the length is a multiple of the
    column count, [full_cols] is 0 and every column is given [n_rows - 1]
    characters. *)
Theorem columnar_decrypt_not_inverse_of_zigzag :
  (exists t, Zigzag.encrypt [1; 2; 3]%Z (lit "ABCDEF") = Return t /\
             Zigzag.t_ciphertext t = lit "AFBECD" /\
             Zigzag.t_column_order t = [0; 1; 2]) /\
  TranspositionBruteforce.columnar_decrypt (lit "AFBECD") [0; 1; 2]%Z = Return (lit "AFB") /\
  TranspositionBruteforce.columnar_decrypt (lit "AFGBECD") [0; 1; 2]%Z
    = Return (lit "ABCFEDG").
Proof.
  split; [|split]; [eexists; split; [reflexivity|]; split | | ]; reflexivity.
Qed.

(** ** C4: the effective key index *)

(** C4. For every key length [K >= 1] and every position [i], the index the
    pipeline reads its key at, [(i + key_rotation) mod K] with
    [key_rotation] as the loop has it on entry to iteration [i], is the
    closed form [(i + i // 5) mod K] of [pos_to_key_index]; and the loop,
    entered at [i] with that rotation, reads the key at these indices
    from there on. *)
Theorem effective_key_index_agrees (vigenere_key : list N) (i : nat) :
  1 <= length vigenere_key ->
  let K := length vigenere_key in
  VigenereCracker.pos_to_key_index (Z.of_nat i) (Z.of_nat K)
    = Return (Z.of_nat ((i + MLCC.key_rotation_at K i) mod K)) /\
  MLCC.key_rotation_at K i = (i / 5) mod K /\
  forall f text,
    MLCC.vigenere_loop f vigenere_key i (MLCC.key_rotation_at K i) text
    = Return (imap (fun j char =>
                      f char (MLCC.shift_at vigenere_key (i + j))
                        (Z.of_nat ((i + j) mod 5) + 1)%Z) text).
Proof.
  intros HK K. split; [|split].
  - apply VigenereFacts.effective_index_closed_form. lia.
  - apply VigenereFacts.key_rotation_at_eq. lia.
  - intros f text. apply VigenereFacts.vigenere_loop_from. lia.
Qed.

Lemma effective_key_index_agrees_witness :
  VigenereCracker.pos_to_key_index 9 10 = Return 0%Z /\
  MLCC.key_rotation_at 10 9 = 1 /\
  forall f text,
    MLCC.vigenere_loop f (lit "KEYKEYKEYK") 9 1 text
    = Return (imap (fun j char =>
                      f char (MLCC.shift_at (lit "KEYKEYKEYK") (9 + j))
                        (Z.of_nat ((9 + j) mod 5) + 1)%Z) text).
Proof.
  apply (effective_key_index_agrees (lit "KEYKEYKEYK") 9). simpl. lia.
Defined.

(** ** C5: soundness of the key recovery *)

(** C5, as stated, fails outside the letters.  The pipeline accepts the
    Vigenère key ["K3Y-K3Y-K3"]; the shift of its character [3] is
    [ord('3') - ord('A') = -14], and the candidates of that position are 12
    and 25: the recovery only looks among [0..25].  And when [substituted]
    holds a character that is no letter, as the substitution stage produces
    under a key with such characters, the recovery reports the true length
    infeasible. *)
Lemma true_shift_excluded_outside_letters :
  MLCC.vigenere_loop MLCC.encrypt_char (lit "K3Y-K3Y-K3") 0 0 (lit "SVOOLDLIOW")
  = Return (lit "CTIMJBXMKU") /\
  (exists res,
     VigenereCracker.derive_candidates_for_keylen (lit "SVOOLDLIOW") (lit "CTIMJBXMKU")
       (Z.of_nat (length (lit "K3Y-K3Y-K3"))) 200 = Return (Some res) /\
     lit "K3Y-K3Y-K3" !! 1 = Some 51%N /\
     VigenereCracker.shift_of 51%N = (-14)%Z /\
     VigenereCracker.per_position_candidates res !! 1 = Some [12; 25]%Z /\
     ~ Forall2 (fun k cands => VigenereCracker.shift_of k ∈ cands) (lit "K3Y-K3Y-K3")
               (VigenereCracker.per_position_candidates res)) /\
  MLCC.vigenere_loop MLCC.encrypt_char (lit "KEYKEYKEYK") 0 0 (lit "(") = Return (lit "L") /\
  VigenereCracker.derive_candidates_for_keylen (lit "(") (lit "L")
    (Z.of_nat (length (lit "KEYKEYKEYK"))) 200 = Return None.
Proof.
  split; [by vm_compute|]. split; [|split; by vm_compute].
  eexists. split; [by vm_compute|]. split; [done|]. split; [done|]. split; [done|].
  intros Hall.
  pose proof (Forall2_lookup_lr _ _ _ 1 51%N [12; 25]%Z Hall eq_refl eq_refl) as Hin.
  cbv beta in Hin. change (VigenereCracker.shift_of 51%N) with (-14)%Z in Hin.
  repeat (apply elem_of_cons in Hin as [Hin|Hin]; [discriminate Hin|]).
  by apply elem_of_nil in Hin.
Qed.

(** C5, amended. If [vigenere_result] is what the pipeline's Vigenère loop
    makes of the letters [substituted] under a key of [L >= 1] letters
    [A]..[Z], then [derive_candidates_for_keylen] at length [L] returns a
    result, for every cap, and the shift of every key letter is among the
    candidates of its position. *)
Theorem true_key_never_excluded (key substituted vigenere_result : list N)
    (max_combinations : Z) :
  1 <= length key -> Forall MLCC.is_AZ key -> Forall MLCC.is_AZ substituted ->
  MLCC.vigenere_loop MLCC.encrypt_char key 0 0 substituted = Return vigenere_result ->
  exists res,
    VigenereCracker.derive_candidates_for_keylen substituted vigenere_result
      (Z.of_nat (length key)) max_combinations = Return (Some res) /\
    Forall2 (fun k cands => VigenereCracker.shift_of k ∈ cands) key
            (VigenereCracker.per_position_candidates res).
Proof.
  intros HK. apply VigenereCrackerFacts.recovery_sound. lia.
Qed.

Lemma true_key_never_excluded_witness :
  exists res,
    VigenereCracker.derive_candidates_for_keylen (lit "SVOOLDLIOW") (lit "CDICFNTCCU")
      10 200 = Return (Some res) /\
    Forall2 (fun k cands => VigenereCracker.shift_of k ∈ cands) (lit "KEYKEYKEYK")
            (VigenereCracker.per_position_candidates res).
Proof.
  apply (true_key_never_excluded (lit "KEYKEYKEYK") (lit "SVOOLDLIOW") (lit "CDICFNTCCU") 200).
  - simpl. lia.
  - apply (bool_decide_unpack _). by vm_compute.
  - apply (bool_decide_unpack _). by vm_compute.
  - reflexivity.
Defined.

(** ** C8: validation of the keys *)

(** C8. Construction raises [ValueError] exactly for the invalid keys (the
    substitution key is not 26 distinct symbols, the Vigenère key is shorter
    than 10, the transposition key has fewer than 3 elements), and returns a
    cipher object exactly for the others; for invalid keys [mlcc_encrypt]
    and [mlcc_decrypt] report that error and nothing else: no transform
    runs. *)
Theorem init_raises_iff_invalid_keys `{UnicodeDB} (substitution_key vigenere_key : list N)
    (transposition_key : list Z) :
  ((exists msg, MLCC.init substitution_key vigenere_key transposition_key
               = Raise (ValueError msg))
   <-> MLCC.invalid_keys substitution_key vigenere_key transposition_key) /\
  ((exists self, MLCC.init substitution_key vigenere_key transposition_key = Return self)
   <-> ~ MLCC.invalid_keys substitution_key vigenere_key transposition_key) /\
  (MLCC.invalid_keys substitution_key vigenere_key transposition_key ->
   forall text,
     (exists msg, MLCC.mlcc_encrypt text substitution_key vigenere_key transposition_key
                  = MLCC.Failure (ValueError msg)) /\
     (exists msg, MLCC.mlcc_decrypt text substitution_key vigenere_key transposition_key
                  = MLCC.Failure (ValueError msg))).
Proof.
  destruct (MLCCFacts.invalid_keys_dec substitution_key vigenere_key transposition_key)
    as [Hinv|(Hlen & Hnd & Hvk & Htk)].
  - destruct (MLCCFacts.init_rejects _ _ _ Hinv) as [msg Hmsg].
    split; [|split].
    + split; [done | by exists msg].
    + split; [|done]. intros [self Hself]. congruence.
    + intros _ text. unfold MLCC.mlcc_encrypt, MLCC.mlcc_decrypt. rewrite Hmsg.
      split; by exists msg.
  - destruct (MLCCFacts.init_accepts _ _ _ Hlen Hnd Hvk Htk) as (self & Hself & _).
    assert (~ MLCC.invalid_keys substitution_key vigenere_key transposition_key) as Hvalid.
    { unfold MLCC.invalid_keys. intros [Hsk|[?|?]]; [by apply Hsk | lia | lia]. }
    split; [|split].
    + split; [|done]. intros [msg Hmsg]. congruence.
    + split; [done | by exists self].
    + done.
Qed.

(** ** C9: the capped enumeration *)

(** C9. In a result of [derive_candidates_for_keylen] every per-position
    candidate list is non-empty; [enumerated_keys] is [None] exactly when
    the product of their sizes exceeds [max_combinations]; otherwise it is
    the Cartesian product of the lists, in [itertools.product] order, each
    combination paired with its key letters. *)
Theorem enumerated_keys_capped (substituted vigenere_result : list N)
    (keylen max_combinations : Z) (res : VigenereCracker.candidates) :
  VigenereCracker.derive_candidates_for_keylen substituted vigenere_result keylen
    max_combinations = Return (Some res) ->
  let lists := VigenereCracker.per_position_candidates res in
  Forall (fun l => l ≠ []) lists /\
  (VigenereCracker.enumerated_keys res = None
   <-> (max_combinations < VigenereCracker.combinations lists)%Z) /\
  ((VigenereCracker.combinations lists <= max_combinations)%Z ->
   VigenereCracker.enumerated_keys res
   = Some (map (fun combo => (combo, map VigenereCracker.letter_of combo))
               (VigenereCracker.product lists))) /\
  (forall combo, combo ∈ VigenereCracker.product lists
                 <-> Forall2 (fun s l => s ∈ l) combo lists) /\
  (forall s, s ∈ range 26 ->
     VigenereCracker.INV_ALPHABET_MAP !! s = Some (VigenereCracker.letter_of s)).
Proof.
  intros Hres.
  destruct (VigenereCrackerFacts.derive_inversion _ _ _ _ _ Hres) as (cands & Hloop & ->).
  destruct (VigenereCrackerFacts.derive_after_loop _ _ _ max_combinations _ Hloop)
    as [_ Hne].
  simpl in *. split; [done|].
  split; [|split; [|split]].
  - destruct (Z.leb_spec (VigenereCracker.combinations
                (map (fun c => sorted (fun s => s) (elements c)) cands)) max_combinations);
      split; try done; lia.
  - intros Hle. by rewrite (proj2 (Z.leb_le _ _) Hle).
  - intros combo. apply VigenereCrackerFacts.elem_of_product.
  - apply VigenereCrackerFacts.INV_ALPHABET_MAP_lookup.
Qed.

(** The result on ["AAAAAA"] against itself at key length 2. *)
Definition two_candidate_keys : VigenereCracker.candidates :=
  {| VigenereCracker.keylen := 2;
     VigenereCracker.per_position_candidates := [[0]; [0; 13]]%Z;
     VigenereCracker.enumerated_keys :=
       Some [([0; 0]%Z, lit "AA"); ([0; 13]%Z, lit "AN")];
     VigenereCracker.estimated_combinations := 2 |}.

Lemma enumerated_keys_capped_witness :
  let lists := VigenereCracker.per_position_candidates two_candidate_keys in
  Forall (fun l => l ≠ []) lists /\
  (VigenereCracker.enumerated_keys two_candidate_keys = None
   <-> (200 < VigenereCracker.combinations lists)%Z) /\
  ((VigenereCracker.combinations lists <= 200)%Z ->
   VigenereCracker.enumerated_keys two_candidate_keys
   = Some (map (fun combo => (combo, map VigenereCracker.letter_of combo))
               (VigenereCracker.product lists))) /\
  (forall combo, combo ∈ VigenereCracker.product lists
                 <-> Forall2 (fun s l => s ∈ l) combo lists) /\
  (forall s, s ∈ range 26 ->
     VigenereCracker.INV_ALPHABET_MAP !! s = Some (VigenereCracker.letter_of s)).
Proof.
  apply (enumerated_keys_capped (lit "AAAAAA") (lit "AAAAAA") 2 200 two_candidate_keys).
  vm_compute. reflexivity.
Defined.

(** ** C10: substitution keys that are no permutation of the alphabet *)

(** C10. The 26 symbols of the substitution key are checked for distinctness
    before they are upper-cased, and for nothing else: every key of 26
    distinct code points is accepted.  For the accepted key
    ["aA(DEFGHIJKLMNOPQRSTUVWXYZ"] the reverse map has 25 entries, the
    substitution sends [A] and [B] to the same letter, and [decrypt] raises
    [KeyError] on the ciphertext [encrypt] made of ["C"]. *)
Theorem unchecked_substitution_key `{UnicodeDB} :
  (forall sk vk tk,
     length sk = 26 -> NoDup sk -> 10 <= length vk -> 3 <= length tk ->
     exists self, MLCC.init sk vk tk = Return self /\
                  MLCC.substitution_key self = upper sk) /\
  (exists self e,
     MLCC.init (lit "aA(DEFGHIJKLMNOPQRSTUVWXYZ") (lit "AAAAAAAAAA") [1; 2; 3]%Z
       = Return self /\
     size (MLCC.reverse_substitution_map self) = 25 /\
     MLCC.substitution_map self !! 65%N = Some 65%N /\
     MLCC.substitution_map self !! 66%N = Some 65%N /\
     MLCC.encrypt self (lit "C") = Return e /\
     MLCC.ciphertext e = lit "B" /\
     MLCC.decrypt self (MLCC.ciphertext e) = Raise KeyError).
Proof.
  split.
  - intros sk vk tk Hlen Hnd Hvk Htk.
    destruct (MLCCFacts.init_accepts sk vk tk Hlen Hnd Hvk Htk) as (self & Hself & Hsk & _).
    by exists self.
  - destruct (MLCC.init (lit "aA(DEFGHIJKLMNOPQRSTUVWXYZ") (lit "AAAAAAAAAA") [1; 2; 3]%Z)
      as [err|self] eqn:Hinit; vm_compute in Hinit; [discriminate|].
    injection Hinit as <-.
    eexists. eexists. split; [reflexivity|].
    split; [by vm_compute|]. split; [by vm_compute|]. split; [by vm_compute|].
    split; [by vm_compute|]. split; by vm_compute.
Qed.

(** ** C1: round trip of the pipeline *)

(** C1, as stated, fails: the key ["ABCDEFGHIJKLMNOPQRSTUVWXYb"] has 26
    distinct symbols and is accepted, its upper-case form ends in a second
    [B], and the plaintext ["B"] comes back as ["Z"]. *)
Lemma roundtrip_fails_for_case_distinct_key :
  exists self e,
    MLCC.init (H:=ascii_db) (lit "ABCDEFGHIJKLMNOPQRSTUVWXYb") (lit "KEYKEYKEYK") [3; 1; 2]%Z
      = Return self /\
    MLCC.encrypt (H:=ascii_db) self (lit "B") = Return e /\
    MLCC.decrypt self (MLCC.ciphertext e) = Return (lit "Z") /\
    clean (H:=ascii_db) (lit "B") = lit "B".
Proof.
  destruct (MLCC.init (H:=ascii_db) (lit "ABCDEFGHIJKLMNOPQRSTUVWXYb") (lit "KEYKEYKEYK")
              [3; 1; 2]%Z) as [err|self] eqn:Hinit; vm_compute in Hinit; [discriminate|].
  injection Hinit as <-.
  eexists. eexists. split; [reflexivity|].
  split; [by vm_compute|]. split; by vm_compute.
Qed.

(** C1, amended. For every substitution key of 26 distinct symbols whose
    upper-case form rearranges the alphabet [A]..[Z], every Vigenère key of
    length at least 10, every transposition key of length at least 3 and
    every plaintext whose letters are upper-cased into [A]..[Z], the cipher
    is constructed, [encrypt] returns, and [decrypt] of its ciphertext
    returns [clean(plaintext)]. *)
Theorem roundtrip_for_permutation_key `{UnicodeDB} (substitution_key vigenere_key : list N)
    (transposition_key : list Z) (plaintext : list N) :
  length substitution_key = 26 -> NoDup substitution_key ->
  upper substitution_key ≡ₚ ALPHABET ->
  10 <= length vigenere_key -> 3 <= length transposition_key ->
  Forall MLCC.is_AZ (clean plaintext) ->
  exists self e,
    MLCC.init substitution_key vigenere_key transposition_key = Return self /\
    MLCC.encrypt self plaintext = Return e /\
    MLCC.decrypt self (MLCC.ciphertext e) = Return (clean plaintext).
Proof. apply MLCCFacts.roundtrip. Qed.

Lemma roundtrip_for_permutation_key_witness :
  exists self e,
    MLCC.init (H:=ascii_db) (lit "ZYXWVUTSRQPONMLKJIHGFEDCBA") (lit "KEYKEYKEYK") [3; 1; 2]%Z
      = Return self /\
    MLCC.encrypt (H:=ascii_db) self (lit "Hello, World") = Return e /\
    MLCC.decrypt self (MLCC.ciphertext e) = Return (clean (H:=ascii_db) (lit "Hello, World")).
Proof.
  apply (roundtrip_for_permutation_key (H:=ascii_db) (lit "ZYXWVUTSRQPONMLKJIHGFEDCBA")
           (lit "KEYKEYKEYK") [3; 1; 2]%Z (lit "Hello, World")).
  - reflexivity.
  - apply (bool_decide_unpack _). by vm_compute.
  - apply (bool_decide_unpack _). by vm_compute.
  - simpl. lia.
  - simpl. lia.
  - apply (bool_decide_unpack _). by vm_compute.
Defined.

(** The scenario of the specification. *)
Example roundtrip_HELLOWORLD :
  MLCC.mlcc_encrypt (H:=ascii_db) (lit "HELLOWORLD") (lit "ZYXWVUTSRQPONMLKJIHGFEDCBA")
    (lit "KEYKEYKEYK") [3; 1; 2]%Z
  = MLCC.Success
      {| MLCC.ciphertext := lit "DFCICCUCNT";
         MLCC.steps :=
           {| MLCC.substituted_text := lit "SVOOLDLIOW";
              MLCC.vigenere_result := lit "CDICFNTCCU";
              MLCC.grid := [[Some 67; Some 68; Some 73]; [Some 78; Some 70; Some 67];
                            [Some 84; Some 67; Some 67]; [None; None; Some 85]]%N;
              MLCC.column_order := [1; 2; 0] |} |} /\
  MLCC.mlcc_decrypt (H:=ascii_db) (lit "DFCICCUCNT") (lit "ZYXWVUTSRQPONMLKJIHGFEDCBA")
    (lit "KEYKEYKEYK") [3; 1; 2]%Z
  = MLCC.Success (lit "HELLOWORLD").
Proof. split; by vm_compute. Qed.

(** ** C6: the solvers and the seed *)

(** With a seed, [hillclimb_transposition] does not read the operating
    system's randomness. *)
Lemma hillclimb_transposition_seeded `{UnicodeDB} `{PyRuntime} cipher keylen iterations
    restarts (seed urandom urandom' : Z) :
  TranspositionBruteforce.hillclimb_transposition cipher keylen iterations restarts
    (Some seed) urandom
  = TranspositionBruteforce.hillclimb_transposition cipher keylen iterations restarts
      (Some seed) urandom'.
Proof. reflexivity. Qed.

Definition solver_args (seed : option Z) : TranspositionBruteforce.args :=
  {| TranspositionBruteforce.a_string := lit "Hello, world: the end.";
     TranspositionBruteforce.a_min_keylen := 3;
     TranspositionBruteforce.a_max_keylen := 3;
     TranspositionBruteforce.a_iterations := 1;
     TranspositionBruteforce.a_restarts := 1;
     TranspositionBruteforce.a_seed := seed |}.

(** C6 (the code departs from the claim). [brute_force_lengths] calls
    [hillclimb_transposition] without [rng_seed], and [main] drops
    [--seed]: whatever the seed, the generator is seeded by the operating
    system.  With the stand-in generator, two runs on the same input and
    parameters, whose generators the system seeds differently, return
    different key orders. *)
Theorem transposition_solver_ignores_seed `{UnicodeDB} (exp : float -> float)
    (seed seed' : option Z) :
  TranspositionBruteforce.main (H0:=lcg exp) (solver_args seed) (fun _ => 2%Z)
  = Return (Some (Some 3, Some [0; 2; 1]%Z, lit "HOHERELLELDNOTDW", 0.6875%float)) /\
  TranspositionBruteforce.main (H0:=lcg exp) (solver_args seed') (fun _ => 41%Z)
  = Return (Some (Some 3, Some [0; 1; 2]%Z, lit "HOHERELLELDNOTDW", 0.6875%float)).
Proof. split; by vm_compute. Qed.

(** ** C7: strings of different lengths *)

(** C7, as stated, fails: [derive_candidates_for_keylen] makes no length
    check.  On ["A"] against ["AB"] it returns the result of ["A"] against
    ["A"]; on ["AB"] against ["A"] it raises [IndexError]. *)
Lemma derive_accepts_longer_second_string :
  VigenereCracker.derive_candidates_for_keylen (lit "A") (lit "AB") 3 200
  = Return (Some {| VigenereCracker.keylen := 3;
                    VigenereCracker.per_position_candidates :=
                      [[0]; range 26; range 26]%Z;
                    VigenereCracker.enumerated_keys := None;
                    VigenereCracker.estimated_combinations := 676 |}) /\
  VigenereCracker.derive_candidates_for_keylen (lit "A") (lit "A") 3 200
  = VigenereCracker.derive_candidates_for_keylen (lit "A") (lit "AB") 3 200 /\
  VigenereCracker.derive_candidates_for_keylen (lit "AB") (lit "A") 3 200
  = Raise IndexError.
Proof. split; [|split]; by vm_compute. Qed.

(** The raw string [main] works on for one input: what the named file
    reads as when a file name is given, else the string given on the command
    line, which is not empty. *)
Definition main_input (file_name given_string : option (list N))
    (fs : VigenereCracker.files) (raw : list N) : Prop :=
  (VigenereCracker.truthy file_name = true /\
   fs (default [] file_name) = Some (Return raw))
  \/ (VigenereCracker.truthy file_name = false /\ given_string = Some raw /\ raw ≠ []).

(** C7, amended. The lengths are compared once, by [main], on the cleaned
    strings: when the two inputs [main] has loaded differ in their cleaned
    length, [main] reports the length mismatch and exits with status 2
    before any key length is tried. *)
Theorem main_rejects_length_mismatch `{UnicodeDB} (a : VigenereCracker.args)
    (fs : VigenereCracker.files) (sub_raw vig_raw : list N) :
  main_input (VigenereCracker.a_sub_file a) (VigenereCracker.a_sub_string a) fs sub_raw ->
  main_input (VigenereCracker.a_vig_file a) (VigenereCracker.a_vig_string a) fs vig_raw ->
  length (VigenereCracker.clean_alpha sub_raw) ≠ length (VigenereCracker.clean_alpha vig_raw) ->
  VigenereCracker.main a fs
  = Return (VigenereCracker.SysExit 2
      "Length mismatch after cleaning/alignment. Make sure strings are aligned and same length.").
Proof.
  intros Hsub Hvig Hlen. unfold VigenereCracker.main.
  assert (forall file_name given_string raw not_found,
            main_input file_name given_string fs raw ->
            VigenereCracker.truthy file_name || VigenereCracker.truthy given_string = true /\
            VigenereCracker.load file_name given_string not_found fs
            = Return (VigenereCracker.Text raw)) as Hload.
  { intros file_name given_string raw not_found [[Ht Hfs]|(Ht & -> & Hne)];
      unfold VigenereCracker.load; rewrite Ht.
    - split; [done|]. by rewrite Hfs.
    - split; [|done]. by destruct raw. }
  destruct (Hload _ _ _ "Substituted file not found."%string Hsub) as [-> ->].
  destruct (Hload _ _ _ "Vigenere file not found."%string Hvig) as [-> ->].
  cbn [negb]. run_bind.
  fold (VigenereCracker.clean_alpha sub_raw). fold (VigenereCracker.clean_alpha vig_raw).
  destruct (VigenereCracker.a_clean a); by rewrite bool_decide_true.
Qed.

Lemma main_rejects_length_mismatch_witness :
  VigenereCracker.main (H:=ascii_db)
    {| VigenereCracker.a_sub_file := None; VigenereCracker.a_vig_file := None;
       VigenereCracker.a_sub_string := Some (lit "A");
       VigenereCracker.a_vig_string := Some (lit "AB");
       VigenereCracker.a_min_keylen := 3; VigenereCracker.a_max_keylen := 20;
       VigenereCracker.a_max_enumerate := 200; VigenereCracker.a_clean := false |}
    (fun _ => None)
  = Return (VigenereCracker.SysExit 2
      "Length mismatch after cleaning/alignment. Make sure strings are aligned and same length.").
Proof.
  apply (main_rejects_length_mismatch (H:=ascii_db)
           {| VigenereCracker.a_sub_file := None; VigenereCracker.a_vig_file := None;
              VigenereCracker.a_sub_string := Some (lit "A");
              VigenereCracker.a_vig_string := Some (lit "AB");
              VigenereCracker.a_min_keylen := 3; VigenereCracker.a_max_keylen := 20;
              VigenereCracker.a_max_enumerate := 200; VigenereCracker.a_clean := false |}
           (fun _ => None) (lit "A") (lit "AB")).
  - right. by vm_compute.
  - right. by vm_compute.
  - by vm_compute.
Defined.

(** An input that is not given, or given empty, stops [main] before the
    lengths are compared, and so does a file that does not exist. *)
Example main_requires_both_inputs :
  let a sub_file sub_string :=
    {| VigenereCracker.a_sub_file := sub_file; VigenereCracker.a_vig_file := None;
       VigenereCracker.a_sub_string := sub_string;
       VigenereCracker.a_vig_string := Some (lit "A");
       VigenereCracker.a_min_keylen := 3; VigenereCracker.a_max_keylen := 20;
       VigenereCracker.a_max_enumerate := 200; VigenereCracker.a_clean := false |} in
  VigenereCracker.main (H:=ascii_db) (a None (Some [])) (fun _ => None)
  = Return (VigenereCracker.SysExit 2
              "Provide substituted string via --sub-string or --sub-file") /\
  VigenereCracker.main (H:=ascii_db) (a None None) (fun _ => None)
  = Return (VigenereCracker.SysExit 2
              "Provide substituted string via --sub-string or --sub-file") /\
  VigenereCracker.main (H:=ascii_db) (a (Some (lit "sub.txt")) None) (fun _ => None)
  = Return (VigenereCracker.SysExit 2 "Substituted file not found.") /\
  VigenereCracker.main (H:=ascii_db) (a (Some (lit "sub.txt")) None)
    (fun _ => Some (Return (lit "AB")))
  = Return (VigenereCracker.SysExit 2
      "Length mismatch after cleaning/alignment. Make sure strings are aligned and same length.").
Proof. repeat split; by vm_compute. Qed.

(** * Further properties of the code *)

(** ** Cleaning *)

Module CleanFacts.
Section Clean.
Context `{UnicodeDB}.

Lemma upper_char_ascii (c : N) :
  (c < 128)%N ->
  upper_char c = [if (97 <=? c)%N && (c <=? 122)%N then (c - 32)%N else c].
Proof. intros Hc. unfold upper_char. by rewrite (proj2 (N.ltb_lt _ _) Hc). Qed.

Lemma isalpha_AZ (c : N) : MLCC.is_AZ c -> isalpha c = true.
Proof.
  unfold MLCC.is_AZ, isalpha. intros [Hlo Hhi].
  rewrite (proj2 (N.ltb_lt c 128)) by lia.
  rewrite (proj2 (N.leb_le 65 c) Hlo), (proj2 (N.leb_le c 90) Hhi). done.
Qed.

Lemma upper_AZ (text : list N) : Forall MLCC.is_AZ text -> upper text = text.
Proof.
  unfold upper. induction 1 as [|c text Hc _ IH]; [done|]. simpl. rewrite IH.
  unfold MLCC.is_AZ in Hc. rewrite upper_char_ascii by lia.
  destruct (N.leb_spec 97 c); [lia | done].
Qed.

Lemma clean_AZ (text : list N) : Forall MLCC.is_AZ text -> clean text = text.
Proof.
  intros HAZ. unfold clean. rewrite (upper_AZ text HAZ).
  induction HAZ as [|c text Hc _ IH]; [done|].
  rewrite filter_cons_True by (by apply isalpha_AZ). by rewrite IH.
Qed.

Lemma clean_ascii_AZ (text : list N) :
  Forall (fun c => (c < 128)%N) text -> Forall MLCC.is_AZ (clean text).
Proof.
  intros Hascii. apply Forall_forall. intros x Hx.
  apply list_elem_of_filter in Hx as [Halpha Hx].
  apply list_elem_of_In, in_flat_map in Hx as (c & Hc & Hxc).
  rewrite Forall_forall in Hascii. apply list_elem_of_In in Hc.
  specialize (Hascii c Hc). cbv beta in Hascii.
  rewrite upper_char_ascii in Hxc by done. destruct Hxc as [<-|[]].
  unfold MLCC.is_AZ. unfold isalpha in Halpha.
  destruct (N.leb_spec 97 c), (N.leb_spec c 122); cbn [andb] in *.
  - lia.
  - rewrite (proj2 (N.ltb_lt c 128) Hascii) in Halpha.
    destruct (N.leb_spec 65 c), (N.leb_spec c 90), (N.leb_spec 97 c), (N.leb_spec c 122);
      cbn in Halpha; first [lia | done].
  - rewrite (proj2 (N.ltb_lt c 128) Hascii) in Halpha.
    destruct (N.leb_spec 65 c), (N.leb_spec c 90), (N.leb_spec 97 c), (N.leb_spec c 122);
      cbn in Halpha; first [lia | done].
  - rewrite (proj2 (N.ltb_lt c 128) Hascii) in Halpha.
    destruct (N.leb_spec 65 c), (N.leb_spec c 90), (N.leb_spec 97 c), (N.leb_spec c 122);
      cbn in Halpha; first [lia | done].
Qed.

End Clean.
End CleanFacts.

(** X1. On ASCII text, cleaning leaves upper-case letters [A]..[Z] only and
    is idempotent: cleaning a cleaned text changes nothing. *)
Theorem clean_ascii_idempotent `{UnicodeDB} (text : list N) :
  Forall (fun c => (c < 128)%N) text ->
  Forall MLCC.is_AZ (clean text) /\ clean (clean text) = clean text.
Proof.
  intros Hascii. pose proof (CleanFacts.clean_ascii_AZ text Hascii) as HAZ.
  split; [done | by apply CleanFacts.clean_AZ].
Qed.

Lemma clean_ascii_idempotent_witness :
  Forall MLCC.is_AZ (clean (H:=ascii_db) (lit "Hello, World")) /\
  clean (H:=ascii_db) (clean (H:=ascii_db) (lit "Hello, World"))
  = clean (H:=ascii_db) (lit "Hello, World").
Proof.
  apply (clean_ascii_idempotent (H:=ascii_db) (lit "Hello, World")).
  apply (bool_decide_unpack _). by vm_compute.
Defined.

(** ** The column order *)

Module SortedFacts.
Section Stable.
Context (k : nat -> Z).

(** [x] comes before [y]: by weight, and by position on equal weights. *)
Definition before (x y : nat) : Prop := (k x < k y)%Z \/ (k x = k y /\ x < y).

Lemma before_trans x y z : before x y -> before y z -> before x z.
Proof. unfold before. lia. Qed.

Lemma insert_by_sorted (x : nat) (acc : list nat) :
  StronglySorted before acc -> Forall (fun y => y < x) acc ->
  StronglySorted before (insert_by k x acc).
Proof.
  induction 1 as [|y acc Hsorted IH Hy]; intros Hlt; simpl.
  - repeat constructor.
  - apply Forall_cons in Hlt as [Hyx Hlt].
    destruct (Z.leb_spec (k y) (k x)) as [Hle|Hgt].
    + constructor; [by apply IH|].
      rewrite (insert_by_Permutation k x acc). constructor; [|done].
      unfold before. lia.
    + constructor; [by constructor|].
      constructor; [unfold before; lia|].
      eapply Forall_impl; [exact Hy|]. intros z Hz. cbv beta in Hz.
      unfold before in *. lia.
Qed.

Lemma sorted_increasing (l : list nat) :
  StronglySorted lt l -> StronglySorted before (sorted k l).
Proof.
  unfold sorted. induction l as [|x l IH] using rev_ind; intros Hl; [constructor|].
  rewrite foldl_snoc.
  apply insert_by_sorted; [by eapply IH, StronglySorted_app_1_l|].
  apply Forall_forall. intros y Hy.
  rewrite (sorted_Permutation k l) in Hy.
  apply (StronglySorted_app_1_elem_of _ _ _ _ _ Hl Hy). by left.
Qed.

End Stable.

Lemma seq_increasing (start len : nat) : StronglySorted lt (seq start len).
Proof.
  revert start. induction len as [|len IH]; intros start; simpl; [constructor|].
  constructor; [apply IH|]. apply Forall_forall. intros y Hy%elem_of_seq. lia.
Qed.

End SortedFacts.

(** X2. The column order of the transposition is the stable ascending sort
    of the column indices by their key weight: a rearrangement of
    [0 .. C-1] in which a column stands before every column of larger
    weight and before the later columns of equal weight. *)
Theorem column_order_stable_sort (transposition_key : list Z) :
  let weight i := default 0%Z (transposition_key !! i) in
  Zigzag.column_order_of transposition_key ≡ₚ seq 0 (length transposition_key) /\
  StronglySorted (fun i j => (weight i < weight j)%Z \/ (weight i = weight j /\ i < j))
                 (Zigzag.column_order_of transposition_key).
Proof.
  intros weight. split; [apply ZigzagFacts.column_order_Permutation|].
  apply (SortedFacts.sorted_increasing weight), SortedFacts.seq_increasing.
Qed.

(** ** The transposition as a rearrangement *)

Module ZigzagMore.
Import Zigzag.

Lemma encrypt_Permutation {A : Type} (key : list Z) (text : list A) :
  1 <= length key ->
  exists t, encrypt key text = Return t /\
            t_ciphertext t ≡ₚ text /\ length (t_ciphertext t) = length text.
Proof.
  intros HC. unfold encrypt.
  destruct (Nat.eqb_spec (length key) 0) as [?|_]; [lia|].
  eexists. split; [reflexivity|]. cbn [t_ciphertext].
  destruct (ceil_div_bounds (length text) (length key) ltac:(lia)) as [Hup _].
  pose proof (ZigzagFacts.read_columns_Permutation text _ _ _ Hup
                (ZigzagFacts.column_order_Permutation key)) as Hperm.
  split; [done | by apply Permutation_length].
Qed.

End ZigzagMore.

(** X3. For a key of at least one column the transposition of [encrypt]
    returns, and its ciphertext is a rearrangement of the text: no character
    is lost, added or changed. *)
Theorem transposition_rearranges {A : Type} (transposition_key : list Z) (text : list A) :
  1 <= length transposition_key ->
  exists t, Zigzag.encrypt transposition_key text = Return t /\
            Zigzag.t_ciphertext t ≡ₚ text /\
            length (Zigzag.t_ciphertext t) = length text.
Proof. apply ZigzagMore.encrypt_Permutation. Qed.

Lemma transposition_rearranges_witness :
  exists t, Zigzag.encrypt [2; 2; 1]%Z (lit "ABCDEFG") = Return t /\
            Zigzag.t_ciphertext t ≡ₚ lit "ABCDEFG" /\
            length (Zigzag.t_ciphertext t) = length (lit "ABCDEFG").
Proof.
  apply (transposition_rearranges [2; 2; 1]%Z (lit "ABCDEFG")). simpl. lia.
Defined.

(** ** The Vigenère stage on its own *)

Module VigenereStageFacts.
Import MLCC.

Lemma decrypt_char_AZ c s m : is_AZ (decrypt_char c s m).
Proof.
  unfold is_AZ, decrypt_char, chr, ord, ord_A.
  pose proof (Z.mod_pos_bound (Z.of_N c - 65 - s * m + 26) 26 ltac:(lia)). lia.
Qed.

Lemma encrypt_decrypt_char c s m :
  is_AZ c -> encrypt_char (decrypt_char c s m) s m = c.
Proof.
  unfold is_AZ, decrypt_char, encrypt_char, chr, ord, ord_A. intros Hc.
  pose proof (Z.mod_pos_bound (Z.of_N c - 65 - s * m + 26) 26 ltac:(lia)).
  rewrite Z2N.id by lia.
  replace ((Z.of_N c - 65 - s * m + 26) mod 26 + 65 - 65 + s * m)%Z
    with ((Z.of_N c - 65 - s * m + 26) mod 26 + s * m)%Z by lia.
  rewrite Zplus_mod_idemp_l.
  replace (Z.of_N c - 65 - s * m + 26 + s * m)%Z with (Z.of_N c - 65 + 1 * 26)%Z by lia.
  rewrite Z_mod_plus_full, Z.mod_small by lia. lia.
Qed.

Lemma vigenere_decrypt_AZ key text : Forall is_AZ (vigenere decrypt_char key text).
Proof.
  unfold vigenere. apply Forall_forall. intros c Hc.
  apply list_elem_of_lookup in Hc as [i Hi]. rewrite list_lookup_imap in Hi.
  destruct (text !! i); [|done]. injection Hi as <-. apply decrypt_char_AZ.
Qed.

Lemma vigenere_encrypt_decrypt key text :
  Forall is_AZ text ->
  vigenere encrypt_char key (vigenere decrypt_char key text) = text.
Proof.
  intros HAZ. apply list_eq. intros i. unfold vigenere.
  rewrite !list_lookup_imap.
  destruct (text !! i) as [c|] eqn:E; [|done].
  cbn [fmap option_fmap option_map]. f_equal.
  apply encrypt_decrypt_char. rewrite Forall_forall in HAZ.
  by eapply HAZ, list_elem_of_lookup_2.
Qed.

End VigenereStageFacts.

(** X4. For every non-empty Vigenère key, whatever its characters, the two
    Vigenère loops of [encrypt] and [decrypt] are inverse bijections of the
    strings over [A]..[Z] of each length. *)
Theorem vigenere_loops_inverse (vigenere_key text : list N) :
  1 <= length vigenere_key -> Forall MLCC.is_AZ text ->
  (exists v, MLCC.vigenere_loop MLCC.encrypt_char vigenere_key 0 0 text = Return v /\
             Forall MLCC.is_AZ v /\ length v = length text /\
             MLCC.vigenere_loop MLCC.decrypt_char vigenere_key 0 0 v = Return text) /\
  (exists u, MLCC.vigenere_loop MLCC.decrypt_char vigenere_key 0 0 text = Return u /\
             Forall MLCC.is_AZ u /\ length u = length text /\
             MLCC.vigenere_loop MLCC.encrypt_char vigenere_key 0 0 u = Return text).
Proof.
  intros HK HAZ. split.
  - exists (MLCC.vigenere MLCC.encrypt_char vigenere_key text).
    rewrite !VigenereFacts.vigenere_loop_spec by lia.
    split; [done|]. split; [apply VigenereFacts.vigenere_AZ|].
    split; [apply VigenereFacts.length_vigenere|].
    by rewrite VigenereFacts.vigenere_decrypt_encrypt.
  - exists (MLCC.vigenere MLCC.decrypt_char vigenere_key text).
    rewrite !VigenereFacts.vigenere_loop_spec by lia.
    split; [done|]. split; [apply VigenereStageFacts.vigenere_decrypt_AZ|].
    split; [apply VigenereFacts.length_vigenere|].
    by rewrite VigenereStageFacts.vigenere_encrypt_decrypt.
Qed.

Lemma vigenere_loops_inverse_witness :
  (exists v, MLCC.vigenere_loop MLCC.encrypt_char (lit "K3y-k3y") 0 0 (lit "SVOOLDLIOW")
             = Return v /\
             Forall MLCC.is_AZ v /\ length v = length (lit "SVOOLDLIOW") /\
             MLCC.vigenere_loop MLCC.decrypt_char (lit "K3y-k3y") 0 0 v
             = Return (lit "SVOOLDLIOW")) /\
  (exists u, MLCC.vigenere_loop MLCC.decrypt_char (lit "K3y-k3y") 0 0 (lit "SVOOLDLIOW")
             = Return u /\
             Forall MLCC.is_AZ u /\ length u = length (lit "SVOOLDLIOW") /\
             MLCC.vigenere_loop MLCC.encrypt_char (lit "K3y-k3y") 0 0 u
             = Return (lit "SVOOLDLIOW")).
Proof.
  apply (vigenere_loops_inverse (lit "K3y-k3y") (lit "SVOOLDLIOW")).
  - simpl. lia.
  - apply (bool_decide_unpack _). by vm_compute.
Defined.

(** ** When [encrypt] returns *)

Module EncryptFacts.
Import MLCC.
Section Encrypt.
Context `{UnicodeDB}.

(** What [__init__] has checked and built when it returns. *)
Lemma init_inversion (sk vk : list N) (tk : list Z) (self : MLCCipher) :
  init sk vk tk = Return self ->
  length sk = 26 /\ NoDup sk /\ 10 <= length vk /\ 3 <= length tk /\
  substitution_key self = upper sk /\ vigenere_key self = upper vk /\
  transposition_key self = tk /\
  dict_of ALPHABET (upper sk) = Return (substitution_map self) /\
  dict_of (upper sk) ALPHABET = Return (reverse_substitution_map self).
Proof.
  intros Hinit.
  destruct (MLCCFacts.invalid_keys_dec sk vk tk) as [Hinv|(Hlen & Hnd & Hvk & Htk)].
  - destruct (MLCCFacts.init_rejects _ _ _ Hinv) as [msg Hmsg]. congruence.
  - destruct (MLCCFacts.init_accepts _ _ _ Hlen Hnd Hvk Htk) as (self' & Hself & Hrest).
    assert (self' = self) as -> by congruence. tauto.
Qed.

(** The substitution map has the 26 letters as its keys, whatever the key. *)
Lemma substitution_map_dom (vals : list N) (d : gmap N N) (c : N) :
  26 <= length vals -> dict_of ALPHABET vals = Return d ->
  is_Some (d !! c) <-> is_AZ c.
Proof.
  intros Hlen Hd.
  destruct (MLCCFacts.dict_of_spec ALPHABET vals) as (d' & Hd' & Hspec);
    [by rewrite MLCCFacts.length_ALPHABET | done |].
  assert (d' = d) as -> by congruence. split.
  - intros [v Hv]. apply Hspec in Hv as (i & _ & Hi & _).
    apply MLCCFacts.elem_of_ALPHABET. by eapply list_elem_of_lookup_2.
  - intros Hc. pose proof (MLCCFacts.is_AZ_lookup c Hc) as Hi.
    pose proof (lookup_lt_Some _ _ _ Hi) as Hlt. rewrite MLCCFacts.length_ALPHABET in Hlt.
    destruct (lookup_lt_is_Some_2 vals (N.to_nat (c - 65))) as [v Hv]; [lia|].
    exists v. apply Hspec. exists (N.to_nat (c - 65)). repeat split; [done..|].
    intros j Hj Hcj.
    pose proof (NoDup_lookup _ _ _ _ MLCCFacts.NoDup_ALPHABET Hi Hcj). lia.
Qed.

Lemma mapM_cons {A B} (f : A -> result B) (x : A) (l : list A) :
  mapM f (x :: l) = (y ← f x ; k ← mapM f l ; Return (y :: k)).
Proof. reflexivity. Qed.

(** A comprehension of dict lookups returns when every key is present and
    raises [KeyError] otherwise. *)
Lemma mapM_dict_get (d : gmap N N) (l : list N) :
  (Forall (fun c => is_Some (d !! c)) l /\
   exists k, mapM (dict_get d) l = Return k /\ length k = length l)
  \/ (~ Forall (fun c => is_Some (d !! c)) l /\ mapM (dict_get d) l = Raise KeyError).
Proof.
  induction l as [|c l IH].
  - left. split; [constructor|]. by exists [].
  - rewrite mapM_cons. destruct (d !! c) as [v|] eqn:Hc.
    + rewrite (MLCCFacts.dict_get_Some d c v Hc). run_bind.
      destruct IH as [(Hall & k & Hk & Hlen)|(Hnot & Hraise)].
      * left. split; [constructor; [by rewrite Hc | done]|].
        exists (v :: k). rewrite Hk. run_bind. split; [done | simpl; lia].
      * right. split; [by intros [_ ?]%Forall_cons|]. by rewrite Hraise.
    + right. split.
      * intros [[v Hv] _]%Forall_cons. congruence.
      * unfold dict_get. by rewrite Hc.
Qed.

Lemma encrypt_cases (sk vk : list N) (tk : list Z) (self : MLCCipher) (plaintext : list N) :
  init sk vk tk = Return self ->
  (Forall is_AZ (clean plaintext) ->
   exists e, encrypt self plaintext = Return e /\
             Forall is_AZ (ciphertext e) /\
             ciphertext e ≡ₚ vigenere_result (steps e) /\
             length (ciphertext e) = length (clean plaintext)) /\
  (~ Forall is_AZ (clean plaintext) -> encrypt self plaintext = Raise KeyError).
Proof.
  intros Hinit.
  destruct (init_inversion _ _ _ _ Hinit)
    as (Hlen & _ & Hvk & Htk & _ & Hvig & Htrans & Hsmap & _).
  pose proof (MLCCFacts.length_upper_ge sk) as Hup.
  assert (forall c, is_Some (substitution_map self !! c) <-> is_AZ c) as Hdom.
  { intros c. apply (substitution_map_dom (upper sk)); [lia | done]. }
  assert (Forall (fun c => is_Some (substitution_map self !! c)) (clean plaintext)
          <-> Forall is_AZ (clean plaintext)) as Hall.
  { rewrite !Forall_forall. split; intros Hf c Hc; apply Hdom; by apply Hf. }
  unfold encrypt. fold (clean plaintext).
  destruct (mapM_dict_get (substitution_map self) (clean plaintext))
    as [(Hok & sub & Hsub & Hsublen)|(Hnot & Hraise)].
  - split; [|intros Hbad; by apply Hall in Hok].
    intros _. rewrite Hsub. run_bind.
    assert (0 < length (vigenere_key self)) as HK.
    { rewrite Hvig. pose proof (MLCCFacts.length_upper_ge vk). lia. }
    rewrite VigenereFacts.vigenere_loop_spec by done. run_bind.
    destruct (ZigzagMore.encrypt_Permutation (transposition_key self)
                (vigenere encrypt_char (vigenere_key self) sub))
      as (t & Henc & Hperm & Hlent); [rewrite Htrans; lia|].
    rewrite Henc. run_bind. eexists. split; [reflexivity|]. cbn.
    split; [|split; [done|]].
    + rewrite Hperm. apply VigenereFacts.vigenere_AZ.
    + by rewrite Hlent, VigenereFacts.length_vigenere.
  - split; [intros Hgood; by apply Hall in Hgood|].
    intros _. by rewrite Hraise.
Qed.

End Encrypt.
End EncryptFacts.

(** X5. Once the cipher is constructed, [encrypt] returns exactly for the
    plaintexts whose cleaned form is over [A]..[Z]; its ciphertext then
    consists of letters [A]..[Z], rearranges the Vigenère result and is as
    long as the cleaned plaintext.  For any other plaintext (a letter
    outside ASCII survives the cleaning) [encrypt] raises [KeyError]. *)
Theorem encrypt_returns_iff_letters_ascii `{UnicodeDB} (substitution_key vigenere_key : list N)
    (transposition_key : list Z) (self : MLCC.MLCCipher) (plaintext : list N) :
  MLCC.init substitution_key vigenere_key transposition_key = Return self ->
  (Forall MLCC.is_AZ (clean plaintext) ->
   exists e, MLCC.encrypt self plaintext = Return e /\
             Forall MLCC.is_AZ (MLCC.ciphertext e) /\
             MLCC.ciphertext e ≡ₚ MLCC.vigenere_result (MLCC.steps e) /\
             length (MLCC.ciphertext e) = length (clean plaintext)) /\
  (~ Forall MLCC.is_AZ (clean plaintext) -> MLCC.encrypt self plaintext = Raise KeyError).
Proof. apply EncryptFacts.encrypt_cases. Qed.

(** The cipher object of the specification's scenario. *)
Definition scenario_cipher : MLCC.MLCCipher :=
  Eval vm_compute in
    match MLCC.init (H:=ascii_db) (lit "ZYXWVUTSRQPONMLKJIHGFEDCBA") (lit "KEYKEYKEYK")
                    [3; 1; 2]%Z with
    | Return self => self
    | Raise _ => {| MLCC.substitution_key := []; MLCC.vigenere_key := [];
                    MLCC.transposition_key := []; MLCC.substitution_map := ∅;
                    MLCC.reverse_substitution_map := ∅ |}
    end.

Lemma encrypt_returns_iff_letters_ascii_witness :
  (Forall MLCC.is_AZ (clean (H:=ascii_db) (lit "Hello, World")) ->
   exists e, MLCC.encrypt (H:=ascii_db) scenario_cipher (lit "Hello, World") = Return e /\
             Forall MLCC.is_AZ (MLCC.ciphertext e) /\
             MLCC.ciphertext e ≡ₚ MLCC.vigenere_result (MLCC.steps e) /\
             length (MLCC.ciphertext e) = length (clean (H:=ascii_db) (lit "Hello, World"))) /\
  (~ Forall MLCC.is_AZ (clean (H:=ascii_db) (lit "Hello, World")) ->
   MLCC.encrypt (H:=ascii_db) scenario_cipher (lit "Hello, World") = Raise KeyError).
Proof.
  apply (encrypt_returns_iff_letters_ascii (H:=ascii_db) (lit "ZYXWVUTSRQPONMLKJIHGFEDCBA")
           (lit "KEYKEYKEYK") [3; 1; 2]%Z scenario_cipher (lit "Hello, World")).
  by vm_compute.
Defined.

(** ** The congruence of the key recovery *)

Module ShiftFacts.
Import MLCC VigenereCracker.

Lemma ALPHABET_MAP_dom : dom ALPHABET_MAP = list_to_set ALPHABET.
Proof. by vm_compute. Qed.

Lemma ALPHABET_MAP_None (c : N) : ~ is_AZ c -> ALPHABET_MAP !! c = None.
Proof.
  intros Hc. apply not_elem_of_dom. rewrite ALPHABET_MAP_dom, elem_of_list_to_set.
  by rewrite MLCCFacts.elem_of_ALPHABET.
Qed.

Lemma elem_of_possible_shifts (sub_ch vig_ch : N) (modifier s : Z) :
  s ∈ possible_shifts_for_pair sub_ch vig_ch modifier
  <-> is_AZ sub_ch /\ is_AZ vig_ch /\ (0 <= s < 26)%Z /\
      ((ord sub_ch - ord_A + s * modifier) mod 26 = ord vig_ch - ord_A)%Z.
Proof.
  unfold possible_shifts_for_pair.
  destruct (decide (is_AZ sub_ch)) as [Hs|Hs];
    [|rewrite (ALPHABET_MAP_None _ Hs), elem_of_nil; tauto].
  rewrite (VigenereCrackerFacts.ALPHABET_MAP_lookup _ Hs).
  destruct (decide (is_AZ vig_ch)) as [Hv|Hv];
    [|rewrite (ALPHABET_MAP_None _ Hv), elem_of_nil; tauto].
  rewrite (VigenereCrackerFacts.ALPHABET_MAP_lookup _ Hv).
  rewrite list_elem_of_filter, VigenereCrackerFacts.elem_of_range. simpl Z.of_nat. tauto.
Qed.

(** All pairs of letters and all modifiers, decided by enumeration. *)
Definition solutions_ok (sub_ch vig_ch : N) (modifier : Z) : bool :=
  let poss := possible_shifts_for_pair sub_ch vig_ch modifier in
  if bool_decide (modifier = 1 \/ modifier = 3 \/ modifier = 5)%Z
  then match poss with [_] => true | _ => false end
  else match poss with
       | [] => true
       | [s; s'] => bool_decide (s' = s + 13)%Z
       | _ => false
       end.

Lemma solutions_ok_all :
  forallb (fun sub_ch =>
    forallb (fun vig_ch => forallb (solutions_ok sub_ch vig_ch) [1; 2; 3; 4; 5]%Z) ALPHABET)
    ALPHABET = true.
Proof. by vm_compute. Qed.

Lemma solutions_ok_letters (sub_ch vig_ch : N) (modifier : Z) :
  is_AZ sub_ch -> is_AZ vig_ch -> (1 <= modifier <= 5)%Z ->
  solutions_ok sub_ch vig_ch modifier = true.
Proof.
  intros Hs%MLCCFacts.elem_of_ALPHABET Hv%MLCCFacts.elem_of_ALPHABET Hm.
  pose proof solutions_ok_all as Hall.
  rewrite forallb_forall in Hall. apply list_elem_of_In in Hs. specialize (Hall _ Hs).
  rewrite forallb_forall in Hall. apply list_elem_of_In in Hv. specialize (Hall _ Hv).
  rewrite forallb_forall in Hall. apply Hall. simpl. lia.
Qed.

Lemma modifier_for_pos_bounds (i : Z) : (1 <= modifier_for_pos i <= 5)%Z.
Proof.
  unfold modifier_for_pos. pose proof (Z.mod_pos_bound i 5 ltac:(lia)). lia.
Qed.

End ShiftFacts.

(** X6. [possible_shifts_for_pair] returns exactly the shifts [0..25] that
    solve the congruence of two letters [A]..[Z], and none when a character
    is no such letter.  For the modifiers 1, 3 and 5 the solution is unique;
    for 2 and 4 there is none, or there are two that differ by 13: a pair at
    such a position never pins the key letter down. *)
Theorem possible_shifts_solutions (sub_ch vig_ch : N) (i : Z) :
  let modifier := VigenereCracker.modifier_for_pos i in
  let poss := VigenereCracker.possible_shifts_for_pair sub_ch vig_ch modifier in
  (forall s, s ∈ poss <->
     MLCC.is_AZ sub_ch /\ MLCC.is_AZ vig_ch /\ (0 <= s < 26)%Z /\
     ((ord sub_ch - MLCC.ord_A + s * modifier) mod 26 = ord vig_ch - MLCC.ord_A)%Z) /\
  (~ (MLCC.is_AZ sub_ch /\ MLCC.is_AZ vig_ch) -> poss = []) /\
  (MLCC.is_AZ sub_ch /\ MLCC.is_AZ vig_ch ->
   ((modifier = 1 \/ modifier = 3 \/ modifier = 5)%Z -> exists s, poss = [s]) /\
   ((modifier = 2 \/ modifier = 4)%Z -> poss = [] \/ exists s, poss = [s; (s + 13)%Z])).
Proof.
  intros modifier poss. split; [|split].
  - intros s. apply ShiftFacts.elem_of_possible_shifts.
  - intros Hnot. destruct poss as [|s rest] eqn:E; [done|]. exfalso. apply Hnot.
    assert (s ∈ poss) as Hs by (rewrite E; by left).
    apply ShiftFacts.elem_of_possible_shifts in Hs. tauto.
  - intros [Hs Hv].
    pose proof (ShiftFacts.solutions_ok_letters sub_ch vig_ch modifier Hs Hv
                  (ShiftFacts.modifier_for_pos_bounds i)) as Hok.
    unfold ShiftFacts.solutions_ok in Hok. fold poss in Hok. split.
    + intros Hm. rewrite bool_decide_true in Hok by done.
      destruct poss as [|s [|? ?]]; try done. by exists s.
    + intros Hm. rewrite bool_decide_false in Hok by lia.
      destruct poss as [|s [|s' [|? ?]]]; try done; [by left|].
      right. exists s. by apply bool_decide_eq_true in Hok as ->.
Qed.

(** ** Completeness of the key recovery *)

Module CompletenessFacts.
Import MLCC VigenereCracker.

Lemma getitem_nonneg {A} (l : list A) (p : Z) (x : A) :
  (0 <= p)%Z -> getitem l p = Return x -> l !! Z.to_nat p = Some x.
Proof.
  intros Hp. unfold getitem.
  destruct (Z.ltb_spec p 0) as [?|_]; [lia|].
  destruct (Z.ltb_spec p 0) as [?|_]; [lia|].
  destruct (l !! Z.to_nat p); [by intros [= ->] | done].
Qed.

Lemma setitem_nonneg {A} (l l' : list A) (p : Z) (x : A) :
  (0 <= p)%Z -> setitem l p x = Return l' -> l' = <[Z.to_nat p := x]> l.
Proof.
  intros Hp. unfold setitem.
  destruct (Z.ltb_spec p 0) as [?|_]; [lia|].
  destruct (_ || _); [done | by intros [= <-]].
Qed.

Lemma pos_to_key_index_pos (i K p : Z) :
  (0 < K)%Z -> pos_to_key_index i K = Return p ->
  p = ((i + i / 5) mod K)%Z /\ (0 <= p < K)%Z.
Proof.
  intros HK. unfold pos_to_key_index.
  destruct (Z.eqb_spec K 0) as [?|_]; [lia|]. intros [= <-].
  split; [done | by apply Z.mod_pos_bound].
Qed.

(** What a position that the loop has passed leaves in its candidate set. *)
Definition settled (sub vig : list N) (K : Z) (cands : list (gset Z)) (i : nat) : Prop :=
  exists sub_ch vig_ch c,
    sub !! i = Some sub_ch /\ vig !! i = Some vig_ch /\
    cands !! Z.to_nat ((Z.of_nat i + Z.of_nat i / 5) mod K) = Some c /\
    forall s, s ∈ c -> s ∈ possible_shifts_for_pair sub_ch vig_ch (modifier_for_pos (Z.of_nat i)).

Lemma candidates_loop_complete sub vig (K : Z) positions (cands cands' : list (gset Z)) :
  (0 < K)%Z ->
  candidates_loop sub vig K positions cands = Return (Some cands') ->
  length cands' = length cands /\
  (forall j c', cands' !! j = Some c' -> exists c, cands !! j = Some c /\ c' ⊆ c) /\
  Forall (settled sub vig K cands') positions.
Proof.
  intros HK. revert cands. induction positions as [|i rest IH]; intros cands Hloop.
  - injection Hloop as <-. split; [reflexivity|]. split; [|constructor].
    intros j c' Hj. exists c'. split; [exact Hj | reflexivity].
  - cbn [candidates_loop] in Hloop.
    destruct (pos_to_key_index _ _) as [|p] eqn:Hp; [discriminate|]. run_bind in Hloop.
    apply pos_to_key_index_pos in Hp as [Hp Hpb]; [|exact HK].
    destruct (getitem sub _) as [|sub_ch] eqn:Hsub; [discriminate|]. run_bind in Hloop.
    destruct (getitem vig _) as [|vig_ch] eqn:Hvig; [discriminate|]. run_bind in Hloop.
    case_bool_decide; [discriminate|].
    destruct (getitem cands p) as [|c0] eqn:Hc0; [discriminate|]. run_bind in Hloop.
    remember (possible_shifts_for_pair sub_ch vig_ch (modifier_for_pos (Z.of_nat i)))
      as poss eqn:Hposs.
    remember (c0 ∩ list_to_set poss) as c1 eqn:Hc1.
    destruct (setitem cands p c1) as [|cands2] eqn:Hset; [discriminate|]. run_bind in Hloop.
    destruct (size c1 =? 0); [discriminate|].
    apply getitem_nonneg in Hsub; [|lia]. rewrite Nat2Z.id in Hsub.
    apply getitem_nonneg in Hvig; [|lia]. rewrite Nat2Z.id in Hvig.
    apply getitem_nonneg in Hc0; [|lia].
    apply setitem_nonneg in Hset; [|lia]. subst cands2.
    pose proof (lookup_lt_Some _ _ _ Hc0) as Hlt.
    apply IH in Hloop as (Hlen & Hmono & Hrest).
    rewrite length_insert in Hlen.
    assert (forall s, s ∈ c1 -> s ∈ c0 /\ s ∈ poss) as Hc1'.
    { intros s Hs. rewrite Hc1 in Hs. apply elem_of_intersection in Hs as [Hs0 Hs1].
      split; [exact Hs0 | by apply elem_of_list_to_set in Hs1]. }
    clear Hc1.
    split; [exact Hlen|]. split.
    + intros j c' Hj. destruct (Hmono j c' Hj) as (c & Hc & Hsubset).
      destruct (decide (j = Z.to_nat p)) as [->|Hne].
      * rewrite list_lookup_insert_eq in Hc by exact Hlt. injection Hc as <-.
        exists c0. split; [exact Hc0|]. intros s Hs. apply Hsubset in Hs.
        by apply Hc1' in Hs as [? _].
      * rewrite list_lookup_insert_ne in Hc by (intros E; by apply Hne). by exists c.
    + constructor; [|exact Hrest].
      destruct (lookup_lt_is_Some_2 cands' (Z.to_nat p)) as [c' Hc']; [lia|].
      destruct (Hmono _ _ Hc') as (c & Hc & Hsubset).
      rewrite list_lookup_insert_eq in Hc by exact Hlt. injection Hc as <-.
      exists sub_ch, vig_ch, c'. rewrite <- Hp, <- Hposs.
      split; [exact Hsub|]. split; [exact Hvig|]. split; [exact Hc'|].
      intros s Hs. apply Hsubset in Hs. by apply Hc1' in Hs as [_ ?].
Qed.

Lemma letter_of_shift (s : Z) : (0 <= s < 26)%Z -> (ord (letter_of s) - ord_A)%Z = s.
Proof. unfold letter_of, chr, ord, ord_A. lia. Qed.

(** A key drawn from the candidates encrypts as the true key did. *)
Lemma candidates_reproduce (sub vig : list N) (K : nat) (cands : list (gset Z))
    (combo : list Z) :
  0 < K -> length vig = length sub -> length cands = K ->
  Forall (settled sub vig (Z.of_nat K) cands) (seq 0 (length sub)) ->
  Forall2 (fun s c => s ∈ c) combo cands ->
  vigenere encrypt_char (map letter_of combo) sub = vig.
Proof.
  intros HK Hlen HlenK Hsettled Hcombo.
  pose proof (Forall2_length _ _ _ Hcombo) as Hlc.
  apply list_eq_same_length with (length sub);
    [exact Hlen | by rewrite VigenereFacts.length_vigenere |].
  intros i x y Hi Hx Hy.
  rewrite Forall_forall in Hsettled.
  destruct (Hsettled i) as (sub_ch & vig_ch & c & Hsub & Hvig & Hc & Hposs);
    [apply elem_of_seq; lia|].
  unfold vigenere in Hx. rewrite list_lookup_imap, Hsub in Hx.
  cbn [fmap option_fmap option_map] in Hx. injection Hx as <-.
  rewrite Hvig in Hy. injection Hy as <-.
  pose proof (VigenereFacts.effective_index_closed_form K i HK) as Hidx.
  unfold pos_to_key_index in Hidx.
  destruct (Z.eqb_spec (Z.of_nat K) 0) as [?|_]; [lia|]. injection Hidx as Hidx.
  rewrite Hidx, Nat2Z.id in Hc.
  destruct (Forall2_lookup_r _ _ _ _ _ Hcombo Hc) as (s & Hs & Hin).
  apply Hposs, ShiftFacts.elem_of_possible_shifts in Hin as (HsubAZ & HvigAZ & Hrange & Hcong).
  unfold shift_at. rewrite length_map, Hlc, HlenK, list_lookup_fmap, Hs.
  cbn [fmap option_fmap option_map]. rewrite (letter_of_shift s Hrange).
  rewrite <- VigenereCrackerFacts.modifier_for_pos_nat.
  unfold encrypt_char. rewrite Hcong. unfold chr, ord, ord_A. lia.
Qed.

End CompletenessFacts.

(** X7. Completeness of the recovery: for a trial key length of at least 1
    and two strings of equal length, every key drawn from the per-position
    candidates of a result (so every enumerated key) is consistent with the
    pair: the pipeline's Vigenère loop under that key turns [substituted]
    into [vigenere_result]. *)
Theorem candidate_keys_reproduce (substituted vigenere_result : list N)
    (keylen max_combinations : Z) (res : VigenereCracker.candidates) (combo : list Z) :
  (1 <= keylen)%Z -> length vigenere_result = length substituted ->
  VigenereCracker.derive_candidates_for_keylen substituted vigenere_result keylen
    max_combinations = Return (Some res) ->
  Forall2 (fun s l => s ∈ l) combo (VigenereCracker.per_position_candidates res) ->
  MLCC.vigenere_loop MLCC.encrypt_char (map VigenereCracker.letter_of combo) 0 0 substituted
  = Return vigenere_result.
Proof.
  intros HK Hlen Hres Hcombo.
  destruct (VigenereCrackerFacts.derive_inversion _ _ _ _ _ Hres) as (cands & Hloop & ->).
  cbn [VigenereCracker.per_position_candidates VigenereCrackerFacts.result_of] in Hcombo.
  apply CompletenessFacts.candidates_loop_complete in Hloop as (Hlc & _ & Hsettled); [|lia].
  rewrite length_replicate in Hlc.
  assert (Forall2 (fun s c => s ∈ c) combo cands) as Hcombo'.
  { pose proof (proj1 (Forall2_fmap_r
                         (fun c : gset Z => sorted (fun s => s) (elements c))
                         (fun (s : Z) (l : list Z) => s ∈ l) combo cands)
                  Hcombo) as Hcombo2.
    eapply Forall2_impl; [exact Hcombo2|].
    intros s c Hs. by apply VigenereCrackerFacts.elem_of_sorted_elements in Hs. }
  pose proof (Forall2_length _ _ _ Hcombo') as Hlcombo.
  rewrite VigenereFacts.vigenere_loop_spec by (rewrite length_map; lia).
  f_equal. apply (CompletenessFacts.candidates_reproduce _ _ (Z.to_nat keylen) cands);
    [lia | done | done | by rewrite Z2Nat.id by lia | done].
Qed.

Lemma candidate_keys_reproduce_witness :
  MLCC.vigenere_loop MLCC.encrypt_char (map VigenereCracker.letter_of [0; 13]%Z) 0 0
    (lit "AAAAAA")
  = Return (lit "AAAAAA").
Proof.
  apply (candidate_keys_reproduce (lit "AAAAAA") (lit "AAAAAA") 2 200 two_candidate_keys
           [0; 13]%Z).
  - lia.
  - reflexivity.
  - by vm_compute.
  - repeat constructor.
Defined.

(** ** The transposition read backwards *)

Module ZigzagInverseFacts.
Import Zigzag ZigzagFacts.
Section Grid.
Context {A : Type}.

Lemma omap_all_None {B D} (f : B -> option D) (l : list B) :
  Forall (fun x => f x = None) l -> omap f l = [].
Proof.
  induction 1 as [|x l Hx _ IH]; [done|]. csimpl. by rewrite Hx.
Qed.

Lemma omap_all_Some_length {B D} (f : B -> option D) (l : list B) :
  Forall (fun x => is_Some (f x)) l -> length (omap f l) = length l.
Proof.
  induction 1 as [|x l [y Hx] _ IH]; [done|]. csimpl. rewrite Hx. simpl. by rewrite IH.
Qed.

Lemma omap_eq_lookup {B D} (f : B -> option D) (l : list B) (t : list D) :
  length l = length t ->
  (forall k p, l !! k = Some p -> f p = t !! k) ->
  omap f l = t.
Proof.
  revert t. induction l as [|p l IH]; intros [|x t] Hlen Hk; try done.
  csimpl. rewrite (Hk 0 p eq_refl). simpl. f_equal.
  apply IH; [simpl in Hlen; lia|]. intros k q Hq. apply (Hk (S k) q Hq).
Qed.

(** The cells of the first [L] steps of the zigzag. *)
Lemma elem_of_take_zigzag_path R C L r c :
  L <= R * C ->
  (r, c) ∈ take L (zigzag_path R C) <-> r < R /\ c < C /\ r * C + zz C r c < L.
Proof.
  intros HL. rewrite elem_of_take. split.
  - intros (k & Hk & Hlt).
    assert ((r, c) ∈ zigzag_path R C) as [Hr Hc]%elem_of_zigzag_path
      by (by eapply list_elem_of_lookup_2).
    split; [done|]. split; [done|].
    pose proof (zigzag_path_lookup R C r (zz C r c) Hr (zz_lt C r c Hc)) as Hk'.
    rewrite zz_involutive in Hk' by done.
    pose proof (NoDup_lookup _ _ _ _ (NoDup_zigzag_path R C) Hk Hk'). lia.
  - intros (Hr & Hc & Hlt). exists (r * C + zz C r c). split; [|done].
    rewrite zigzag_path_lookup by auto using zz_lt. by rewrite zz_involutive.
Qed.

Lemma zigzag_roundtrip_rev (key : list Z) (ct : list A) :
  0 < length key ->
  exists text, decrypt key ct = Return text /\ length text = length ct /\
    exists t, encrypt key text = Return t /\ t_ciphertext t = ct.
Proof.
  intros HC. unfold decrypt.
  destruct (Nat.eqb_spec (length key) 0) as [?|_]; [lia|].
  set (C := length key) in *. set (order := column_order_of key).
  set (L := length ct). set (R := ceil_div L C).
  destruct (ceil_div_bounds L C HC) as [Hup _]. fold R in Hup.
  assert (order ≡ₚ seq 0 C) as Hperm by apply column_order_Permutation.
  assert (NoDup order) as Hnd by (rewrite Hperm; apply NoDup_seq).
  assert (forall c, c ∈ order <-> c < C) as Hmem.
  { intros c. rewrite Hperm, elem_of_seq. lia. }
  assert (Forall (fun c => c < C) order) as Hin.
  { apply Forall_forall. intros c. apply Hmem. }
  set (short := short_columns_of R C (R * C - L)).
  rewrite fill_columns_path by done. run_bind.
  set (decpath := column_path (col_length R short) order).
  destruct (fill_path_spec R C ct decpath) as (_ & _ & Hon & Hoff).
  { by apply NoDup_column_path. }
  { apply Forall_column_path; [done | apply col_length_le]. }
  set (gd := (fill_path ct decpath (empty_grid R C, 0)).1) in *.
  set (F := fun rc : nat * nat => cell gd rc.1 rc.2).
  assert (forall r c, (r, c) ∈ decpath <-> r < R /\ c < C /\ r * C + zz C r c < L) as Hdec.
  { intros r c. unfold decpath. rewrite elem_of_column_path, Hmem.
    pose proof (col_length_le R short c). split.
    - intros [Hc Hr]. assert (r < R) as HrR by lia. split; [done|]. split; [done|].
      by apply (filled_iff_col_length ct R C r c).
    - intros (Hr & Hc & Hlt). split; [done|].
      by apply (filled_iff_col_length ct R C r c). }
  assert (NoDup (take L (zigzag_path R C))) as Hndz.
  { eapply sublist_NoDup; [apply NoDup_zigzag_path | apply sublist_take]. }
  assert (length decpath = L) as Hlen.
  { rewrite <- (length_take_le (zigzag_path R C) L) by (rewrite length_zigzag_path; lia).
    apply Permutation_length, NoDup_Permutation; [by apply NoDup_column_path | done |].
    intros [r c]. by rewrite Hdec, elem_of_take_zigzag_path. }
  assert (forall rc, rc ∈ decpath -> is_Some (F rc)) as Hsome.
  { intros rc [k Hk]%list_elem_of_lookup. unfold F. rewrite (Hon k rc Hk).
    apply lookup_lt_is_Some. apply lookup_lt_Some in Hk. fold L. lia. }
  set (text := read_zigzag gd R C).
  assert (text = omap F (take L (zigzag_path R C))) as Htext.
  { unfold text. rewrite read_zigzag_path, read_path_omap. simpl.
    rewrite <- (take_drop L (zigzag_path R C)) at 1. rewrite omap_app.
    rewrite (omap_all_None _ (drop L _)); [by rewrite app_nil_r|].
    apply Forall_forall. intros [r c] Hel. apply Hoff. rewrite Hdec.
    intros (Hr & Hc & Hlt).
    pose proof (NoDup_zigzag_path R C) as Hz.
    rewrite <- (take_drop L (zigzag_path R C)) in Hz.
    apply NoDup_app in Hz as (_ & Hz & _). apply (Hz (r, c)); [|done].
    by apply elem_of_take_zigzag_path. }
  assert (Forall (fun rc => is_Some (F rc)) (take L (zigzag_path R C))) as Hsomez.
  { apply Forall_forall. intros [r c] Hel. apply Hsome, Hdec.
    by apply elem_of_take_zigzag_path in Hel. }
  assert (length text = L) as Hlt.
  { rewrite Htext, omap_all_Some_length by done.
    apply length_take_le. rewrite length_zigzag_path. lia. }
  exists text. split; [done|]. split; [done|].
  unfold encrypt. destruct (Nat.eqb_spec (length key) 0) as [?|_]; [lia|].
  eexists. split; [reflexivity|]. cbn [t_ciphertext]. fold C order. rewrite Hlt. fold R.
  destruct (fill_zigzag_spec text R C) as (_ & Hon2 & _).
  rewrite read_columns_path, read_path_omap. simpl.
  transitivity (omap F (column_path (fun _ => R) order)).
  { apply omap_ext_elem. intros [r c] [Hc%Hmem Hr]%elem_of_column_path. simpl.
    rewrite <- (zz_involutive C r c) at 1 by done. rewrite Hon2 by auto using zz_lt.
    destruct (decide (r * C + zz C r c < L)) as [Hk|Hk].
    - rewrite Htext. apply (omap_lookup_total F _ Hsomez).
      rewrite lookup_take_lt by done.
      rewrite zigzag_path_lookup by auto using zz_lt. by rewrite zz_involutive.
    - unfold F. simpl. rewrite Hoff by (rewrite Hdec; lia).
      apply lookup_ge_None. lia. }
  transitivity (omap F decpath).
  { apply omap_flat_map_ext. intros c Hc%Hmem.
    rewrite !omap_map. apply omap_seq_prefix; [apply col_length_le|].
    intros r Hr. unfold F. simpl. split.
    - intros Hs. destruct (decide ((r, c) ∈ decpath)) as [Hel|Hnel].
      + by apply elem_of_column_path in Hel as [_ ?].
      + rewrite Hoff in Hs by done. by destruct Hs.
    - intros Hr'. apply (Hsome (r, c)), elem_of_column_path. by rewrite Hmem. }
  apply omap_eq_lookup; [done|]. intros k [r c] Hk. apply (Hon k _ Hk).
Qed.

End Grid.
End ZigzagInverseFacts.

(** X8. The transposition read backwards: for a key of at least one column
    and every ciphertext, the transposition of [decrypt] returns a text of
    the same length, and the transposition of [encrypt] turns that text back
    into the ciphertext.  With the round trip of C2 the two are inverse
    bijections of the strings of each length. *)
Theorem zigzag_encrypt_inverts_decrypt {A : Type} (transposition_key : list Z)
    (ciphertext : list A) :
  1 <= length transposition_key ->
  exists text, Zigzag.decrypt transposition_key ciphertext = Return text /\
    length text = length ciphertext /\
    exists t, Zigzag.encrypt transposition_key text = Return t /\
              Zigzag.t_ciphertext t = ciphertext.
Proof. apply ZigzagInverseFacts.zigzag_roundtrip_rev. Qed.

Lemma zigzag_encrypt_inverts_decrypt_witness :
  exists text, Zigzag.decrypt [3; 1; 2]%Z (lit "DFCICCUCNT") = Return text /\
    length text = length (lit "DFCICCUCNT") /\
    exists t, Zigzag.encrypt [3; 1; 2]%Z text = Return t /\
              Zigzag.t_ciphertext t = lit "DFCICCUCNT".
Proof.
  apply (zigzag_encrypt_inverts_decrypt [3; 1; 2]%Z (lit "DFCICCUCNT")). simpl. lia.
Defined.

(** ** [decrypt] on every ciphertext *)

Module DecryptFacts.
Import MLCC.
Section Decrypt.
Context `{UnicodeDB}.

Lemma substitution_bijection_rev (key : list N) smap rmap :
  key ≡ₚ ALPHABET ->
  dict_of ALPHABET key = Return smap -> dict_of key ALPHABET = Return rmap ->
  forall s, is_AZ s ->
    exists c, rmap !! s = Some c /\ is_AZ c /\ smap !! c = Some s.
Proof.
  intros Hperm Hs Hr s Hsaz.
  pose proof (Permutation_length Hperm) as Hlen.
  rewrite MLCCFacts.length_ALPHABET in Hlen.
  assert (NoDup key) as Hnd by (rewrite Hperm; apply MLCCFacts.NoDup_ALPHABET).
  destruct (MLCCFacts.dict_of_spec ALPHABET key) as (smap' & Hs' & Hsmap);
    [rewrite MLCCFacts.length_ALPHABET; lia | lia |].
  destruct (MLCCFacts.dict_of_spec key ALPHABET) as (rmap' & Hr' & Hrmap);
    [lia | rewrite MLCCFacts.length_ALPHABET; lia |].
  assert (smap' = smap) as -> by congruence. assert (rmap' = rmap) as -> by congruence.
  assert (s ∈ key) as [i Hi]%list_elem_of_lookup
    by (rewrite Hperm; by apply MLCCFacts.elem_of_ALPHABET).
  pose proof (lookup_lt_Some _ _ _ Hi) as Hlt.
  destruct (lookup_lt_is_Some_2 ALPHABET i) as [c Hc];
    [rewrite MLCCFacts.length_ALPHABET; lia|].
  exists c. split; [|split].
  - apply Hrmap. exists i. repeat split; [lia | done..|].
    intros j Hj Hsj. pose proof (NoDup_lookup _ _ _ _ Hnd Hi Hsj). lia.
  - apply MLCCFacts.elem_of_ALPHABET. by eapply list_elem_of_lookup_2.
  - apply Hsmap. exists i. repeat split; [lia | done..|].
    intros j Hj Hcj. pose proof (NoDup_lookup _ _ _ _ MLCCFacts.NoDup_ALPHABET Hc Hcj). lia.
Qed.

Lemma decrypt_then_encrypt (sk vk : list N) (tk : list Z) (self : MLCCipher) (ct : list N) :
  init sk vk tk = Return self -> upper sk ≡ₚ ALPHABET ->
  exists p, decrypt self ct = Return p /\ Forall is_AZ p /\ length p = length ct /\
    (Forall is_AZ ct -> exists e, encrypt self p = Return e /\ ciphertext e = ct).
Proof.
  intros Hinit Hperm.
  destruct (EncryptFacts.init_inversion _ _ _ _ Hinit)
    as (_ & _ & Hvk & Htk & _ & Hvig & Htrans & Hsmap & Hrmap).
  assert (0 < length (vigenere_key self)) as HK.
  { rewrite Hvig. pose proof (MLCCFacts.length_upper_ge vk). lia. }
  destruct (ZigzagInverseFacts.zigzag_roundtrip_rev (transposition_key self) ct)
    as (v & Hdec & Hlenv & t & Henc & Hback); [rewrite Htrans; lia|].
  set (u := vigenere decrypt_char (vigenere_key self) v).
  pose proof (VigenereStageFacts.vigenere_decrypt_AZ (vigenere_key self) v) as Hu. fold u in Hu.
  pose proof (substitution_bijection_rev _ _ _ Hperm Hsmap Hrmap) as Hbij.
  destruct (MLCCFacts.substitute_text _ _ _ Hbij Hu) as (p & Hp & HpAZ & Hpu).
  exists p. split; [|split; [done|split]].
  - unfold decrypt. rewrite Hdec. run_bind.
    rewrite VigenereFacts.vigenere_loop_spec by done. run_bind. exact Hp.
  - destruct (EncryptFacts.mapM_dict_get (reverse_substitution_map self) u)
      as [(_ & k & Hk & Hlen)|(_ & Hraise)]; [|congruence].
    assert (k = p) as -> by congruence.
    rewrite Hlen, <- Hlenv. unfold u. apply VigenereFacts.length_vigenere.
  - intros Hct.
    destruct (ZigzagMore.encrypt_Permutation (transposition_key self) v)
      as (t' & Henc' & Hpermv & _); [rewrite Htrans; lia|].
    assert (t' = t) as -> by congruence. rewrite Hback in Hpermv.
    assert (Forall is_AZ v) as Hv by (by rewrite <- Hpermv).
    unfold encrypt. fold (clean p). rewrite (CleanFacts.clean_AZ p HpAZ), Hpu. run_bind.
    rewrite VigenereFacts.vigenere_loop_spec by done. run_bind.
    unfold u. rewrite (VigenereStageFacts.vigenere_encrypt_decrypt _ v Hv), Henc. run_bind.
    eexists. split; [reflexivity|]. exact Hback.
Qed.

End Decrypt.
End DecryptFacts.

(** X9. Once the cipher is constructed with a substitution key whose
    upper-case form rearranges the alphabet, [decrypt] returns for every
    ciphertext, whatever its characters: the result is over [A]..[Z] and as
    long as the ciphertext.  When the ciphertext is over [A]..[Z],
    [encrypt] of the result gives the ciphertext back, so that [encrypt] and
    [decrypt] are inverse bijections of the strings over [A]..[Z] of each
    length. *)
Theorem decrypt_returns_and_encrypt_inverts `{UnicodeDB} (substitution_key vigenere_key : list N)
    (transposition_key : list Z) (self : MLCC.MLCCipher) (ciphertext : list N) :
  MLCC.init substitution_key vigenere_key transposition_key = Return self ->
  upper substitution_key ≡ₚ ALPHABET ->
  exists plaintext,
    MLCC.decrypt self ciphertext = Return plaintext /\
    Forall MLCC.is_AZ plaintext /\ length plaintext = length ciphertext /\
    (Forall MLCC.is_AZ ciphertext ->
     exists e, MLCC.encrypt self plaintext = Return e /\ MLCC.ciphertext e = ciphertext).
Proof. apply DecryptFacts.decrypt_then_encrypt. Qed.

Lemma decrypt_returns_and_encrypt_inverts_witness :
  exists plaintext,
    MLCC.decrypt scenario_cipher (lit "DFCICCUCNT") = Return plaintext /\
    Forall MLCC.is_AZ plaintext /\ length plaintext = length (lit "DFCICCUCNT") /\
    (Forall MLCC.is_AZ (lit "DFCICCUCNT") ->
     exists e, MLCC.encrypt (H:=ascii_db) scenario_cipher plaintext = Return e /\
               MLCC.ciphertext e = lit "DFCICCUCNT").
Proof.
  apply (decrypt_returns_and_encrypt_inverts (H:=ascii_db) (lit "ZYXWVUTSRQPONMLKJIHGFEDCBA")
           (lit "KEYKEYKEYK") [3; 1; 2]%Z scenario_cipher (lit "DFCICCUCNT")).
  - by vm_compute.
  - apply (bool_decide_unpack _). by vm_compute.
Defined.

(** ** The decoder of the substitution solver *)

Module SubstitutionCrackerFacts.
Import MLCC.

(** The dict [inv] is the cipher's [reverse_substitution_map] for the same
    key. *)
Lemma inverse_of_dict_of (key : list N) : SubstitutionCracker.inverse_of key = dict_of key ALPHABET.
Proof. reflexivity. Qed.

Lemma inverse_of_short (key : list N) : length key < 26 -> SubstitutionCracker.inverse_of key = Raise IndexError.
Proof.
  intros Hlen.
  do 26 (destruct key as [|? key]; [reflexivity|]).
  simpl in Hlen. lia.
Qed.

Section Decode.
Context `{UnicodeDB}.

Lemma encrypt_inversion (self : MLCCipher) (plaintext : list N) (e : encrypted) :
  encrypt self plaintext = Return e ->
  mapM (dict_get (substitution_map self)) (clean plaintext)
  = Return (substituted_text (steps e)).
Proof.
  unfold encrypt. fold (clean plaintext).
  destruct (mapM _ (clean plaintext)) as [err|sub]; [discriminate|]. run_bind.
  destruct (vigenere_loop _ _ _ _ sub) as [err|v]; [discriminate|]. run_bind.
  destruct (Zigzag.encrypt _ v) as [err|t]; [discriminate|]. run_bind.
  by intros [= <-].
Qed.

Lemma decode_substituted (sk vk : list N) (tk : list Z) (self : MLCCipher)
    (plaintext : list N) (e : encrypted) :
  init sk vk tk = Return self -> upper sk ≡ₚ ALPHABET ->
  encrypt self plaintext = Return e ->
  SubstitutionCracker.apply_key_plain_to_cipher (substituted_text (steps e)) (substitution_key self)
  = Return (clean plaintext).
Proof.
  intros Hinit Hperm Henc.
  destruct (EncryptFacts.init_inversion _ _ _ _ Hinit)
    as (_ & _ & _ & _ & Hsk & _ & _ & Hsmap & Hrmap).
  destruct (EncryptFacts.encrypt_cases _ _ _ _ plaintext Hinit) as [_ Hbad].
  assert (Forall is_AZ (clean plaintext)) as HAZ.
  { destruct (decide (Forall is_AZ (clean plaintext))) as [?|Hn]; [done|].
    rewrite (Hbad Hn) in Henc. discriminate. }
  pose proof (MLCCFacts.substitution_bijection _ _ _ Hperm Hsmap Hrmap) as Hbij.
  destruct (MLCCFacts.substitute_text _ _ _ Hbij HAZ) as (sub & Hsub & HsubAZ & _).
  pose proof (encrypt_inversion _ _ _ Henc) as Hsub'.
  assert (substituted_text (steps e) = sub) as -> by congruence.
  unfold SubstitutionCracker.apply_key_plain_to_cipher. rewrite Hsk, inverse_of_dict_of, Hrmap. run_bind.
  f_equal. clear Hsub' Henc Hbad.
  revert sub Hsub HsubAZ. induction HAZ as [|c text Hc _ IH]; intros sub Hsub HsubAZ.
  - by injection Hsub as <-.
  - rewrite EncryptFacts.mapM_cons in Hsub.
    destruct (Hbij c Hc) as (s & Hs & Hsaz & Hr).
    rewrite (MLCCFacts.dict_get_Some _ _ _ Hs) in Hsub. run_bind in Hsub.
    destruct (mapM _ text) as [err|sub'] eqn:E; [discriminate|]. run_bind in Hsub.
    injection Hsub as <-. apply Forall_cons in HsubAZ as [_ HsubAZ].
    cbn [map]. rewrite (CleanFacts.isalpha_AZ s Hsaz), Hr. cbn [default].
    f_equal. by apply IH.
Qed.

Lemma apply_key_cases (ciphertext key : list N) :
  (length key < 26 -> SubstitutionCracker.apply_key_plain_to_cipher ciphertext key = Raise IndexError) /\
  (26 <= length key ->
   exists out, SubstitutionCracker.apply_key_plain_to_cipher ciphertext key = Return out /\
     Forall2 (fun ch o => if isalpha ch then o = 63%N \/ is_AZ o else o = ch) ciphertext out).
Proof.
  unfold SubstitutionCracker.apply_key_plain_to_cipher. split.
  - intros Hlen. by rewrite inverse_of_short.
  - intros Hlen. rewrite inverse_of_dict_of.
    destruct (MLCCFacts.dict_of_spec key ALPHABET) as (inv & -> & Hinv);
      [done | by rewrite MLCCFacts.length_ALPHABET |].
    run_bind. eexists. split; [reflexivity|].
    apply Forall2_fmap_r, Forall_Forall2_diag, Forall_forall. intros ch _.
    unfold compose. destruct (isalpha ch); [|reflexivity].
    destruct (inv !! ch) as [o|] eqn:E; cbn [default]; [|by left]. right.
    apply Hinv in E as (i & _ & _ & Ho & _).
    apply MLCCFacts.elem_of_ALPHABET. by eapply list_elem_of_lookup_2.
Qed.

End Decode.
End SubstitutionCrackerFacts.

(** X10. Decoding with the true key undoes the substitution stage: for a
    cipher whose substitution key rearranges the alphabet, the decoder of
    the substitution solver, given the [substituted_text] of an encryption
    and the cipher's substitution key, returns the cleaned plaintext. *)
Theorem true_key_decodes_substitution `{UnicodeDB} (substitution_key vigenere_key : list N)
    (transposition_key : list Z) (self : MLCC.MLCCipher) (plaintext : list N)
    (e : MLCC.encrypted) :
  MLCC.init substitution_key vigenere_key transposition_key = Return self ->
  upper substitution_key ≡ₚ ALPHABET ->
  MLCC.encrypt self plaintext = Return e ->
  SubstitutionCracker.apply_key_plain_to_cipher
    (MLCC.substituted_text (MLCC.steps e)) (MLCC.substitution_key self)
  = Return (clean plaintext).
Proof. apply SubstitutionCrackerFacts.decode_substituted. Qed.

Lemma true_key_decodes_substitution_witness :
  exists e, MLCC.encrypt (H:=ascii_db) scenario_cipher (lit "Hello, World") = Return e /\
    SubstitutionCracker.apply_key_plain_to_cipher (H:=ascii_db)
      (MLCC.substituted_text (MLCC.steps e)) (MLCC.substitution_key scenario_cipher)
    = Return (clean (H:=ascii_db) (lit "Hello, World")).
Proof.
  eexists. split; [by vm_compute|].
  apply (true_key_decodes_substitution (H:=ascii_db) (lit "ZYXWVUTSRQPONMLKJIHGFEDCBA")
           (lit "KEYKEYKEYK") [3; 1; 2]%Z scenario_cipher (lit "Hello, World")).
  - by vm_compute.
  - apply (bool_decide_unpack _). by vm_compute.
  - by vm_compute.
Defined.

(** X11. The decoder reads the first 26 characters of the key and nothing
    else of it: a key shorter than 26 raises [IndexError], whatever the
    ciphertext; with a longer key the decoder returns, keeps every
    character that is no letter, and turns each letter into a letter
    [A]..[Z] or into the placeholder [?]. *)
Theorem decoder_needs_26_key_characters `{UnicodeDB} (ciphertext key_plain_to_cipher : list N) :
  (length key_plain_to_cipher < 26 ->
   SubstitutionCracker.apply_key_plain_to_cipher ciphertext key_plain_to_cipher
   = Raise IndexError) /\
  (26 <= length key_plain_to_cipher ->
   exists out,
     SubstitutionCracker.apply_key_plain_to_cipher ciphertext key_plain_to_cipher = Return out /\
     Forall2 (fun ch o => if isalpha ch then o = 63%N \/ MLCC.is_AZ o else o = ch)
             ciphertext out).
Proof. apply SubstitutionCrackerFacts.apply_key_cases. Qed.

(** ** The frequency tables *)

Module FrequencyFacts.
Import FrequencyAnalysis.

(** The number of occurrences of [c] in [text]. *)
Definition occurrences (c : N) (text : list N) : nat :=
  length (filter (fun x => x = c) text).

(** The count a list of items gives to [c]. *)
Fixpoint count_of (c : N) (counts : list (N * nat)) : nat :=
  match counts with
  | [] => 0
  | kv :: rest => (if decide (kv.1 = c) then kv.2 else 0) + count_of c rest
  end.

Definition total_of (counts : list (N * nat)) : nat := sum_list_with snd counts.

Lemma Counter_add_count c ch counts :
  count_of c (Counter_add ch counts)
  = count_of c counts + (if decide (ch = c) then 1 else 0).
Proof.
  induction counts as [|[c0 n] counts IH]; simpl.
  - destruct (decide (ch = c)); lia.
  - destruct (N.eqb_spec c0 ch) as [->|Hne]; simpl.
    + destruct (decide (ch = c)); lia.
    + rewrite IH. lia.
Qed.

Lemma Counter_add_keys ch counts :
  (Counter_add ch counts).*1
  = if decide (ch ∈ counts.*1) then counts.*1 else counts.*1 ++ [ch].
Proof.
  induction counts as [|[c0 n] counts IH].
  - destruct (decide (ch ∈ ([] : list (N * nat)).*1)) as [Hin|_]; [|done].
    by apply elem_of_nil in Hin.
  - cbn [Counter_add]. destruct (N.eqb_spec c0 ch) as [->|Hne].
    + destruct (decide (ch ∈ ((ch, n) :: counts).*1)) as [_|Hnin]; [done|].
      exfalso. apply Hnin. by left.
    + rewrite fmap_cons, IH. cbn [fst].
      destruct (decide (ch ∈ counts.*1)) as [Hin|Hnin];
        destruct (decide (ch ∈ ((c0, n) :: counts).*1)) as [Hin'|Hnin']; try done.
      * exfalso. apply Hnin'. by right.
      * exfalso. rewrite fmap_cons in Hin'. apply elem_of_cons in Hin' as [?|?]; [|done].
        by apply Hne.
Qed.

Lemma Counter_add_total ch counts : total_of (Counter_add ch counts) = S (total_of counts).
Proof.
  unfold total_of. induction counts as [|[c0 n] counts IH]; simpl; [done|].
  destruct (N.eqb_spec c0 ch) as [->|Hne]; simpl; [done|]. rewrite IH. lia.
Qed.

Lemma Counter_add_pos ch counts :
  Forall (fun kv => 0 < kv.2) counts -> Forall (fun kv => 0 < kv.2) (Counter_add ch counts).
Proof.
  induction 1 as [|[c0 n] counts Hn Hrest IH]; simpl.
  - repeat constructor.
  - simpl in Hn. destruct (N.eqb_spec c0 ch) as [->|Hne]; constructor; simpl; try done; lia.
Qed.

Lemma occurrences_snoc c text ch :
  occurrences c (text ++ [ch]) = occurrences c text + (if decide (ch = c) then 1 else 0).
Proof.
  unfold occurrences. rewrite filter_app, length_app. f_equal.
  destruct (decide (ch = c)) as [->|Hne].
  - by rewrite filter_cons_True.
  - by rewrite filter_cons_False.
Qed.

Lemma occurrences_pos c text : 0 < occurrences c text <-> c ∈ text.
Proof.
  unfold occurrences. split.
  - intros Hpos. destruct (filter _ text) as [|x l] eqn:E; [simpl in Hpos; lia|].
    assert (x ∈ filter (fun x => x = c) text) as Hx by (rewrite E; by left).
    by apply list_elem_of_filter in Hx as [-> ?].
  - intros Hc. assert (c ∈ filter (fun x => x = c) text) as Hx
      by (by apply list_elem_of_filter).
    destruct (filter _ text); [by apply elem_of_nil in Hx | simpl; lia].
Qed.

(** [Counter(text)] has each character of the text once, with the number of
    its occurrences. *)
Lemma Counter_spec (text : list N) :
  NoDup (Counter text).*1 /\
  (forall c, c ∈ (Counter text).*1 <-> c ∈ text) /\
  (forall c, count_of c (Counter text) = occurrences c text) /\
  Forall (fun kv => 0 < kv.2) (Counter text) /\
  total_of (Counter text) = length text.
Proof.
  unfold Counter. induction text as [|ch text IH] using rev_ind.
  - simpl. split; [constructor|]. split; [done|]. split; [done|]. split; [constructor | done].
  - destruct IH as (Hnd & Hkeys & Hcnt & Hpos & Htot).
    rewrite foldl_snoc. set (counts := foldl _ [] text) in *.
    split; [|split; [|split; [|split]]].
    + rewrite Counter_add_keys. destruct (decide (ch ∈ counts.*1)); [done|].
      apply NoDup_app. split; [done|]. split; [|apply NoDup_singleton].
      intros x Hx Hx'%list_elem_of_singleton. by subst.
    + intros c. rewrite Counter_add_keys.
      destruct (decide (ch ∈ counts.*1)) as [Hin|Hnin].
      * rewrite Hkeys, elem_of_app, list_elem_of_singleton. split; [tauto|].
        intros [?| ->]; [done | by apply Hkeys].
      * rewrite !elem_of_app, !list_elem_of_singleton, Hkeys. done.
    + intros c. by rewrite Counter_add_count, occurrences_snoc, Hcnt.
    + by apply Counter_add_pos.
    + rewrite Counter_add_total, Htot, length_app. simpl. lia.
Qed.

Lemma count_of_not_key c counts : c ∉ counts.*1 -> count_of c counts = 0.
Proof.
  induction counts as [|[c0 n] counts IH]; simpl; [done|].
  intros Hc. rewrite not_elem_of_cons in Hc. destruct Hc as [Hne Hc].
  rewrite decide_False by done. by rewrite IH.
Qed.

Lemma count_of_elem c n counts :
  NoDup counts.*1 -> (c, n) ∈ counts -> count_of c counts = n.
Proof.
  induction counts as [|[c0 n0] counts IH]; simpl; intros Hnd Hel.
  - by apply elem_of_nil in Hel.
  - apply NoDup_cons in Hnd as [Hfresh Hnd].
    apply elem_of_cons in Hel as [[= <- <-]|Hel].
    + rewrite decide_True by done. rewrite count_of_not_key by done. lia.
    + rewrite decide_False.
      * by rewrite IH.
      * intros ->. apply Hfresh. apply list_elem_of_fmap. by exists (c, n).
Qed.

(** [sorted] sorts. *)
Lemma insert_by_key_sorted {A} (k : A -> Z) (x : A) (l : list A) :
  StronglySorted (fun a b => (k a <= k b)%Z) l ->
  StronglySorted (fun a b => (k a <= k b)%Z) (insert_by k x l).
Proof.
  induction 1 as [|y l Hsorted IH Hy]; simpl.
  - repeat constructor.
  - destruct (Z.leb_spec (k y) (k x)) as [Hle|Hgt].
    + constructor; [done|]. rewrite (insert_by_Permutation k x l). by constructor.
    + constructor; [by constructor|]. constructor; [lia|].
      eapply Forall_impl; [exact Hy|]. intros z Hz. cbv beta in Hz. lia.
Qed.

Lemma sorted_key_sorted {A} (k : A -> Z) (l : list A) :
  StronglySorted (fun a b => (k a <= k b)%Z) (sorted k l).
Proof.
  unfold sorted. induction l as [|x l IH] using rev_ind; [constructor|].
  rewrite foldl_snoc. by apply insert_by_key_sorted.
Qed.

Lemma StronglySorted_fmap_elem {A B} (R : relation A) (R' : relation B) (f : A -> B)
    (l : list A) :
  (forall a b, a ∈ l -> b ∈ l -> R a b -> R' (f a) (f b)) ->
  StronglySorted R l -> StronglySorted R' (f <$> l).
Proof.
  intros HR Hl. induction Hl as [|a l Hl IH Ha]; [constructor|].
  rewrite fmap_cons. constructor.
  - apply IH. intros x y Hx Hy. apply HR; by right.
  - apply Forall_fmap, Forall_forall. intros b Hb. cbv [compose].
    rewrite Forall_forall in Ha. apply HR; [by left | by right | by apply Ha].
Qed.

(** The letter suggested for the [i]-th most frequent letter; [63] is [?]. *)
Definition rank_letter (i : nat) : N := default 63%N (ENGLISH_FREQ_ORDER !! i).

Lemma suggestion_fold (order : list N) :
  NoDup order ->
  let s := foldl (fun (suggestion : gmap N N) '(i, ch) =>
                    if i <? length ENGLISH_FREQ_ORDER
                    then <[ch := default 63%N (ENGLISH_FREQ_ORDER !! i)]> suggestion
                    else <[ch := 63%N]> suggestion)
                 ∅ (imap pair order) in
  (forall i c, order !! i = Some c -> s !! c = Some (rank_letter i)) /\
  (forall c, c ∉ order -> s !! c = None).
Proof.
  induction order as [|x order IH] using rev_ind; intros Hnd s.
  - split; [done|]. intros c _. apply lookup_empty.
  - apply NoDup_app in Hnd as (Hnd & Hfresh & _).
    assert (x ∉ order) as Hx.
    { intros Hel. apply (Hfresh x Hel). by apply list_elem_of_singleton. }
    destruct (IH Hnd) as [Hon Hoff]. clear IH.
    unfold s. rewrite imap_app, foldl_app. cbn [imap foldl].
    set (s0 := foldl _ ∅ (imap pair order)) in *.
    rewrite Nat.add_0_r.
    assert ((if length order <? length ENGLISH_FREQ_ORDER
             then <[x := default 63%N (ENGLISH_FREQ_ORDER !! length order)]> s0
             else <[x := 63%N]> s0) = <[x := rank_letter (length order)]> s0) as ->.
    { unfold rank_letter. destruct (Nat.ltb_spec (length order) (length ENGLISH_FREQ_ORDER));
        [done|]. by rewrite (proj2 (lookup_ge_None _ _)). }
    split.
    + intros i c Hi. destruct (decide (i = length order)) as [->|Hne].
      * rewrite list_lookup_middle in Hi by done. injection Hi as <-.
        apply lookup_insert_eq.
      * assert (order !! i = Some c) as Hi'.
        { rewrite lookup_app in Hi. destruct (order !! i) eqn:E; [done|].
          apply lookup_ge_None in E.
          destruct (i - length order) as [|n] eqn:En; [lia|].
          simpl in Hi. by rewrite lookup_nil in Hi. }
        rewrite lookup_insert_ne; [by apply Hon|].
        intros ->. apply Hx. by eapply list_elem_of_lookup_2.
    + intros c Hc. rewrite not_elem_of_app, list_elem_of_singleton in Hc.
      destruct Hc as [Hc Hne]. rewrite lookup_insert_ne by done. by apply Hoff.
Qed.

Section Text.
Context `{UnicodeDB}.

Lemma frequency_table_spec (text : list N) :
  let cleaned := clean text in
  let freq := (frequency_table text).1 in
  let total := (frequency_table text).2 in
  total = length cleaned /\
  NoDup freq.*1 /\
  (forall ch, ch ∈ freq.*1 <-> ch ∈ cleaned) /\
  (forall ch cnt rel, (ch, (cnt, rel)) ∈ freq ->
     cnt = occurrences ch cleaned /\ 0 < cnt /\
     rel = (float_of_nat cnt / float_of_nat total)%float) /\
  StronglySorted (fun a b => b.2.1 <= a.2.1) freq /\
  sum_list_with (fun a => a.2.1) freq = total.
Proof.
  intros cleaned freq total. unfold frequency_table in freq, total.
  cbn [fst snd] in freq, total. change (clean_text text false) with cleaned in *.
  destruct (Counter_spec cleaned) as (Hnd & Hkeys & Hcnt & Hpos & Htot).
  set (counts := Counter cleaned) in *.
  set (letters := sorted (fun kv : N * nat => (- Z.of_nat kv.2)%Z) counts) in *.
  assert (letters ≡ₚ counts) as Hperm by apply sorted_Permutation.
  set (g := fun '(ch, cnt) =>
              (ch, (cnt, if 0 <? length cleaned
                         then (float_of_nat cnt / float_of_nat (length cleaned))%float
                         else 0%float))) in *.
  assert (freq.*1 = letters.*1) as Hfst.
  { unfold freq. rewrite <- list_fmap_compose. apply list_fmap_ext. by intros _ [ch cnt] _. }
  assert (forall ch cnt rel, (ch, (cnt, rel)) ∈ freq ->
            (ch, cnt) ∈ counts /\
            rel = (if 0 <? length cleaned
                   then (float_of_nat cnt / float_of_nat (length cleaned))%float
                   else 0%float)) as Hel.
  { intros ch cnt rel ([ch' cnt'] & Heq & Hin)%list_elem_of_fmap.
    injection Heq as -> -> ->. split; [by rewrite <- Hperm | done]. }
  split; [done|]. split; [by rewrite Hfst, Hperm|]. split; [|split; [|split]].
  - intros ch. by rewrite Hfst, Hperm.
  - intros ch cnt rel [Hin ->]%Hel.
    rewrite <- Hcnt, (count_of_elem ch cnt counts Hnd Hin).
    rewrite Forall_forall in Hpos. pose proof (Hpos _ Hin) as Hp. simpl in Hp.
    split; [done|]. split; [done|].
    assert (ch ∈ cleaned) as Hch.
    { apply Hkeys, list_elem_of_fmap. by exists (ch, cnt). }
    destruct cleaned; [by apply elem_of_nil in Hch | done].
  - unfold freq. apply (StronglySorted_fmap_elem (fun a b => (- Z.of_nat a.2 <= - Z.of_nat b.2)%Z)).
    + intros [ch cnt] [ch' cnt'] _ _. simpl. lia.
    + apply sorted_key_sorted.
  - transitivity (total_of letters).
    + unfold freq, total_of. generalize letters. clear.
      intros l. induction l as [|[ch cnt] l IH]; [done|].
      cbn [map sum_list_with]. rewrite IH. reflexivity.
    + unfold total. rewrite <- Htot. unfold total_of. by rewrite Hperm.
Qed.

Lemma cipher_by_freq_spec (ciphertext : list N) :
  let cleaned := clean ciphertext in
  let order := cipher_by_freq ciphertext in
  NoDup order /\
  (forall c, c ∈ order <-> c ∈ cleaned) /\
  StronglySorted (fun c c' => occurrences c' cleaned <= occurrences c cleaned) order.
Proof.
  intros cleaned order. unfold cipher_by_freq in order.
  change (clean_text ciphertext false) with cleaned in *.
  destruct (Counter_spec cleaned) as (Hnd & Hkeys & Hcnt & _ & _).
  set (counts := Counter cleaned) in *.
  assert (most_common counts ≡ₚ counts) as Hperm by apply sorted_Permutation.
  split; [by unfold order; rewrite Hperm|]. split.
  - intros c. unfold order. by rewrite Hperm.
  - unfold order.
    apply (StronglySorted_fmap_elem (fun a b => (- Z.of_nat a.2 <= - Z.of_nat b.2)%Z)).
    + intros [c n] [c' n'] Hin Hin' Hle. rewrite Hperm in Hin, Hin'. simpl in *.
      rewrite <- !Hcnt.
      rewrite (count_of_elem c n counts Hnd Hin), (count_of_elem c' n' counts Hnd Hin'). lia.
    + apply sorted_key_sorted.
Qed.

Lemma suggestion_spec (ciphertext : list N) :
  let cleaned := clean ciphertext in
  let order := cipher_by_freq ciphertext in
  let s := suggest_mapping_by_frequency ciphertext in
  (forall c, s !! c = None <-> c ∉ cleaned) /\
  (forall i c, order !! i = Some c -> s !! c = Some (rank_letter i)) /\
  (forall c, c ∈ cleaned ->
     (forall c', c' ∈ cleaned -> c' ≠ c -> occurrences c' cleaned < occurrences c cleaned) ->
     s !! c = Some 69%N).
Proof.
  intros cleaned order s.
  destruct (cipher_by_freq_spec ciphertext) as (Hnd & Hmem & Hsorted).
  fold cleaned order in Hnd, Hmem, Hsorted.
  destruct (suggestion_fold order Hnd) as [Hon Hoff].
  change (foldl _ ∅ (imap pair order)) with s in Hon, Hoff.
  split; [|split].
  - intros c. rewrite <- Hmem. split; [|apply Hoff].
    intros Hnone [i Hi]%list_elem_of_lookup. rewrite (Hon i c Hi) in Hnone. discriminate.
  - done.
  - intros c Hc Hmax. apply Hmem in Hc.
    destruct order as [|c0 rest] eqn:E; [by apply elem_of_nil in Hc|].
    assert (c0 = c) as ->.
    { destruct (decide (c0 = c)) as [?|Hne]; [done|]. exfalso.
      apply elem_of_cons in Hc as [?|Hc]; [done|].
      apply StronglySorted_inv in Hsorted as [_ Hall].
      rewrite Forall_forall in Hall. specialize (Hall c Hc). cbv beta in Hall.
      assert (c0 ∈ cleaned) as Hc0 by (apply Hmem; by left).
      specialize (Hmax c0 Hc0 Hne). lia. }
    by rewrite (Hon 0 c eq_refl).
Qed.

Lemma NoDup_ENGLISH_FREQ_ORDER : NoDup ENGLISH_FREQ_ORDER.
Proof. apply (bool_decide_unpack _). by vm_compute. Qed.

(** On ASCII text every letter of the text is suggested a letter of its
    own. *)
Lemma suggestion_ascii (ciphertext : list N) :
  Forall (fun c => (c < 128)%N) ciphertext ->
  let cleaned := clean ciphertext in
  let s := suggest_mapping_by_frequency ciphertext in
  (forall c, c ∈ cleaned -> exists p, s !! c = Some p /\ p ∈ ENGLISH_FREQ_ORDER) /\
  (forall c c' p, s !! c = Some p -> s !! c' = Some p -> c = c').
Proof.
  intros Hascii cleaned s.
  pose proof (CleanFacts.clean_ascii_AZ ciphertext Hascii) as HAZ. fold cleaned in HAZ.
  destruct (cipher_by_freq_spec ciphertext) as (Hnd & Hmem & _).
  destruct (suggestion_spec ciphertext) as (Hnone & Hon & _).
  fold cleaned s in Hmem, Hnone, Hon.
  set (order := cipher_by_freq ciphertext) in *.
  assert (length order <= 26) as Hlen.
  { rewrite <- MLCCFacts.length_ALPHABET. apply submseteq_length, NoDup_submseteq; [done|].
    intros c Hc%Hmem. apply MLCCFacts.elem_of_ALPHABET.
    rewrite Forall_forall in HAZ. by apply HAZ. }
  assert (forall c p, s !! c = Some p ->
            exists i, order !! i = Some c /\ ENGLISH_FREQ_ORDER !! i = Some p) as Hrank.
  { intros c p Hp.
    assert (c ∈ order) as [i Hi]%list_elem_of_lookup.
    { apply Hmem. destruct (decide (c ∈ cleaned)) as [?|Hn]; [done|].
      apply Hnone in Hn. congruence. }
    exists i. split; [done|]. rewrite (Hon i c Hi) in Hp. injection Hp as <-.
    pose proof (lookup_lt_Some _ _ _ Hi) as Hlt.
    destruct (lookup_lt_is_Some_2 ENGLISH_FREQ_ORDER i) as [p Hp]; [simpl; lia|].
    unfold rank_letter. by rewrite Hp. }
  split.
  - intros c [i Hi]%Hmem%list_elem_of_lookup.
    pose proof (Hon i c Hi) as Hs. destruct (Hrank c _ Hs) as (j & _ & Hj).
    eexists. split; [done|]. by eapply list_elem_of_lookup_2.
  - intros c c' p (i & Hi & Hp)%Hrank (j & Hj & Hp')%Hrank.
    pose proof (NoDup_lookup _ _ _ _ NoDup_ENGLISH_FREQ_ORDER Hp Hp') as <-. congruence.
Qed.

(** The sample decode of [main]: a prefix of the cleaned text under the
    suggested mapping. *)
Lemma sample_decode (ciphertext : list N) (sample_length : nat) :
  Forall (fun c => (c < 128)%N) ciphertext ->
  let sample := take sample_length (clean ciphertext) in
  let decoded := apply_mapping_to_text sample (suggest_mapping_by_frequency ciphertext) 63%N in
  length decoded = length sample /\
  Forall (fun p => p ∈ ENGLISH_FREQ_ORDER) decoded /\
  (forall i j a b, sample !! i = Some a -> sample !! j = Some b ->
     (decoded !! i = decoded !! j <-> a = b)).
Proof.
  intros Hascii sample decoded.
  pose proof (CleanFacts.clean_ascii_AZ ciphertext Hascii) as HAZ.
  assert (Forall MLCC.is_AZ sample) as Hsample by (by apply Forall_take).
  destruct (suggestion_ascii ciphertext Hascii) as [Hsome Hinj].
  set (s := suggest_mapping_by_frequency ciphertext) in *.
  assert (forall a, a ∈ sample -> a ∈ clean ciphertext) as Hsub.
  { intros a (i & Hi & _)%elem_of_take. by eapply list_elem_of_lookup_2. }
  assert (decoded = map (fun ch => default 63%N (s !! ch)) sample) as ->.
  { unfold decoded, apply_mapping_to_text. rewrite (CleanFacts.upper_AZ sample Hsample).
    apply map_ext_in. intros ch Hch%list_elem_of_In.
    rewrite Forall_forall in Hsample. by rewrite (CleanFacts.isalpha_AZ ch (Hsample ch Hch)). }
  split; [apply length_map|]. split.
  - apply Forall_fmap, Forall_forall. intros a Ha. cbv [compose].
    destruct (Hsome a (Hsub a Ha)) as (p & -> & Hp). done.
  - intros i j a b Hi Hj.
    change (map ?f sample) with (f <$> sample). rewrite !list_lookup_fmap, Hi, Hj.
    cbn [fmap option_fmap option_map].
    destruct (Hsome a) as (p & Hp & _); [by eapply Hsub, list_elem_of_lookup_2|].
    destruct (Hsome b) as (q & Hq & _); [by eapply Hsub, list_elem_of_lookup_2|].
    rewrite Hp, Hq. cbn [default]. split.
    + intros [= ->]. by eapply Hinj.
    + intros ->. congruence.
Qed.

End Text.
End FrequencyFacts.

(** X12. [frequency_table] counts: the total is the number of letters of
    the cleaned text; every letter of the cleaned text has exactly one
    entry, with the number of its occurrences (never 0) and that number
    divided by the total; the entries are in descending order of count, and
    the counts add up to the total. *)
Theorem frequency_table_counts `{UnicodeDB} (text : list N) :
  let cleaned := clean text in
  let freq := (FrequencyAnalysis.frequency_table text).1 in
  let total := (FrequencyAnalysis.frequency_table text).2 in
  total = length cleaned /\
  NoDup freq.*1 /\
  (forall ch, ch ∈ freq.*1 <-> ch ∈ cleaned) /\
  (forall ch cnt rel, (ch, (cnt, rel)) ∈ freq ->
     cnt = length (filter (fun x => x = ch) cleaned) /\ 0 < cnt /\
     rel = (float_of_nat cnt / float_of_nat total)%float) /\
  StronglySorted (fun a b => b.2.1 <= a.2.1) freq /\
  sum_list_with (fun a => a.2.1) freq = total.
Proof. apply FrequencyFacts.frequency_table_spec. Qed.

(** X13. The suggested mapping ranks by frequency: the letters of the
    cleaned ciphertext, each once, are ordered by descending number of
    occurrences, and the [i]-th of them is suggested the [i]-th letter of
    [ENGLISH_FREQ_ORDER] (the placeholder [?] from the 27th on); no other
    character is mapped; a letter that occurs more often than every other
    one is suggested [E]. *)
Theorem suggestion_ranks_by_frequency `{UnicodeDB} (ciphertext : list N) :
  let cleaned := clean ciphertext in
  let occurrences c := length (filter (fun x => x = c) cleaned) in
  let order := FrequencyAnalysis.cipher_by_freq ciphertext in
  let s := FrequencyAnalysis.suggest_mapping_by_frequency ciphertext in
  NoDup order /\
  (forall c, c ∈ order <-> c ∈ cleaned) /\
  StronglySorted (fun c c' => occurrences c' <= occurrences c) order /\
  (forall c, s !! c = None <-> c ∉ cleaned) /\
  (forall i c, order !! i = Some c ->
     s !! c = Some (default 63%N (FrequencyAnalysis.ENGLISH_FREQ_ORDER !! i))) /\
  (forall c, c ∈ cleaned ->
     (forall c', c' ∈ cleaned -> c' ≠ c -> occurrences c' < occurrences c) ->
     s !! c = Some 69%N).
Proof.
  intros cleaned occurrences order s.
  destruct (FrequencyFacts.cipher_by_freq_spec ciphertext) as (Hnd & Hmem & Hsorted).
  destruct (FrequencyFacts.suggestion_spec ciphertext) as (Hnone & Hon & Hmax).
  repeat split; try done; by apply Hmem || by apply Hnone.
Qed.

(** X14. The sample decode on ASCII input: a prefix of the cleaned text,
    decoded with the mapping suggested for the text, has the length of the
    prefix, consists of letters of [ENGLISH_FREQ_ORDER] (no placeholder),
    and has equal letters exactly where the prefix has equal letters: it is
    a letter-for-letter substitution of the prefix. *)
Theorem sample_decode_is_substitution `{UnicodeDB} (ciphertext : list N) (sample_length : nat) :
  Forall (fun c => (c < 128)%N) ciphertext ->
  let sample := take sample_length (clean ciphertext) in
  let decoded :=
    FrequencyAnalysis.apply_mapping_to_text
      sample (FrequencyAnalysis.suggest_mapping_by_frequency ciphertext) 63%N in
  length decoded = length sample /\
  Forall (fun p => p ∈ FrequencyAnalysis.ENGLISH_FREQ_ORDER) decoded /\
  (forall i j a b, sample !! i = Some a -> sample !! j = Some b ->
     (decoded !! i = decoded !! j <-> a = b)).
Proof. apply FrequencyFacts.sample_decode. Qed.

Lemma sample_decode_is_substitution_witness :
  let sample := take 400 (clean (H:=ascii_db) (lit "Hello, World")) in
  let decoded :=
    FrequencyAnalysis.apply_mapping_to_text (H:=ascii_db)
      sample (FrequencyAnalysis.suggest_mapping_by_frequency (H:=ascii_db) (lit "Hello, World"))
      63%N in
  length decoded = length sample /\
  Forall (fun p => p ∈ FrequencyAnalysis.ENGLISH_FREQ_ORDER) decoded /\
  (forall i j a b, sample !! i = Some a -> sample !! j = Some b ->
     (decoded !! i = decoded !! j <-> a = b)).
Proof.
  apply (sample_decode_is_substitution (H:=ascii_db) (lit "Hello, World") 400).
  apply (bool_decide_unpack _). by vm_compute.
Defined.

(** ** [columnar_decrypt] on its own *)

Module ColumnarFacts.
Import TranspositionBruteforce.

Lemma list_index_spec (l : list Z) (x : Z) :
  (x ∈ l -> exists k, list_index l x = Return k /\ l !! k = Some x) /\
  (x ∉ l -> list_index l x = Raise (ValueError "x is not in list")).
Proof.
  induction l as [|y l [IHin IHout]]; simpl.
  - split; [by intros ?%elem_of_nil | done].
  - destruct (Z.eqb_spec y x) as [->|Hne].
    + split; [|intros Hn; exfalso; apply Hn; by left]. intros _. by exists 0.
    + split.
      * intros [?|Hin]%elem_of_cons; [congruence|].
        destruct (IHin Hin) as (k & -> & Hk). by exists (S k).
      * intros [_ Hn]%not_elem_of_cons. by rewrite (IHout Hn).
Qed.

Lemma list_index_NoDup (l : list Z) (k : nat) (x : Z) :
  NoDup l -> l !! k = Some x -> list_index l x = Return k.
Proof.
  intros Hnd Hk.
  destruct (proj1 (list_index_spec l x)) as (k' & Hk' & Hl); [by eapply list_elem_of_lookup_2|].
  by rewrite Hk', (NoDup_lookup _ _ _ _ Hnd Hl Hk).
Qed.

Section Columns.
Context {A : Type}.
Implicit Types (cipher : list A) (cols : list (list A)).

(** One iteration of the loop of lines 53-56. *)
Definition fill_step cipher (key_order col_lengths : list Z)
    (acc : result (list (list A) * Z)) (pos : Z) : result (list (list A) * Z) :=
  '(cols, index) ← acc ;
  k ← list_index key_order pos ;
  col_len ← getitem col_lengths (Z.of_nat k) ;
  Return (cols ++ [slice cipher index (index + col_len)], (index + col_len)%Z).

(** Consecutive slices of the given lengths. *)
Fixpoint cut cipher (index : Z) (lens : list Z) : list (list A) :=
  match lens with
  | [] => []
  | len :: lens => slice cipher index (index + len) :: cut cipher (index + len)%Z lens
  end.

Definition zsum (lens : list Z) : Z := foldr Z.add 0%Z lens.

(** The length the loop reads for column [pos]. *)
Definition len_at (key_order col_lengths : list Z) (pos : Z) : Z :=
  match list_index key_order pos with
  | Return k => default 0%Z (col_lengths !! k)
  | Raise _ => 0%Z
  end.

Lemma fill_step_Raise cipher key_order col_lengths e poss :
  foldl (fill_step cipher key_order col_lengths) (Raise e) poss = Raise e.
Proof. induction poss as [|pos poss IH]; [done|]. simpl. exact IH. Qed.

Lemma fill_loop cipher key_order col_lengths poss :
  length col_lengths = length key_order ->
  Forall (fun pos => pos ∈ key_order) poss ->
  forall cols index,
    foldl (fill_step cipher key_order col_lengths) (Return (cols, index)) poss
    = Return (cols ++ cut cipher index (map (len_at key_order col_lengths) poss),
              (index + zsum (map (len_at key_order col_lengths) poss))%Z).
Proof.
  intros Hlen Hposs. induction Hposs as [|pos poss Hpos _ IH]; intros cols index.
  - simpl. by rewrite app_nil_r, Z.add_0_r.
  - cbn [foldl map cut zsum foldr].
    destruct (proj1 (list_index_spec key_order pos) Hpos) as (k & Hk & Hl).
    pose proof (lookup_lt_Some _ _ _ Hl) as Hlt.
    destruct (lookup_lt_is_Some_2 col_lengths k) as [len Hlenk]; [lia|].
    assert (len_at key_order col_lengths pos = len) as ->.
    { unfold len_at. by rewrite Hk, Hlenk. }
    assert (fill_step cipher key_order col_lengths (Return (cols, index)) pos
            = Return (cols ++ [slice cipher index (index + len)], (index + len)%Z)) as ->.
    { unfold fill_step. run_bind. rewrite Hk. run_bind.
      by rewrite (getitem_lookup _ _ _ Hlenk). }
    rewrite IH, <- app_assoc. simpl. f_equal. f_equal. unfold zsum. lia.
Qed.

Lemma fill_loop_missing cipher key_order col_lengths poss :
  length col_lengths = length key_order ->
  ~ Forall (fun pos => pos ∈ key_order) poss ->
  forall cols index,
    foldl (fill_step cipher key_order col_lengths) (Return (cols, index)) poss
    = Raise (ValueError "x is not in list").
Proof.
  intros Hlen. induction poss as [|pos poss IH]; intros Hnot cols index.
  - exfalso. apply Hnot. constructor.
  - cbn [foldl]. destruct (decide (pos ∈ key_order)) as [Hpos|Hpos].
    + destruct (proj1 (list_index_spec key_order pos) Hpos) as (k & Hk & Hl).
      pose proof (lookup_lt_Some _ _ _ Hl) as Hlt.
      destruct (lookup_lt_is_Some_2 col_lengths k) as [len Hlenk]; [lia|].
      assert (fill_step cipher key_order col_lengths (Return (cols, index)) pos
              = Return (cols ++ [slice cipher index (index + len)], (index + len)%Z)) as ->.
      { unfold fill_step. run_bind. rewrite Hk. run_bind.
        by rewrite (getitem_lookup _ _ _ Hlenk). }
      apply IH. intros Hall. apply Hnot. by constructor.
    + assert (fill_step cipher key_order col_lengths (Return (cols, index)) pos
              = Raise (ValueError "x is not in list")) as ->.
      { unfold fill_step. run_bind.
        by rewrite (proj2 (list_index_spec key_order pos) Hpos). }
      apply fill_step_Raise.
Qed.

Lemma slice_nonneg cipher (a len : Z) :
  (0 <= a)%Z -> (0 <= len)%Z ->
  slice cipher a (a + len) = take (Z.to_nat len) (drop (Z.to_nat a) cipher).
Proof.
  intros Ha Hl. unfold slice.
  destruct (Z.ltb_spec (a + len) 0) as [?|_]; [lia|].
  destruct (Z.ltb_spec a 0) as [?|_]; [lia|].
  set (n := Z.of_nat (length cipher)).
  destruct (Z.le_gt_cases n a) as [Hge|Hlt].
  - rewrite (Z.min_r a n) by lia. rewrite (Z.min_r (a + len) n) by lia.
    rewrite !drop_ge by lia. by rewrite !take_nil.
  - rewrite (Z.min_l a n) by lia.
    destruct (Z.le_gt_cases (a + len) n) as [Hle|Hgt].
    + rewrite (Z.min_l (a + len) n) by lia. f_equal. lia.
    + rewrite (Z.min_r (a + len) n) by lia.
      rewrite !take_ge; [done | rewrite length_drop; lia | rewrite length_drop; lia].
Qed.

Lemma concat_cut cipher (index : Z) (lens : list Z) :
  (0 <= index)%Z -> Forall (fun len => (0 <= len)%Z) lens ->
  concat (cut cipher index lens)
  = take (Z.to_nat (zsum lens)) (drop (Z.to_nat index) cipher).
Proof.
  intros Hi Hlens. revert index Hi.
  induction Hlens as [|len lens Hlen Hlens IH]; intros index Hi; simpl.
  - by rewrite take_0.
  - rewrite slice_nonneg by done. rewrite IH by lia.
    assert (0 <= zsum lens)%Z as Hs.
    { clear -Hlens. induction Hlens; simpl; [done|]. unfold zsum in *. simpl. lia. }
    rewrite Z2Nat.inj_add by done. rewrite <- drop_drop.
    rewrite Z2Nat.inj_add by done. by rewrite take_take_drop.
Qed.

Lemma Forall_cut_length cipher (index : Z) (lens : list Z) (R : nat) :
  (0 <= index)%Z -> Forall (fun len => (0 <= len <= Z.of_nat R)%Z) lens ->
  Forall (fun col => length col <= R) (cut cipher index lens).
Proof.
  intros Hi Hlens. revert index Hi.
  induction Hlens as [|len lens Hlen Hlens IH]; intros index Hi; simpl; [constructor|].
  constructor; [|apply IH; lia].
  rewrite slice_nonneg by lia. rewrite length_take. lia.
Qed.

Lemma length_cut cipher index lens : length (cut cipher index lens) = length lens.
Proof. revert index. induction lens as [|len lens IH]; intros index; simpl; [done|]. by rewrite IH. Qed.

(** Reading the columns row by row. *)
Definition read_rows cols (n_rows : nat) : list A :=
  flat_map (fun r =>
    flat_map (fun c =>
                match cols !! c with
                | Some col => match col !! r with Some x => [x] | None => [] end
                | None => []
                end)
             (seq 0 (length cols)))
    (seq 0 n_rows).

Lemma flat_map_ext_elem {B D} (f g : B -> list D) (l : list B) :
  (forall x, x ∈ l -> f x = g x) -> flat_map f l = flat_map g l.
Proof.
  induction l as [|x l IH]; intros Hfg; [done|]. simpl.
  rewrite (Hfg x) by (by left). rewrite IH; [done|]. intros y Hy. apply Hfg. by right.
Qed.

Lemma flat_map_lookup {B} (g : list A -> list B) cols :
  flat_map (fun c => match cols !! c with Some col => g col | None => [] end)
           (seq 0 (length cols))
  = flat_map g cols.
Proof.
  induction cols as [|col cols IH] using rev_ind; [done|].
  rewrite length_app, Nat.add_1_r, seq_S, !flat_map_app. simpl. rewrite app_nil_r.
  rewrite list_lookup_middle by done. rewrite app_nil_r. f_equal. rewrite <- IH.
  apply flat_map_ext_elem. intros c Hc%elem_of_seq.
  by rewrite lookup_app_l by lia.
Qed.

Lemma flat_map_app_Permutation {B D} (f g : B -> list D) (l : list B) :
  flat_map (fun x => f x ++ g x) l ≡ₚ flat_map f l ++ flat_map g l.
Proof.
  induction l as [|x l IH]; [done|]. simpl. rewrite IH.
  rewrite <- !app_assoc. apply Permutation_app_head.
  rewrite !app_assoc. apply Permutation_app_tail, Permutation_app_comm.
Qed.

Lemma flat_map_lookup_seq (col : list A) (n : nat) :
  flat_map (fun r => match col !! r with Some x => [x] | None => [] end) (seq 0 n)
  = take n col.
Proof.
  induction n as [|n IH]; [done|].
  rewrite seq_S, flat_map_app, IH. simpl. rewrite app_nil_r.
  destruct (col !! n) as [x|] eqn:E.
  - by rewrite (take_S_r _ _ _ E).
  - apply lookup_ge_None in E. rewrite app_nil_r, !take_ge; [done | lia | lia].
Qed.

Lemma read_rows_Permutation cols (n_rows : nat) :
  Forall (fun col => length col <= n_rows) cols -> read_rows cols n_rows ≡ₚ concat cols.
Proof.
  intros Hcols. unfold read_rows.
  rewrite (flat_map_ext _ (fun r => flat_map (fun col => match col !! r with
                                                           | Some x => [x] | None => [] end)
                                             cols))
    by (intros r; apply (flat_map_lookup (fun col => match col !! r with
                                                     | Some x => [x] | None => [] end))).
  induction Hcols as [|col cols Hcol _ IH]; simpl.
  - induction (seq 0 n_rows); [done | by simpl].
  - rewrite flat_map_app_Permutation, IH, flat_map_lookup_seq.
    by rewrite take_ge.
Qed.

Lemma zsum_app (l k : list Z) : zsum (l ++ k) = (zsum l + zsum k)%Z.
Proof. unfold zsum. induction l as [|x l IH]; simpl; [done|]. rewrite IH. lia. Qed.

Lemma zsum_Permutation (l k : list Z) : l ≡ₚ k -> zsum l = zsum k.
Proof. unfold zsum. induction 1; simpl; lia. Qed.

Lemma zsum_col_lengths (R : Z) (f n : nat) :
  zsum (map (fun i => if i <? f then R else (R - 1)%Z) (seq 0 n))
  = (Z.of_nat n * (R - 1) + Z.of_nat (Nat.min n f))%Z.
Proof.
  induction n as [|n IH]; [done|].
  rewrite seq_S, map_app, zsum_app, IH. cbn [map zsum foldr Nat.add].
  destruct (Nat.ltb_spec n f); lia.
Qed.

Lemma NoDup_range (n : nat) : NoDup (range n).
Proof. unfold range. apply (NoDup_fmap_2 _), NoDup_seq. Qed.

Lemma length_range (n : nat) : length (range n) = n.
Proof. unfold range. by rewrite length_map, length_seq. Qed.

Lemma columnar_decrypt_spec cipher (key_order : list Z) :
  let n := length key_order in
  let L := length cipher in
  (n = 0 -> columnar_decrypt cipher key_order = Raise ZeroDivisionError) /\
  (key_order ≡ₚ range n -> 1 <= n ->
   exists out, columnar_decrypt cipher key_order = Return out /\
     out ≡ₚ take (if L mod n =? 0 then L - n else L) cipher) /\
  (~ key_order ≡ₚ range n -> 1 <= n ->
   columnar_decrypt cipher key_order = Raise (ValueError "x is not in list")).
Proof.
  intros n L. unfold columnar_decrypt. fold n L.
  split; [by intros ->|].
  set (R := ceil_div L n).
  set (lens := map (fun i => if i <? L mod n then Z.of_nat R else (Z.of_nat R - 1)%Z)
                   (seq 0 n)).
  assert (length lens = n) as Hlens by (unfold lens; by rewrite length_map, length_seq).
  change (foldl _ (Return ([], 0%Z)) (range n))
    with (foldl (fill_step cipher key_order lens) (Return ([], 0%Z)) (range n)).
  split.
  - intros Hperm Hn. destruct (Nat.eqb_spec n 0) as [?|_]; [lia|].
    assert (NoDup key_order) as Hnd by (rewrite Hperm; apply NoDup_range).
    rewrite (fill_loop cipher key_order lens (range n) Hlens)
      by (apply Forall_forall; intros pos Hpos; by rewrite Hperm).
    run_bind. eexists. split; [reflexivity|]. cbn [fst app].
    set (lens' := map (len_at key_order lens) (range n)).
    set (cols := cut cipher 0 lens').
    assert (length cols = n) as Hcols.
    { unfold cols, lens'. by rewrite length_cut, length_map, length_range. }
    transitivity (read_rows cols R); [unfold read_rows; by rewrite Hcols|].
    destruct (decide (L = 0)) as [HL0|HL0].
    { assert (R = 0) as -> by (unfold R; rewrite HL0; apply ceil_div_0; lia).
      unfold read_rows. simpl. destruct cipher; [|done].
      by rewrite take_nil. }
    assert (lens' ≡ₚ lens) as Hpl.
    { unfold lens'. rewrite <- Hperm.
      assert (map (len_at key_order lens) key_order = lens) as ->; [|done].
      apply list_eq. intros k. change (map ?f ?l) with (f <$> l). rewrite list_lookup_fmap.
      destruct (key_order !! k) as [pos|] eqn:E; simpl.
      - pose proof (lookup_lt_Some _ _ _ E) as Hlt.
        destruct (lookup_lt_is_Some_2 lens k) as [len Hlen]; [lia|].
        unfold len_at. by rewrite (list_index_NoDup _ _ _ Hnd E), Hlen.
      - symmetry. apply lookup_ge_None. apply lookup_ge_None in E. lia. }
    destruct (ceil_div_bounds L n ltac:(lia)) as [Hup Hlow]. fold R in Hup, Hlow.
    assert (1 <= R) as HR by (destruct R; [simpl in Hup; lia | lia]).
    assert (Forall (fun len => (0 <= len <= Z.of_nat R)%Z) lens') as Hrange.
    { rewrite Hpl. unfold lens. apply Forall_fmap, Forall_forall. intros i _. cbv [compose].
      destruct (i <? L mod n); lia. }
    rewrite (read_rows_Permutation cols R)
      by (apply Forall_cut_length; [lia | done]).
    unfold cols. rewrite concat_cut; [|lia|].
    2:{ eapply Forall_impl; [exact Hrange|]. intros len Hlen. cbv beta in Hlen. lia. }
    rewrite drop_0, (zsum_Permutation _ _ Hpl). unfold lens. rewrite zsum_col_lengths.
    pose proof (Nat.mod_upper_bound L n ltac:(lia)) as Hmod.
    rewrite Nat.min_r by lia.
    assert (Z.to_nat (Z.of_nat n * (Z.of_nat R - 1) + Z.of_nat (L mod n))
            = if L mod n =? 0 then L - n else L) as ->; [|done].
    pose proof (Nat.div_mod_eq L n) as Hdm.
    unfold R, ceil_div in *. destruct (Nat.eqb_spec (L mod n) 0) as [H0|Hn0]; nia.
  - intros Hperm Hn. destruct (Nat.eqb_spec n 0) as [?|_]; [lia|].
    rewrite (fill_loop_missing cipher key_order lens (range n) Hlens); [done|].
    intros Hall. apply Hperm. symmetry.
    apply submseteq_length_Permutation; [|by rewrite length_range].
    apply NoDup_submseteq; [apply NoDup_range|].
    rewrite Forall_forall in Hall. exact Hall.
Qed.

End Columns.
End ColumnarFacts.

(** X15. [columnar_decrypt] on every input: an empty key order raises
    [ZeroDivisionError]; a key order that is no rearrangement of
    [0 .. n-1] raises [ValueError]; for a rearrangement the function
    returns a rearrangement of the ciphertext, except when the length of
    the ciphertext is a multiple of the number [n] of columns: then the
    last [n] characters of the ciphertext are dropped and the others
    rearranged. *)
Theorem columnar_decrypt_drops_last_characters {A : Type} (cipher : list A)
    (key_order : list Z) :
  let n := length key_order in
  let L := length cipher in
  (n = 0 ->
   TranspositionBruteforce.columnar_decrypt cipher key_order = Raise ZeroDivisionError) /\
  (key_order ≡ₚ range n -> 1 <= n ->
   exists out, TranspositionBruteforce.columnar_decrypt cipher key_order = Return out /\
     out ≡ₚ take (if L mod n =? 0 then L - n else L) cipher) /\
  (~ key_order ≡ₚ range n -> 1 <= n ->
   exists msg, TranspositionBruteforce.columnar_decrypt cipher key_order
               = Raise (ValueError msg)).
Proof.
  intros n L.
  destruct (ColumnarFacts.columnar_decrypt_spec cipher key_order) as (H0 & Hperm & Hnot).
  split; [done|]. split; [done|]. intros Hn Hpos. eexists. by apply Hnot.
Qed.

(** ** The key recovery for keys with other characters *)

Module ReducedKeyFacts.
Import MLCC VigenereCracker.

(** The key letter that shifts as [k] does. *)
Definition reduced (k : N) : N := letter_of (shift_of k mod 26).

Lemma reduced_AZ (k : N) : is_AZ (reduced k).
Proof.
  unfold reduced, is_AZ, letter_of, chr, ord_A.
  pose proof (Z.mod_pos_bound (shift_of k) 26 ltac:(lia)). lia.
Qed.

Lemma shift_of_reduced (k : N) : shift_of (reduced k) = (shift_of k mod 26)%Z.
Proof.
  unfold reduced. apply CompletenessFacts.letter_of_shift.
  apply Z.mod_pos_bound. lia.
Qed.

Lemma encrypt_char_mod (c : N) (s m : Z) :
  encrypt_char c (s mod 26) m = encrypt_char c s m.
Proof.
  unfold encrypt_char. f_equal. f_equal.
  rewrite <- (Zplus_mod_idemp_r (s mod 26 * m)), <- (Zplus_mod_idemp_r (s * m)).
  f_equal. f_equal. by rewrite Zmult_mod_idemp_l.
Qed.

Lemma shift_at_reduced (key : list N) (i : nat) :
  shift_at (map reduced key) i = (shift_at key i mod 26)%Z.
Proof.
  unfold shift_at. rewrite length_map.
  change (map reduced key) with (reduced <$> key). rewrite list_lookup_fmap.
  destruct (key !! _) as [k|]; [|done]. apply shift_of_reduced.
Qed.

Lemma vigenere_reduced (key text : list N) :
  vigenere encrypt_char (map reduced key) text = vigenere encrypt_char key text.
Proof.
  unfold vigenere. apply imap_ext. intros i c _.
  by rewrite shift_at_reduced, encrypt_char_mod.
Qed.

Lemma recovery_sound_mod (key substituted vigenere_result : list N) (maxc : Z) :
  0 < length key -> Forall is_AZ substituted ->
  vigenere_loop encrypt_char key 0 0 substituted = Return vigenere_result ->
  exists res,
    derive_candidates_for_keylen substituted vigenere_result (Z.of_nat (length key)) maxc
      = Return (Some res) /\
    Forall2 (fun k cands => (shift_of k mod 26)%Z ∈ cands) key (per_position_candidates res).
Proof.
  intros HK Hsub Hvig.
  rewrite VigenereFacts.vigenere_loop_spec in Hvig by done.
  destruct (VigenereCrackerFacts.recovery_sound (map reduced key) substituted
              vigenere_result maxc) as (res & Hres & Hall).
  - by rewrite length_map.
  - apply Forall_fmap, Forall_forall. intros k _. apply reduced_AZ.
  - done.
  - rewrite VigenereFacts.vigenere_loop_spec by (by rewrite length_map).
    by rewrite vigenere_reduced.
  - exists res. rewrite length_map in Hres. split; [done|].
    pose proof (proj1 (Forall2_fmap_l reduced (fun k cands => shift_of k ∈ cands) key
                         (per_position_candidates res)) Hall) as Hall'.
    eapply Forall2_impl; [exact Hall'|].
    intros k cands Hin. cbv [compose] in Hin. by rewrite shift_of_reduced in Hin.
Qed.

End ReducedKeyFacts.

(** X16. Soundness of the key recovery for every key: if [vigenere_result]
    is what the pipeline's Vigenère loop makes of the letters [substituted]
    under a key of [L >= 1] characters, letters or not, then
    [derive_candidates_for_keylen] at length [L] returns a result, and the
    candidates of every position hold the shift of the key character
    reduced modulo 26: the key of letters that encrypts as the true key
    does is never excluded. *)
Theorem reduced_key_never_excluded (key substituted vigenere_result : list N)
    (max_combinations : Z) :
  1 <= length key -> Forall MLCC.is_AZ substituted ->
  MLCC.vigenere_loop MLCC.encrypt_char key 0 0 substituted = Return vigenere_result ->
  exists res,
    VigenereCracker.derive_candidates_for_keylen substituted vigenere_result
      (Z.of_nat (length key)) max_combinations = Return (Some res) /\
    Forall2 (fun k cands => (VigenereCracker.shift_of k mod 26)%Z ∈ cands) key
            (VigenereCracker.per_position_candidates res).
Proof. intros HK. apply ReducedKeyFacts.recovery_sound_mod. lia. Qed.

Lemma reduced_key_never_excluded_witness :
  exists res,
    VigenereCracker.derive_candidates_for_keylen (lit "SVOOLDLIOW") (lit "CTIMJBXMKU")
      (Z.of_nat (length (lit "K3Y-K3Y-K3"))) 200 = Return (Some res) /\
    Forall2 (fun k cands => (VigenereCracker.shift_of k mod 26)%Z ∈ cands) (lit "K3Y-K3Y-K3")
            (VigenereCracker.per_position_candidates res).
Proof.
  apply (reduced_key_never_excluded (lit "K3Y-K3Y-K3") (lit "SVOOLDLIOW") (lit "CTIMJBXMKU") 200).
  - simpl. lia.
  - apply (bool_decide_unpack _). by vm_compute.
  - reflexivity.
Defined.

(** ** The keys of the transposition solver *)

Module HillclimbFacts.
Import TranspositionBruteforce.

Lemma insert_swap_Permutation {A} (l : list A) (a b : nat) (x y : A) :
  l !! a = Some x -> l !! b = Some y -> <[b := x]> (<[a := y]> l) ≡ₚ l.
Proof.
  intros Ha Hb.
  pose proof (lookup_lt_Some _ _ _ Ha) as Hla. pose proof (lookup_lt_Some _ _ _ Hb) as Hlb.
  apply Permutation_inj. split; [by rewrite !length_insert|].
  exists (fun i => if decide (i = a) then b else if decide (i = b) then a else i). split.
  - intros i j. repeat case_decide; intros; subst; congruence.
  - intros i. destruct (decide (i = b)) as [->|Hib].
    + rewrite list_lookup_insert_eq by (by rewrite length_insert).
      destruct (decide (b = a)) as [->|Hba]; [congruence|]. done.
    + rewrite list_lookup_insert_ne by done.
      destruct (decide (i = a)) as [->|Hia].
      * rewrite list_lookup_insert_eq by done. done.
      * by rewrite list_lookup_insert_ne.
Qed.

Lemma swap_Permutation (key : list Z) (a b : nat) :
  a < length key -> b < length key ->
  exists key', swap key a b = Return key' /\ key' ≡ₚ key.
Proof.
  intros Ha Hb.
  destruct (lookup_lt_is_Some_2 key a Ha) as [x Hx].
  destruct (lookup_lt_is_Some_2 key b Hb) as [y Hy].
  unfold swap. rewrite (getitem_lookup _ _ _ Hx). run_bind.
  rewrite (getitem_lookup _ _ _ Hy). run_bind.
  eexists. split; [reflexivity|]. by apply insert_swap_Permutation.
Qed.

(** A loop over the [result] monad that keeps an invariant returns. *)
Lemma foldl_result_invariant {S X} (P : S -> Prop) (f : S -> X -> result S)
    (l : list X) (s : S) :
  P s -> (forall s x, P s -> exists s', f s x = Return s' /\ P s') ->
  exists s', foldl (fun acc x => s ← acc ; f s x) (Return s) l = Return s' /\ P s'.
Proof.
  intros Hs Hf. revert s Hs. induction l as [|x l IH]; intros s Hs.
  - by exists s.
  - cbn [foldl]. run_bind. destruct (Hf s x Hs) as (s' & -> & Hs'). by apply IH.
Qed.

Section Climb.
Context `{UnicodeDB} `{PyRuntime}.
Hypothesis shuffle_permutes : forall l g, (rng_shuffle l g).1 ≡ₚ l.
Hypothesis sample2_below : forall n g, 2 <= n ->
  exists a b g', rng_sample2 n g = Return (a, b, g') /\ a < n /\ b < n.
Variables (cipher : list N) (keylen : nat).
Hypothesis keylen_ge_2 : 2 <= keylen.

(** The triple of a key, its decryption of the cipher and the score of
    that decryption. *)
Definition consistent (key : list Z) (plain : list N) (score : float) : Prop :=
  key ≡ₚ range keylen /\ columnar_decrypt cipher key = Return plain /\
  score = score_text plain.

Definition best_consistent (key : option (list Z)) (plain : list N) (score : float) : Prop :=
  match key with
  | Some key => consistent key plain score
  | None => plain = [] /\ score = (-1e9)%float
  end.

Definition climb_consistent (st : climb) : Prop :=
  consistent (current_key st) (current_plain st) (current_score st) /\
  best_consistent (best_key st) (best_plain st) (best_score st).

Lemma decrypt_permutation (key : list Z) :
  key ≡ₚ range keylen ->
  exists plain, columnar_decrypt cipher key = Return plain.
Proof.
  intros Hkey.
  assert (length key = keylen) as Hlen.
  { by rewrite (Permutation_length Hkey), ColumnarFacts.length_range. }
  destruct (ColumnarFacts.columnar_decrypt_spec cipher key) as (_ & Hret & _).
  destruct Hret as (out & Hout & _); [by rewrite Hlen | lia | by exists out].
Qed.

Lemma climb_step_consistent (iterations : nat) (st : climb) (i : nat) :
  climb_consistent st ->
  exists st', climb_step cipher keylen iterations st i = Return st' /\ climb_consistent st'.
Proof.
  intros [(Hkey & Hplain & Hscore) Hbest]. unfold climb_step.
  destruct (sample2_below keylen (c_rng st) keylen_ge_2) as (a & b & g & -> & Ha & Hb).
  run_bind.
  assert (length (current_key st) = keylen) as Hlen.
  { by rewrite (Permutation_length Hkey), ColumnarFacts.length_range. }
  destruct (swap_Permutation (current_key st) a b) as (new_key & -> & Hnew); [lia..|].
  run_bind. rewrite Hkey in Hnew.
  destruct (decrypt_permutation new_key Hnew) as (new_plain & Hnp). rewrite Hnp. run_bind.
  assert (consistent new_key new_plain (score_text new_plain)) as Hnewc by done.
  assert (consistent (current_key st) (current_plain st) (current_score st)) as Hcur by done.
  destruct (PrimFloat.ltb (current_score st) (score_text new_plain)).
  - destruct (PrimFloat.ltb (best_score st) (score_text new_plain)) eqn:E;
      cbn [best_score current_score]; rewrite E;
      (eexists; split; [reflexivity|]); split; done.
  - destruct (rng_random g) as [u g'].
    destruct (PrimFloat.ltb u _).
    + destruct (PrimFloat.ltb (best_score st) (score_text new_plain)) eqn:E;
        cbn [best_score current_score]; rewrite E;
        (eexists; split; [reflexivity|]); split; done.
    + destruct (PrimFloat.ltb (best_score st) (current_score st)) eqn:E;
        cbn [best_score current_score]; rewrite E;
        (eexists; split; [reflexivity|]); split; done.
Qed.

Lemma hillclimb_consistent (iterations restarts : nat) (rng_seed : option Z) (urandom : Z) :
  exists key plain score,
    hillclimb_transposition cipher keylen iterations restarts rng_seed urandom
    = Return (key, plain, score) /\
    best_consistent key plain score.
Proof.
  unfold hillclimb_transposition.
  set (P := fun st : rng * option (list Z) * list N * float =>
              best_consistent st.1.1.2 st.1.2 st.2).
  destruct (foldl_result_invariant P
              (fun (s : rng * option (list Z) * list N * float) (r : nat) =>
                 let '(g, best_key_, best_plain_, best_score_) := s in
                 let '(current_key_, g) := random_key keylen g in
                 current_plain_ ← columnar_decrypt cipher current_key_ ;
                 let current_score_ := score_text current_plain_ in
                 st ← foldl (fun acc i => st ← acc ; climb_step cipher keylen iterations st i)
                            (Return {| c_rng := g; current_key := current_key_;
                                       current_plain := current_plain_;
                                       current_score := current_score_;
                                       best_key := best_key_; best_plain := best_plain_;
                                       best_score := best_score_ |})
                            (seq 0 iterations) ;
                 Return (c_rng st, best_key st, best_plain st, best_score st))
              (seq 0 restarts) (Random rng_seed urandom, None, [], (-1e9)%float))
    as ([[[g bk] bp] bs] & Hfold & Hbest).
  - done.
  - intros [[[g bk] bp] bs] r Hbest. unfold P in Hbest. cbn [fst snd] in Hbest.
    unfold random_key. pose proof (shuffle_permutes (range keylen) g) as Hshuffle.
    destruct (rng_shuffle (range keylen) g) as [key0 g0]. cbn [fst] in Hshuffle.
    destruct (decrypt_permutation key0 Hshuffle) as (plain0 & Hplain0). rewrite Hplain0.
    run_bind.
    destruct (foldl_result_invariant climb_consistent
                (fun st i => climb_step cipher keylen iterations st i) (seq 0 iterations)
                {| c_rng := g0; current_key := key0; current_plain := plain0;
                   current_score := score_text plain0;
                   best_key := bk; best_plain := bp; best_score := bs |})
      as (st & Hst & _ & Hb).
    + split; done.
    + intros st i. apply climb_step_consistent.
    + rewrite Hst. run_bind. eexists. split; [reflexivity|]. exact Hb.
  - exists bk, bp, bs. split; [|exact Hbest].
    match goal with
    | |- mbind _ ?m = _ =>
        replace m with (Return (g, bk, bp, bs) : result (rng * option (list Z) * list N * float))
          by (symmetry; exact Hfold)
    end.
    reflexivity.
Qed.

End Climb.
End HillclimbFacts.

(** The stand-in generator shuffles and samples as [random] does. *)
Module LcgFacts.

Lemma lcg_shuffle_from_Permutation (i : nat) (l : list Z) (s : Z) :
  (lcg_shuffle_from i l s).1 ≡ₚ l.
Proof.
  revert l s. induction i as [|i IH]; intros l s; [done|].
  cbn [lcg_shuffle_from].
  destruct (l !! S i) as [x|] eqn:Hx; [|done].
  destruct (l !! Z.to_nat _) as [y|] eqn:Hy; [|done].
  rewrite IH. by apply HillclimbFacts.insert_swap_Permutation.
Qed.

Lemma lcg_sample2_below (n : nat) (s : Z) :
  2 <= n -> exists a b s', lcg_sample2 n s = Return (a, b, s') /\ a < n /\ b < n.
Proof.
  intros Hn. unfold lcg_sample2.
  destruct (Nat.ltb_spec n 2) as [?|_]; [lia|].
  eexists _, _, _. split; [reflexivity|]. split.
  - pose proof (Z.mod_pos_bound (lcg_next s) (Z.of_nat n) ltac:(lia)). lia.
  - apply Nat.mod_upper_bound. lia.
Qed.

End LcgFacts.

(** X17. The hill climb keeps its keys rearrangements of [0 .. keylen-1]:
    with a generator whose [shuffle] rearranges its list and whose
    [sample(range(n), 2)] gives two positions below [n], and a key length
    of at least 2, [hillclimb_transposition] returns for every ciphertext,
    number of iterations and of restarts (no [ValueError] from
    [key_order.index], no [IndexError]); the key it reports, unless it is
    [None], is a rearrangement of [0 .. keylen-1], the reported text is
    [columnar_decrypt] of the ciphertext under that key, and the reported
    score is [score_text] of that text. *)
Theorem solver_reports_consistent_triple `{UnicodeDB} `{PyRuntime} (cipher : list N)
    (keylen iterations restarts : nat) (rng_seed : option Z) (urandom : Z) :
  (forall l g, (rng_shuffle l g).1 ≡ₚ l) ->
  (forall n g, 2 <= n ->
     exists a b g', rng_sample2 n g = Return (a, b, g') /\ a < n /\ b < n) ->
  2 <= keylen ->
  exists key plain score,
    TranspositionBruteforce.hillclimb_transposition cipher keylen iterations restarts
      rng_seed urandom = Return (key, plain, score) /\
    match key with
    | Some key =>
        key ≡ₚ range keylen /\
        TranspositionBruteforce.columnar_decrypt cipher key = Return plain /\
        score = TranspositionBruteforce.score_text plain
    | None => plain = [] /\ score = (-1e9)%float
    end.
Proof.
  intros Hshuffle Hsample Hkeylen.
  apply (HillclimbFacts.hillclimb_consistent Hshuffle Hsample cipher keylen Hkeylen).
Qed.

Lemma solver_reports_consistent_triple_witness :
  exists key plain score,
    TranspositionBruteforce.hillclimb_transposition (H:=ascii_db) (H0:=lcg (fun x => x))
      (lit "HELLOWORLDTHEEND") 3 2 2 (Some 42%Z) 0%Z = Return (key, plain, score) /\
    match key with
    | Some key =>
        key ≡ₚ range 3 /\
        TranspositionBruteforce.columnar_decrypt (lit "HELLOWORLDTHEEND") key = Return plain /\
        score = TranspositionBruteforce.score_text (H:=ascii_db) plain
    | None => plain = [] /\ score = (-1e9)%float
    end.
Proof.
  apply (solver_reports_consistent_triple (H:=ascii_db) (H0:=lcg (fun x => x))
           (lit "HELLOWORLDTHEEND") 3 2 2 (Some 42%Z) 0%Z).
  - intros l g. apply LcgFacts.lcg_shuffle_from_Permutation.
  - intros n g. apply LcgFacts.lcg_sample2_below.
  - lia.
Defined.
